(** * localllm: the browser client's stream decoder, renderer and chat store

    A shallow embedding of the two client scripts of the repository:

    - [static/app.js], the multi-chat client (module [App]);
    - the single-chat client with the hand-written Markdown formatter
      (module [Basic]).

    JavaScript strings are sequences of UTF-16 code units, modelled as
    [list N].  The regular expressions of the sources are kept as regular
    expression terms and run by a small backtracking matcher that follows
    the ECMAScript priority order; [String.prototype.replace],
    [String.prototype.split] and [TextDecoder.decode] are modelled after
    the ECMAScript and Encoding standards.

    What the model leaves out: scrolling of the chat window, syntax
    highlighting ([hljs.highlightAll]), the markup of the side bar's
    chat list (its click listeners are modelled as events on the chats
    of the store), the theme switch, the clock, the cube and the
    clipboard, none of which is read back by the code modelled here; and
    [generateUUID], whose arithmetic is on doubles read from the clock
    and the random generator: the id it returns is an input of the
    model.  Markup is kept as the string that was assigned: what the
    browser makes of it (its elements and their classes, its
    serialisation) is not modelled, and a statement that depends on it
    says for which markup it is made.  An event handler is run from its
    start to its end: each [await] gets its result from the given server
    behaviour, and no other handler runs in between. *)

From Stdlib Require Import Ascii String DecimalString.
From stdpp Require Import base option list gmap.

Local Open Scope nat_scope.

(** ** JavaScript strings *)

Abbreviation jsstring := (list N).

(** An ASCII literal of the source as a JavaScript string. *)
Definition lit (s : string) : jsstring :=
  map N_of_ascii (list_ascii_of_string s).

Definition chLF : N := 10.
Definition chCR : N := 13.
Definition chQuot : N := 34.   (* the double quote *)

(** The values the modelled functions can receive where the source tests
    for absence: [undefined], [null] or a string. *)
Inductive jsval :=
| JUndefined
| JNull
| JStr (s : jsstring).

(** [ToBoolean]: a string is truthy unless it is empty. *)
Definition truthy (v : jsval) : bool :=
  match v with
  | JStr (_ :: _) => true
  | _ => false
  end.

(** ECMAScript LineTerminator: LF, CR, LS, PS. *)
Definition is_line_terminator (c : N) : bool :=
  (c =? 10)%N || (c =? 13)%N || (c =? 8232)%N || (c =? 8233)%N.

(** ECMAScript WhiteSpace and LineTerminator, the set [trim] and [\s]
    strip: TAB, LF, VT, FF, CR, SP, NBSP, U+1680, U+2000..U+200A, LS, PS,
    U+202F, U+205F, U+3000 and the byte order mark U+FEFF. *)
Definition is_space (c : N) : bool :=
  ((9 <=? c)%N && (c <=? 13)%N) || (c =? 32)%N || (c =? 160)%N
  || (c =? 5760)%N || ((8192 <=? c)%N && (c <=? 8202)%N)
  || (c =? 8232)%N || (c =? 8233)%N || (c =? 8239)%N || (c =? 8287)%N
  || (c =? 12288)%N || (c =? 65279)%N.

Fixpoint trim_start (s : jsstring) : jsstring :=
  match s with
  | c :: s' => if is_space c then trim_start s' else s
  | [] => []
  end.

Definition trim_end (s : jsstring) : jsstring :=
  rev (trim_start (rev s)).

(** [String.prototype.trim]. *)
Definition trim (s : jsstring) : jsstring := trim_end (trim_start s).

Definition jsstring_eqb (a b : jsstring) : bool := bool_decide (a = b).

(** [String.prototype.startsWith]. *)
Fixpoint starts_with (p s : jsstring) : bool :=
  match p, s with
  | [], _ => true
  | a :: p', b :: s' => (a =? b)%N && starts_with p' s'
  | _ :: _, [] => false
  end.

(** [String.prototype.replace] with a string pattern and a replacement
    without [$]: only the first occurrence is replaced. *)
Fixpoint replace_first (pat rep s : jsstring) : jsstring :=
  if starts_with pat s then rep ++ drop (length pat) s
  else match s with
       | [] => []
       | c :: s' => c :: replace_first pat rep s'
       end.

(** ** Regular expressions *)

Module Regex.

(** The fragment of the ECMAScript pattern syntax that the two scripts
    use.  [RBol m] and [REol m] are [^] and [$]; [m] is the multiline
    flag.  [RStar g r] is [r*] when [g] is true and [r*?] otherwise;
    [ROpt r] is [r?]; [RGroup n r] is the [n]-th capturing group. *)
Inductive re :=
| REps
| RChar (c : N)
| RSet (p : N -> bool)
| RSeq (a b : re)
| RAlt (a b : re)
| RStar (greedy : bool) (a : re)
| ROpt (a : re)
| RGroup (n : nat) (a : re)
| RBol (m : bool)
| REol (m : bool).

(** A literal run of characters. *)
Definition rlit (s : string) : re :=
  foldr (fun c r => RSeq (RChar c) r) REps (lit s).

(** [.]: any code unit but a line terminator. *)
Definition rdot : re := RSet (fun c => negb (is_line_terminator c)).

(** A position of the matcher: the text before it (latest character
    first), the text after it, and the captures made so far. *)
Record mstate := MState {
  m_pre : list N;
  m_rest : list N;
  m_caps : list (nat * jsstring)
}.

Definition advance (c : N) (r : list N) (st : mstate) : mstate :=
  MState (c :: m_pre st) r (m_caps st).

(** The text consumed between two positions of the same run. *)
Definition consumed (st st' : mstate) : jsstring :=
  rev (take (length (m_pre st') - length (m_pre st)) (m_pre st')).

Definition progressed (st st' : mstate) : bool :=
  length (m_rest st') <? length (m_rest st).

(** Iteration of a starred body.  As in ECMAScript's RepeatMatcher an
    iteration that consumes nothing is rejected.  The results come in
    priority order: a greedy star tries one more iteration first, a lazy
    star tries to stop first. *)
Fixpoint star (greedy : bool) (body : mstate -> list mstate)
    (fuel : nat) (st : mstate) : list mstate :=
  match fuel with
  | 0 => [st]
  | S fuel' =>
      let more :=
        flat_map (fun st' =>
                    if progressed st st' then star greedy body fuel' st'
                    else [])
                 (body st) in
      if greedy then more ++ [st] else st :: more
  end.

(** All the ways [r] matches at [st], best first: the head of the list
    is the match a backtracking engine returns. *)
Fixpoint rmatch (r : re) (st : mstate) : list mstate :=
  match r with
  | REps => [st]
  | RChar c =>
      match m_rest st with
      | x :: rest => if (x =? c)%N then [advance x rest st] else []
      | [] => []
      end
  | RSet p =>
      match m_rest st with
      | x :: rest => if p x then [advance x rest st] else []
      | [] => []
      end
  | RSeq a b => flat_map (rmatch b) (rmatch a st)
  | RAlt a b => rmatch a st ++ rmatch b st
  | RStar g a => star g (rmatch a) (S (length (m_rest st))) st
  | ROpt a => filter (fun st' => progressed st st' = true) (rmatch a st) ++ [st]
  | RGroup n a =>
      map (fun st' =>
             MState (m_pre st') (m_rest st')
                    ((n, consumed st st') :: m_caps st'))
          (rmatch a st)
  | RBol m =>
      match m_pre st with
      | [] => [st]
      | c :: _ => if m && is_line_terminator c then [st] else []
      end
  | REol m =>
      match m_rest st with
      | [] => [st]
      | c :: _ => if m && is_line_terminator c then [st] else []
      end
  end.

(** The match of [r] that starts exactly at the position, if any. *)
Definition match_at (r : re) (pre rest : list N) : option mstate :=
  head (rmatch r (MState pre rest [])).

(** The value of capture [n]: the latest one recorded. *)
Fixpoint capture (n : nat) (caps : list (nat * jsstring)) : option jsstring :=
  match caps with
  | [] => None
  | (k, v) :: caps' => if (k =? n)%nat then Some v else capture n caps'
  end.

(** A replacement: a function of the matched text and of the captures.
    A replacement string is the special case [template]. *)
Definition replacer := jsstring -> list (nat * jsstring) -> jsstring.

Inductive tpiece :=
| TText (s : jsstring)
| TGroup (n : nat).

(** GetSubstitution: [$n] stands for capture [n], the empty string when
    the group took no part in the match. *)
Definition template (t : list tpiece) : replacer :=
  fun _ caps =>
    flat_map (fun p => match p with
                       | TText s => s
                       | TGroup n => default [] (capture n caps)
                       end) t.

(** [String.prototype.replace] with a global pattern.  At each position
    the pattern is tried; a match is replaced and the scan resumes after
    it; an empty match is replaced and the scan moves one code unit on;
    otherwise the code unit is copied. *)
Fixpoint replace_loop (fuel : nat) (r : re) (f : replacer)
    (pre rest : list N) : jsstring :=
  match fuel with
  | 0 => rest
  | S fuel' =>
      match match_at r pre rest with
      | Some st' =>
          let rep := f (consumed (MState pre rest []) st') (m_caps st') in
          if length (m_rest st') <? length rest
          then rep ++ replace_loop fuel' r f (m_pre st') (m_rest st')
          else match rest with
               | [] => rep
               | c :: rest' => rep ++ c :: replace_loop fuel' r f (c :: pre) rest'
               end
      | None =>
          match rest with
          | [] => []
          | c :: rest' => c :: replace_loop fuel' r f (c :: pre) rest'
          end
      end
  end.

Definition replace_all (r : re) (f : replacer) (s : jsstring) : jsstring :=
  replace_loop (S (length s)) r f [] s.

(** [String.prototype.split] with a pattern and no limit.  [seg] is the
    text since the last separator, latest character first.  A separator
    that would end where the segment starts is skipped; the captures
    [1..ngroups] of each separator are spliced into the result (the
    patterns of the scripts have no group that can stay unset). *)
Fixpoint split_loop (fuel : nat) (r : re) (ngroups : nat)
    (seg pre rest : list N) : list jsstring :=
  match fuel with
  | 0 => [rev seg ++ rest]
  | S fuel' =>
      match rest with
      | [] => [rev seg]
      | c :: rest' =>
          match match_at r pre rest with
          | Some st' =>
              if (length (m_rest st') =? length rest) && (length seg =? 0)
              then split_loop fuel' r ngroups (c :: seg) (c :: pre) rest'
              else rev seg
                   :: map (fun n => default [] (capture n (m_caps st')))
                          (seq 1 ngroups)
                   ++ split_loop fuel' r ngroups [] (m_pre st') (m_rest st')
          | None => split_loop fuel' r ngroups (c :: seg) (c :: pre) rest'
          end
      end
  end.

Definition split (r : re) (ngroups : nat) (s : jsstring) : list jsstring :=
  match s with
  | [] => match match_at r [] [] with Some _ => [] | None => [[]] end
  | _ => split_loop (S (2 * length s)) r ngroups [] [] s
  end.

End Regex.

Import Regex.

(** ** TextDecoder *)

Module TextDecoder.

(** The UTF-8 decoder of the Encoding standard: bytes needed, bytes
    seen, the code point under construction and the bounds of the next
    continuation byte. *)
Record utf8 := Utf8 {
  u_needed : N;
  u_seen : N;
  u_cp : N;
  u_lower : N;
  u_upper : N
}.

Definition utf8_init : utf8 := Utf8 0 0 0 128 191.

(** A byte met when no sequence is open. *)
Definition utf8_lead (b : N) : utf8 * list N :=
  if (b <=? 127)%N then (utf8_init, [b])
  else if (194 <=? b)%N && (b <=? 223)%N then
    (Utf8 1 0 (N.land b 31) 128 191, [])
  else if (224 <=? b)%N && (b <=? 239)%N then
    (Utf8 2 0 (N.land b 15)
          (if (b =? 224)%N then 160 else 128)
          (if (b =? 237)%N then 159 else 191), [])
  else if (240 <=? b)%N && (b <=? 244)%N then
    (Utf8 3 0 (N.land b 7)
          (if (b =? 240)%N then 144 else 128)
          (if (b =? 244)%N then 143 else 191), [])
  else (utf8_init, [65533%N]).

(** One byte through the decoder; the result is the new state and the
    code points emitted.  A byte that cannot continue the open sequence
    yields U+FFFD and is then read again as a lead byte. *)
Definition utf8_byte (st : utf8) (b : N) : utf8 * list N :=
  if (u_needed st =? 0)%N then utf8_lead b
  else if (b <? u_lower st)%N || (u_upper st <? b)%N then
    let '(st', out) := utf8_lead b in (st', 65533%N :: out)
  else
    let cp := N.lor (N.shiftl (u_cp st) 6) (N.land b 63) in
    let seen := (u_seen st + 1)%N in
    if (seen =? u_needed st)%N then (utf8_init, [cp])
    else (Utf8 (u_needed st) seen cp 128 191, []).

(** A code point as UTF-16 code units. *)
Definition utf16 (cp : N) : jsstring :=
  if (cp <=? 65535)%N then [cp]
  else let c := (cp - 65536)%N in
       [(55296 + N.shiftr c 10)%N; (56320 + N.land c 1023)%N].

(** A [TextDecoder] object: the UTF-8 state and the "BOM seen" flag. *)
Record t := Decoder {
  d_utf8 : utf8;
  d_bom_seen : bool
}.

(** [new TextDecoder()]. *)
Definition create : t := Decoder utf8_init false.

(** A code point leaving the decoder: the first one is dropped when it
    is the byte order mark. *)
Definition emit (seen : bool) (cp : N) : bool * jsstring :=
  if negb seen && (cp =? 65279)%N then (true, []) else (true, utf16 cp).

Fixpoint emit_all (seen : bool) (cps : list N) : bool * jsstring :=
  match cps with
  | [] => (seen, [])
  | cp :: cps' =>
      let '(seen1, out1) := emit seen cp in
      let '(seen2, out2) := emit_all seen1 cps' in
      (seen2, out1 ++ out2)
  end.

Definition decode_byte (d : t) (b : Byte.byte) : t * jsstring :=
  let '(u, cps) := utf8_byte (d_utf8 d) (Byte.to_N b) in
  let '(seen, out) := emit_all (d_bom_seen d) cps in
  (Decoder u seen, out).

(** [decoder.decode(value, { stream: true })]: the bytes go through the
    decoder one by one and the state is kept for the next call; an
    unfinished sequence at the end of the chunk emits nothing. *)
Fixpoint decode (d : t) (bytes : list Byte.byte) : t * jsstring :=
  match bytes with
  | [] => (d, [])
  | b :: bytes' =>
      let '(d1, out1) := decode_byte d b in
      let '(d2, out2) := decode d1 bytes' in
      (d2, out1 ++ out2)
  end.

End TextDecoder.

(** ** The page *)

(** What a chat message shows: text set through [textContent] or markup
    set through [innerHTML]. *)
Inductive content :=
| Text (s : jsstring)
| Html (s : jsstring).

(** The children of the chat window.  [Message] is a message made by
    [addMessageToChat] (or the error box of the single-chat client);
    [Streaming] is the element made by [createAssistantMessageElements]:
    the markup of its stream-content span, whether the cursor span of
    class streaming is still there, and the text of its raw-output
    [pre]. *)
Inductive node :=
| Message (cls : jsstring) (body : content)
| Streaming (html : jsstring) (cursor : bool) (raw : jsstring).

(** A request made with [fetch]: a POST to /stream_chat with the prompt,
    the model and (multi-chat client only) the chat id, or a POST to
    /reset_chat with the chat id. *)
Inductive request :=
| StreamChat (prompt : jsstring) (model : jsval) (chat_id : option jsstring)
| ResetChat (chat_id : jsstring).

(** The part of the page both clients use: the value of the input box,
    the children of the chat window, the alerts shown, the requests sent
    and the console.  Scrolling is left out. *)
Record page := Page {
  userInput : jsstring;
  chatWindow : list node;
  alerts : list jsstring;
  requests : list request;
  console : list jsstring
}.

Definition set_userInput (v : jsstring) (p : page) : page :=
  Page v (chatWindow p) (alerts p) (requests p) (console p).
Definition set_chatWindow (c : list node) (p : page) : page :=
  Page (userInput p) c (alerts p) (requests p) (console p).
Definition alert (m : jsstring) (p : page) : page :=
  Page (userInput p) (chatWindow p) (alerts p ++ [m]) (requests p) (console p).
Definition fetch (r : request) (p : page) : page :=
  Page (userInput p) (chatWindow p) (alerts p) (requests p ++ [r]) (console p).
Definition console_error (m : jsstring) (p : page) : page :=
  Page (userInput p) (chatWindow p) (alerts p) (requests p) (console p ++ [m]).

(** [chatWindow.appendChild]. *)
Definition appendChild (n : node) (p : page) : page :=
  set_chatWindow (chatWindow p ++ [n]) p.

Definition has_cursor (n : node) : bool :=
  match n with
  | Streaming _ c _ => c
  | Message _ _ => false
  end.

(** [document.querySelector('.streaming')] followed by [remove()] when an
    element was found: the first cursor in document order goes.  This is
    the whole effect as long as the cursors are the only elements of
    that class in the document.  The single-chat client escapes every
    text before it becomes markup, and its formatter makes no element of
    that class.  The multi-chat client writes what [marked.parse]
    returns into the page as it is, so there an answer can bring
    elements of that class with it, and the lookup finds the first of
    them instead: the statements below about the chat window of that
    client after a removal are made for windows and answers whose tags
    carry no attributes ([plain_node] and [bare_markup]). *)
Fixpoint remove_cursor (ns : list node) : list node :=
  match ns with
  | [] => []
  | Streaming h true r :: ns' => Streaming h false r :: ns'
  | n :: ns' => n :: remove_cursor ns'
  end.

(** Assignments through the handles that
    [createAssistantMessageElements] returns; a handle is the position
    of the element in the chat window. *)
Definition set_raw (v : jsstring) (n : node) : node :=
  match n with
  | Streaming h c _ => Streaming h c v
  | Message _ _ => n
  end.
Definition set_html (v : jsstring) (n : node) : node :=
  match n with
  | Streaming _ c r => Streaming v c r
  | Message _ _ => n
  end.
Definition get_html (n : node) : jsstring :=
  match n with
  | Streaming h _ _ => h
  | Message _ _ => []
  end.

(** [createAssistantMessageElements]: a new streaming element with an
    empty content span, the cursor and an empty raw-output [pre]; the
    result is the page and the handle of the element. *)
Definition createAssistantMessageElements (p : page) : page * nat :=
  (appendChild (Streaming [] true []) p, length (chatWindow p)).

(** The raw-output toggle of a streaming element, which nothing else
    reads: the inline [display] of the raw container (the empty string
    as long as the script has not set it) and the text of the button. *)
Record raw_toggle := RawToggle {
  display : jsstring;
  label : jsstring
}.

(** A [keydown] event of the input box: the key and whether Shift is
    held. *)
Record key_event := KeyEvent {
  key : jsstring;
  shiftKey : bool
}.

(** ** The response of the server *)

(** What [reader.read()] resolves to, one after the other, until the
    body is done: a chunk of bytes, or a rejection with its message. *)
Inductive read_event :=
| Chunk (bytes : list Byte.byte)
| ReadFailure (message : jsstring).

(** What [fetch] resolves to: a rejection (network failure), or a
    response with its [ok] flag, status text and body. *)
Inductive fetch_result :=
| Rejected (message : jsstring)
| Response (ok : bool) (statusText : jsstring) (body : list read_event).

(** How a function ends: normally, or by throwing an error with its
    message. *)
Inductive completion (S : Type) :=
| Normal (s : S)
| Thrown (message : jsstring) (s : S).
Arguments Normal {S} s.
Arguments Thrown {S} message s.

(** The control flow of a loop body: go on, [break], or throw. *)
Inductive flow (S : Type) :=
| Next (s : S)
| Break (s : S)
| Raise (message : jsstring) (s : S).
Arguments Next {S} s.
Arguments Break {S} s.
Arguments Raise {S} message s.

(** [for (const x of l) body]. *)
Fixpoint for_of {A S : Type} (body : A -> S -> flow S) (l : list A) (s : S)
    : flow S :=
  match l with
  | [] => Next s
  | x :: l' =>
      match body x s with
      | Next s' => for_of body l' s'
      | Break s' => Break s'
      | Raise m s' => Raise m s'
      end
  end.

(** The line separator of [processStreamResponse]. *)
Definition re_newline : re := RSeq (ROpt (RChar chCR)) (RChar chLF).

(** [lines.pop()] splits the array into its last element and the rest.
    The array that [split] makes with these separators is never empty, so
    the [undefined] of an empty array does not arise. *)
Definition pop (l : list jsstring) : list jsstring * jsstring :=
  (removelast l, default [] (last l)).

Definition DONE : jsstring := lit "[DONE]".
Definition data_prefix : jsstring := lit "data: ".

(** ** The single-chat client: escaping and the Markdown formatter *)

Module Basic.

(** [escapeHtml]'s pattern, flag g: the class of the ampersand, the two
    angle brackets, the double quote (34) and the apostrophe (39). *)
Definition re_special : re :=
  RSet (fun c => (c =? 38)%N || (c =? 60)%N || (c =? 34)%N
                 || (c =? 39)%N || (c =? 62)%N).

(** The object literal that [escapeHtml]'s callback indexes by the
    matched text; a key that is absent gives [undefined]. *)
Definition entity_table : list (jsstring * jsstring) :=
  [ (lit "&", lit "&amp;");
    (lit "<", lit "&lt;");
    (lit ">", lit "&gt;");
    ([chQuot], lit "&quot;");
    (lit "'", lit "&#039;") ].

Fixpoint table_get (k : jsstring) (t : list (jsstring * jsstring))
    : option jsstring :=
  match t with
  | [] => None
  | (k', v) :: t' => if jsstring_eqb k k' then Some v else table_get k t'
  end.

(** A callback result is converted with ToString: [undefined] would be
    spliced in as the text "undefined". *)
Definition entity_of : replacer :=
  fun m _ => default (lit "undefined") (table_get m entity_table).

(** [unsafe?.replace(pattern, callback) || ''].  Optional chaining gives
    [undefined] for [null] and [undefined], and [||] turns every falsy
    left operand into the empty string. *)
Definition escapeHtml (unsafe : jsval) : jsstring :=
  let r := match unsafe with
           | JStr s => JStr (replace_all re_special entity_of s)
           | JUndefined | JNull => JUndefined
           end in
  match r with
  | JStr s => if truthy r then s else []
  | _ => []
  end.

(** The patterns of [formatMarkdown], in source order.  In the comments
    a pattern is written between slashes as in the source, with a blank
    put between a star and a closing parenthesis. *)
Definition re_h3 : re :=          (* /^### (.*$)/gm *)
  RSeq (RBol true) (RSeq (rlit "### ")
       (RGroup 1 (RSeq (RStar true rdot) (REol true)))).
Definition re_h2 : re :=          (* /^## (.*$)/gm *)
  RSeq (RBol true) (RSeq (rlit "## ")
       (RGroup 1 (RSeq (RStar true rdot) (REol true)))).
Definition re_h1 : re :=          (* /^# (.*$)/gm *)
  RSeq (RBol true) (RSeq (rlit "# ")
       (RGroup 1 (RSeq (RStar true rdot) (REol true)))).
Definition re_bold : re :=        (* /\*\*(.*?)\*\*/g *)
  RSeq (rlit "**") (RSeq (RGroup 1 (RStar false rdot)) (rlit "**")).
Definition re_italic : re :=      (* /\*(.*?)\*/g *)
  RSeq (rlit "*") (RSeq (RGroup 1 (RStar false rdot)) (rlit "*")).
Definition re_code : re :=        (* /`((.|\n)*?)`/g *)
  RSeq (rlit "`")
       (RSeq (RGroup 1 (RStar false (RGroup 2 (RAlt rdot (RChar chLF)))))
             (rlit "`")).
Definition re_fence : re :=       (* /```([\s\S]*?)```/g *)
  RSeq (rlit "```")
       (RSeq (RGroup 1 (RStar false
                          (RSet (fun c => is_space c || negb (is_space c)))))
             (rlit "```")).
Definition re_item : re :=        (* /^- (.* )/gm *)
  RSeq (RBol true) (RSeq (rlit "- ") (RGroup 1 (RStar true rdot))).

Definition wrap (open close : string) : replacer :=
  template [TText (lit open); TGroup 1; TText (lit close)].

Definition nl_indent (n : nat) : jsstring := chLF :: repeat 32%N n.

(** The template literal of the fenced-block callback, with the line
    breaks and the indentation of the source. *)
Definition code_block : replacer :=
  fun _ caps =>
    let code := JStr (default [] (capture 1 caps)) in
    nl_indent 12 ++ lit "<div class=" ++ [chQuot] ++ lit "code-block"
      ++ [chQuot] ++ lit ">"
    ++ nl_indent 16 ++ lit "<button class=" ++ [chQuot] ++ lit "copy-btn"
      ++ [chQuot] ++ lit " onclick=" ++ [chQuot] ++ lit "copyToClipboard('"
      ++ escapeHtml code ++ lit "')" ++ [chQuot] ++ lit ">"
    ++ nl_indent 20 ++ lit "Copy Code"
    ++ nl_indent 16 ++ lit "</button>"
    ++ nl_indent 16 ++ lit "<pre><code>" ++ escapeHtml code
      ++ lit "</code></pre>"
    ++ nl_indent 12 ++ lit "</div>"
    ++ nl_indent 8.

Definition rule_h3 := replace_all re_h3 (wrap "<h3>" "</h3>").
Definition rule_h2 := replace_all re_h2 (wrap "<h2>" "</h2>").
Definition rule_h1 := replace_all re_h1 (wrap "<h1>" "</h1>").
Definition rule_bold := replace_all re_bold (wrap "<strong>" "</strong>").
Definition rule_italic := replace_all re_italic (wrap "<em>" "</em>").
Definition rule_code := replace_all re_code (wrap "<code>" "</code>").
Definition rule_fence := replace_all re_fence code_block.
Definition rule_item := replace_all re_item (wrap "<ul><li>" "</li></ul>").

(** [formatMarkdown]: the chain of [replace] calls of the source. *)
Definition formatMarkdown (text : jsstring) : jsstring :=
  let t1 := rule_h3 text in
  let t2 := rule_h2 t1 in
  let t3 := rule_h1 t2 in
  let t4 := rule_bold t3 in
  let t5 := rule_italic t4 in
  let t6 := rule_code t5 in
  let t7 := rule_fence t6 in
  rule_item t7.

(** The state of the single-chat client: the selected model and the
    page. *)
Record world := World {
  selectedModel : jsval;
  ui : page
}.

(** [addMessageToChat({ type, content, isSystem })]. *)
Definition addMessageToChat (type content : jsstring) (isSystem : bool)
    (p : page) : page :=
  let cls := lit "message " ++ type ++ lit " "
             ++ (if isSystem then lit "system" else []) in
  let html := if isSystem then escapeHtml (JStr content)
              else formatMarkdown (escapeHtml (JStr content)) in
  appendChild (Message cls (Html html)) p.

(** [selectModel]. *)
Definition selectModel (modelName : jsstring) (w : world) : world :=
  World (JStr modelName)
        (addMessageToChat (lit "assistant")
                          (lit "Model selected: " ++ modelName) true (ui w)).

(** The separator of this client's [split]: the line break, captured. *)
Definition re_newline_captured : re := RGroup 1 re_newline.

(** The locals of [processStreamResponse]. *)
Record locals := Locals {
  decoder : TextDecoder.t;
  partialChunk : jsstring;
  rawText : jsstring
}.

(** The body of the [for] loop over the non-blank lines; the state is
    [rawText] and the page. *)
Definition on_line (contentElement rawPre : nat) (line : jsstring)
    (s : jsstring * page) : flow (jsstring * page) :=
  let '(rawText, p) := s in
  if starts_with data_prefix line then
    let data := trim (replace_first data_prefix [] line) in
    if jsstring_eqb data DONE then Break s
    else
      let rawText := rawText ++ data ++ [chLF] in
      let p := set_chatWindow (alter (set_raw rawText) rawPre (chatWindow p)) p in
      let p := set_chatWindow
                 (alter (set_html (formatMarkdown (escapeHtml (JStr rawText))))
                        contentElement (chatWindow p)) p in
      Next (rawText, p)
  else Next s.

(** One turn of the [while] loop after a chunk was read. *)
Definition on_chunk (contentElement rawPre : nat) (value : list Byte.byte)
    (l : locals) (p : page) : flow (locals * page) :=
  let '(d, chunk) := TextDecoder.decode (decoder l) value in
  let buffer := partialChunk l ++ chunk in
  let '(lines, partial) := pop (split re_newline_captured 1 buffer) in
  let lines := filter (fun ln => truthy (JStr (trim ln)) = true) lines in
  match for_of (on_line contentElement rawPre) lines (rawText l, p) with
  | Next (raw, p') | Break (raw, p') => Next (Locals d partial raw, p')
  | Raise m (raw, p') => Raise m (Locals d partial raw, p')
  end.

(** The [while (true)] loop: it ends when the reader reports [done], and
    a failed read throws. *)
Fixpoint read_loop (contentElement rawPre : nat) (body : list read_event)
    (l : locals) (p : page) : completion (locals * page) :=
  match body with
  | [] => Normal (l, p)
  | ReadFailure m :: _ => Thrown m (l, p)
  | Chunk value :: body' =>
      match on_chunk contentElement rawPre value l p with
      | Next (l', p') | Break (l', p') =>
          read_loop contentElement rawPre body' l' p'
      | Raise m s => Thrown m s
      end
  end.

(** [processStreamResponse]. *)
Definition processStreamResponse (body : list read_event)
    (contentElement rawPre : nat) (p : page) : completion page :=
  match read_loop contentElement rawPre body
                  (Locals TextDecoder.create [] []) p with
  | Normal (_, p') => Normal (set_chatWindow (remove_cursor (chatWindow p')) p')
  | Thrown m (_, p') => Thrown m p'
  end.

(** [handleStreamError]: the error goes to the console and into a new
    error box at the end of the chat window. *)
Definition handleStreamError (message : jsstring) (p : page) : page :=
  let p := console_error (lit "Stream error: " ++ message) p in
  appendChild (Message (lit "message error") (Text (lit "Error: " ++ message))) p.

(** [sendMessage], given what the request to /stream_chat resolves to. *)
Definition sendMessage (reply : fetch_result) (w : world) : world :=
  let prompt := trim (userInput (ui w)) in
  if negb (truthy (JStr prompt)) || negb (truthy (selectedModel w)) then
    if negb (truthy (selectedModel w))
    then World (selectedModel w) (alert (lit "Please select a model first") (ui w))
    else w
  else
    let p := addMessageToChat (lit "user") prompt false (ui w) in
    let p := set_userInput [] p in
    let '(p, h) := createAssistantMessageElements p in
    let p := fetch (StreamChat prompt (selectedModel w) None) p in
    let r := match reply with
             | Rejected m => Thrown m p
             | Response false statusText _ => Thrown statusText p
             | Response true _ body => processStreamResponse body h h p
             end in
    match r with
    | Normal p' => World (selectedModel w) p'
    | Thrown m p' => World (selectedModel w) (handleStreamError m p')
    end.

(** [handleTextareaKeyDown]: Enter without Shift cancels the default
    action of the key and sends.  The boolean is whether
    [preventDefault] was called. *)
Definition handleTextareaKeyDown (e : key_event) (reply : fetch_result)
    (w : world) : bool * world :=
  if jsstring_eqb (key e) (lit "Enter") && negb (shiftKey e)
  then (true, sendMessage reply w)
  else (false, w).

(** The toggle as [createAssistantMessageElements] of this script leaves
    it: the display is not set. *)
Definition new_toggle : raw_toggle := RawToggle [] (lit "Show raw output").

(** [toggleRawOutput(container, button)]. *)
Definition toggleRawOutput (t : raw_toggle) : raw_toggle :=
  let d := if jsstring_eqb (display t) (lit "none")
           then lit "block" else lit "none" in
  RawToggle d (if jsstring_eqb d (lit "none")
               then lit "Show raw output" else lit "Hide raw output").

End Basic.

(** ** The multi-chat client *)

Module App.

(** A question and its answer; a chat and its exchanges. *)
Record exchange := Exchange {
  question : jsstring;
  answer : jsstring
}.

Record chat := Chat {
  name : jsstring;
  messages : list exchange
}.

(** The globals of the script and the page.  [chats] is the object used
    as a map from chat id to chat; its keys are the ids that
    [generateUUID] makes and never a name that [Object.prototype]
    defines. *)
Record world := World {
  chats : gmap jsstring chat;
  currentChatId : jsstring;
  selectedModel : jsval;
  ui : page
}.

Definition set_chats (c : gmap jsstring chat) (w : world) : world :=
  World c (currentChatId w) (selectedModel w) (ui w).
Definition set_currentChatId (i : jsstring) (w : world) : world :=
  World (chats w) i (selectedModel w) (ui w).
Definition set_ui (p : page) (w : world) : world :=
  World (chats w) (currentChatId w) (selectedModel w) p.

Definition set_messages (m : list exchange) (c : chat) : chat :=
  Chat (name c) m.
Definition set_answer (a : jsstring) (e : exchange) : exchange :=
  Exchange (question e) a.

(** [messages[i]] for a JavaScript number [i]: [undefined] out of
    range, also for -1. *)
Definition at_index {A : Type} (l : list A) (i : Z) : option A :=
  if (i <? 0)%Z then None else l !! Z.to_nat i.

Section WithLibraries.

(** [marked.parse] of the Marked library and the message of the
    TypeError that the engine throws when a property of [undefined] is
    read. *)
Variable marked_parse : jsstring -> jsstring.
Variable type_error_message : jsstring.

(** [escapeHtml] of this script, applied to a string. *)
Definition escapeHtml (unsafe : jsstring) : jsstring :=
  replace_all Basic.re_special Basic.entity_of unsafe.

(** [addMessageToChat({ type, content })]. *)
Definition addMessageToChat (type content : jsstring) (p : page) : page :=
  let body := if jsstring_eqb type (lit "assistant")
              then Html (marked_parse content) else Text content in
  appendChild (Message (lit "message " ++ type) body) p.

(** [renderMessages]: the chat window is emptied and the exchanges of
    the current chat, if there is one, are shown again. *)
Definition renderMessages (w : world) : world :=
  let p := set_chatWindow [] (ui w) in
  match chats w !! currentChatId w with
  | None => set_ui p w
  | Some c =>
      set_ui (foldl (fun p qa =>
                       addMessageToChat (lit "assistant") (answer qa)
                         (addMessageToChat (lit "user") (question qa) p))
                    p (messages c)) w
  end.

(** [createNewChat(defaultName)].  [uuid] is the result of
    [generateUUID] and [answer] what the name dialog returns, which is
    only asked when no default name is given.  The list of chats in the
    side bar is redrawn from [chats] and is not part of the state. *)
Definition createNewChat (uuid : jsstring) (dialog defaultName : jsval)
    (w : world) : world :=
  let chatName := if truthy defaultName then defaultName else dialog in
  match chatName with
  | JStr (c :: n) =>
      let w := set_chats (<[uuid := Chat (c :: n) []]> (chats w)) w in
      let w := set_currentChatId uuid w in
      renderMessages w
  | _ => w
  end.

(** The click handler of a chat's name in the side bar. *)
Definition selectChat (chatId : jsstring) (w : world) : world :=
  renderMessages (set_currentChatId chatId w).

(** What the request to /reset_chat resolves to: a rejection, a body
    that is not JSON, or a response with its [ok] flag and the [error]
    field of its JSON body. *)
Inductive reset_result :=
| ResetRejected (message : jsstring)
| ResetNotJson (ok : bool) (message : jsstring)
| ResetResponse (ok : bool) (error : jsval).

(** The click handler of a chat's Reset button. *)
Definition resetChat (reply : reset_result) (chatId : jsstring) (w : world)
    : world :=
  let w := set_ui (fetch (ResetChat chatId) (ui w)) w in
  let failed m w :=
    set_ui (alert (lit "Failed to reset chat.")
              (console_error (lit "Error resetting chat: " ++ m) (ui w))) w in
  match reply with
  | ResetRejected m => failed m w
  | ResetNotJson _ m => failed m w
  | ResetResponse true _ =>
      match chats w !! chatId with
      | Some c =>
          renderMessages (set_chats (<[chatId := set_messages [] c]> (chats w)) w)
      | None => failed type_error_message w
      end
  | ResetResponse false error =>
      let m := match error with
               | JStr (c :: e) => c :: e
               | _ => lit "Failed to reset chat."
               end in
      set_ui (alert m (ui w)) w
  end.

(** The locals of [processStreamResponse] that change. *)
Record locals := Locals {
  decoder : TextDecoder.t;
  partialChunk : jsstring;
  rawText : jsstring
}.

(** The answer of exchange [chatIndex] of the current chat, when both
    exist. *)
Definition current_answer (chatIndex : Z) (w : world) : option jsstring :=
  c ← chats w !! currentChatId w;
  e ← at_index (messages c) chatIndex;
  Some (answer e).

(** [chats[currentChatId].messages[chatIndex].answer += text], guarded
    as in the source: nothing happens when the chat or the exchange is
    missing. *)
Definition append_answer (chatIndex : Z) (text : jsstring) (w : world)
    : world :=
  match chats w !! currentChatId w with
  | Some c =>
      match at_index (messages c) chatIndex with
      | Some e =>
          set_chats
            (<[currentChatId w :=
                 set_messages
                   (<[Z.to_nat chatIndex := set_answer (answer e ++ text) e]>
                      (messages c)) c]> (chats w)) w
      | None => w
      end
  | None => w
  end.

(** The body of the [for] loop over the lines; the state is [rawText]
    and the world. *)
Definition on_line (chatIndex : Z) (contentElement rawPre : nat)
    (line : jsstring) (s : jsstring * world) : flow (jsstring * world) :=
  let '(rawText, w) := s in
  if negb (truthy (JStr (trim line))) then Next s
  else if starts_with data_prefix line then
    let data := trim (replace_first data_prefix [] line) in
    if jsstring_eqb data DONE then
      Break (rawText,
             set_ui (set_chatWindow (remove_cursor (chatWindow (ui w))) (ui w)) w)
    else
      let rawText := rawText ++ data ++ [chLF] in
      let w := set_ui (set_chatWindow
                         (alter (set_raw rawText) rawPre (chatWindow (ui w)))
                         (ui w)) w in
      let w := append_answer chatIndex (data ++ [chLF]) w in
      match current_answer chatIndex w with
      | Some a =>
          Next (rawText,
                set_ui (set_chatWindow
                          (alter (set_html (marked_parse a)) contentElement
                                 (chatWindow (ui w)))
                          (ui w)) w)
      | None => Raise type_error_message (rawText, w)
      end
  else Next s.

(** One turn of the [while] loop after a chunk was read. *)
Definition on_chunk (chatIndex : Z) (contentElement rawPre : nat)
    (value : list Byte.byte) (l : locals) (w : world)
    : flow (locals * world) :=
  let '(d, chunk) := TextDecoder.decode (decoder l) value in
  let buffer := partialChunk l ++ chunk in
  let '(lines, partial) := pop (split re_newline 0 buffer) in
  match for_of (on_line chatIndex contentElement rawPre) lines (rawText l, w) with
  | Next (raw, w') | Break (raw, w') => Next (Locals d partial raw, w')
  | Raise m (raw, w') => Raise m (Locals d partial raw, w')
  end.

(** The [while (true)] loop. *)
Fixpoint read_loop (chatIndex : Z) (contentElement rawPre : nat)
    (body : list read_event) (l : locals) (w : world)
    : completion (locals * world) :=
  match body with
  | [] => Normal (l, w)
  | ReadFailure m :: _ => Thrown m (l, w)
  | Chunk value :: body' =>
      match on_chunk chatIndex contentElement rawPre value l w with
      | Next (l', w') | Break (l', w') =>
          read_loop chatIndex contentElement rawPre body' l' w'
      | Raise m s => Thrown m s
      end
  end.

(** [processStreamResponse]. *)
Definition processStreamResponse (body : list read_event)
    (contentElement rawPre : nat) (w : world) : completion world :=
  match chats w !! currentChatId w with
  | None => Thrown type_error_message w
  | Some c =>
      let chatIndex := (Z.of_nat (length (messages c)) - 1)%Z in
      match read_loop chatIndex contentElement rawPre body
                      (Locals TextDecoder.create [] []) w with
      | Normal (_, w') =>
          Normal (set_ui (set_chatWindow (remove_cursor (chatWindow (ui w')))
                                         (ui w')) w')
      | Thrown m (_, w') => Thrown m w'
      end
  end.

(** The [catch] block of [sendMessage].  [contentElement.innerHTML +=]
    reads the markup of the element back and assigns it with the error
    appended.  Here the error is appended to the markup that was last
    assigned: that is what is read back from an element that is still
    empty, as it is when the request itself fails.  For an element with
    content the browser's own serialisation, made after syntax
    highlighting, stands in that place; no statement below is about the
    markup of such an element. *)
Definition on_stream_error (contentElement : nat) (message : jsstring)
    (w : world) : world :=
  let p := console_error (lit "Stream error: " ++ message) (ui w) in
  let errorMsg := lit "Error: " ++ message in
  let p := set_chatWindow
             (alter (fun n => set_html (get_html n ++ lit "<br><em>"
                                        ++ escapeHtml errorMsg ++ lit "</em>") n)
                    contentElement (chatWindow p)) p in
  let w := set_ui p w in
  match chats w !! currentChatId w with
  | Some c =>
      if 0 <? length (messages c) then
        set_chats
          (<[currentChatId w :=
               set_messages (alter (set_answer errorMsg)
                                   (length (messages c) - 1) (messages c)) c]>
             (chats w)) w
      else w
  | None => w
  end.

(** The two statements of [sendMessage] that store the new exchange:
    the current chat is made (as "Unnamed Chat") when it is missing, and
    the question is pushed with an empty answer. *)
Definition push_exchange (prompt : jsstring) (w : world) : world :=
  let cs := match chats w !! currentChatId w with
            | Some _ => chats w
            | None => <[currentChatId w := Chat (lit "Unnamed Chat") []]> (chats w)
            end in
  set_chats
    (alter (fun c => set_messages (messages c ++ [Exchange prompt []]) c)
           (currentChatId w) cs) w.

(** [sendMessage], given what the request to /stream_chat resolves to. *)
Definition sendMessage (reply : fetch_result) (w : world) : world :=
  let prompt := trim (userInput (ui w)) in
  if negb (truthy (JStr prompt)) then w
  else if negb (truthy (selectedModel w)) then
    set_ui (alert (lit "Please select a model first") (ui w)) w
  else
    let w := push_exchange prompt w in
    let p := addMessageToChat (lit "user") prompt (ui w) in
    let p := set_userInput [] p in
    let '(p, h) := createAssistantMessageElements p in
    let p := fetch (StreamChat prompt (selectedModel w)
                               (Some (currentChatId w))) p in
    let w := set_ui p w in
    let r := match reply with
             | Rejected m => Thrown m w
             | Response false statusText _ => Thrown statusText w
             | Response true _ body => processStreamResponse body h h w
             end in
    match r with
    | Normal w' => w'
    | Thrown m w' => on_stream_error h m w'
    end.

(** [handleTextareaKeyDown]; the boolean is whether [preventDefault]
    was called. *)
Definition handleTextareaKeyDown (e : key_event) (reply : fetch_result)
    (w : world) : bool * world :=
  if jsstring_eqb (key e) (lit "Enter") && negb (shiftKey e)
  then (true, sendMessage reply w)
  else (false, w).

(** The [change] listener of the model selector; [value] is
    [modelSelect.value]. *)
Definition onModelChange (value : jsstring) (w : world) : world :=
  World (chats w) (currentChatId w) (JStr value) (ui w).

(** A number of chats as [+] writes it into a string: in decimal. *)
Definition number_to_string (n : nat) : jsstring :=
  lit (NilZero.string_of_uint (Nat.to_uint n)).

(** The [click] listener of the New Chat button. *)
Definition onNewChatClick (uuid : jsstring) (dialog : jsval) (w : world)
    : world :=
  createNewChat uuid dialog
    (JStr (lit "Chat " ++ number_to_string (size (chats w) + 1))) w.

(** The first [DOMContentLoaded] listener; [options] is the number of
    options of the model selector and [value] its value. *)
Definition onDOMContentLoaded (uuid : jsstring) (dialog : jsval)
    (options : nat) (value : jsstring) (w : world) : world :=
  let w := if 0 <? options then onModelChange value w else w in
  if negb (truthy (JStr (currentChatId w)))
  then createNewChat uuid dialog (JStr (lit "Chat 1")) w
  else w.

End WithLibraries.

(** The toggle as [createAssistantMessageElements] of this script leaves
    it: the raw container is hidden. *)
Definition new_toggle : raw_toggle :=
  RawToggle (lit "none") (lit "Show raw output").

(** The [click] listener of the raw-output button. *)
Definition toggleRaw (t : raw_toggle) : raw_toggle :=
  if jsstring_eqb (display t) (lit "none") || jsstring_eqb (display t) []
  then RawToggle (lit "block") (lit "Hide raw output")
  else RawToggle (lit "none") (lit "Show raw output").

(** The globals as the script declares them, on a given page. *)
Definition initial (p : page) : world := World ∅ [] JNull p.

End App.

(** * Specification-level definitions *)

Import Basic.

(** The position is at the start of the text or right after a line
    terminator: where [^] holds under the m flag. *)
Definition at_bol (pre : list N) : bool :=
  match pre with
  | [] => true
  | c :: _ => is_line_terminator c
  end.

(** The longest prefix of [s] made of characters that satisfy [ok], and
    what follows it. *)
Fixpoint run (ok : N -> bool) (s : list N) : list N :=
  match s with
  | c :: s' => if ok c then c :: run ok s' else []
  | [] => []
  end.

Fixpoint after (ok : N -> bool) (s : list N) : list N :=
  match s with
  | c :: s' => if ok c then after ok s' else s
  | [] => []
  end.

(** The shortest run of [ok] characters that is followed by [close]:
    the run and what follows the closing text. *)
Fixpoint find_close (ok : N -> bool) (close : jsstring) (s : list N)
    : option (jsstring * jsstring) :=
  if starts_with close s then Some ([], drop (length close) s)
  else match s with
       | c :: s' =>
           if ok c then
             match find_close ok close s' with
             | Some (body, rest) => Some (c :: body, rest)
             | None => None
             end
           else None
       | [] => None
       end.

Definition is_dot (c : N) : bool := negb (is_line_terminator c).
Definition is_dot_or_lf (c : N) : bool := is_dot c || (c =? chLF)%N.

(** The states a starred one-character body can stop in, shortest
    first.  [ok] says which characters the body takes and [g] what it
    does to the captures. *)
Fixpoint prefixes (ok : N -> bool)
    (g : N -> list (nat * jsstring) -> list (nat * jsstring))
    (pre rest : list N) (caps : list (nat * jsstring)) : list mstate :=
  MState pre rest caps ::
  match rest with
  | c :: r => if ok c then prefixes ok g (c :: pre) r (g c caps) else []
  | [] => []
  end.

Definition unit_body (ok : N -> bool)
    (g : N -> list (nat * jsstring) -> list (nat * jsstring))
    (st : mstate) : list mstate :=
  match m_rest st with
  | c :: r => if ok c then [MState (c :: m_pre st) r (g c (m_caps st))] else []
  | [] => []
  end.

(** The captures after a starred one-character body has taken [body]. *)
Definition caps_after
    (g : N -> list (nat * jsstring) -> list (nat * jsstring))
    (caps : list (nat * jsstring)) (body : jsstring) :=
  foldl (fun cs c => g c cs) caps body.

(** What [escapeHtml] puts for one code unit. *)
Definition escape_unit (c : N) : jsstring :=
  if (c =? 38)%N then lit "&amp;"
  else if (c =? 60)%N then lit "&lt;"
  else if (c =? 62)%N then lit "&gt;"
  else if (c =? 34)%N then lit "&quot;"
  else if (c =? 39)%N then lit "&#039;"
  else [c].

(** A line of [s] begins with a dash and a blank.  A line begins at the
    start of the text and after each line terminator, as [^] under the m
    flag takes it; [bol] says whether [s] itself starts a line. *)
Fixpoint item_line_from (bol : bool) (s : jsstring) : bool :=
  match s with
  | [] => false
  | c :: s' =>
      (bol && starts_with (lit "- ") s) || item_line_from (is_line_terminator c) s'
  end.

Definition has_item_line (s : jsstring) : bool := item_line_from true s.

(** Lines joined by line feeds. *)
Fixpoint join_lines (ls : list jsstring) : jsstring :=
  match ls with
  | [] => []
  | l :: ls' =>
      match ls' with
      | [] => l
      | _ :: _ => l ++ chLF :: join_lines ls'
      end
  end.

(** No rule of the formatter can start in [t]: no star, no backtick, and
    at the start of a line neither a hash nor a dash followed by a
    blank. *)
Fixpoint quiet (bol : bool) (t : jsstring) : bool :=
  match t with
  | [] => true
  | c :: t' =>
      negb (c =? 42)%N && negb (c =? 96)%N
      && negb (bol && ((c =? 35)%N || starts_with (lit "- ") t))
      && quiet (is_line_terminator c) t'
  end.

(** Whether the position after [a] starts a line, when [a] itself began
    at a position of which [bol] says so. *)
Definition bol_after (bol : bool) (a : jsstring) : bool :=
  match last a with
  | Some c => is_line_terminator c
  | None => bol
  end.

(** The three characters that are markup in HTML text. *)
Definition is_markup (c : N) : bool :=
  (c =? 38)%N || (c =? 60)%N || (c =? 62)%N.

(** The entities [escapeHtml] writes and the tags [formatMarkdown]
    writes through its replacement strings. *)
Definition entities : list jsstring := map snd entity_table.

Definition formatter_tags : list jsstring :=
  [ lit "<h3>"; lit "</h3>"; lit "<h2>"; lit "</h2>"; lit "<h1>"; lit "</h1>";
    lit "<strong>"; lit "</strong>"; lit "<em>"; lit "</em>";
    lit "<code>"; lit "</code>"; lit "<ul><li>"; lit "</li></ul>" ].

(** [built_from tokens t]: the text [t] is a sequence of code units that
    are not markup and of whole tokens.  Every ampersand and angle
    bracket of [t] then belongs to one of the tokens. *)
Inductive built_from (tokens : list jsstring) : jsstring -> Prop :=
| built_nil : built_from tokens []
| built_unit c t :
    is_markup c = false -> built_from tokens t -> built_from tokens (c :: t)
| built_token k t :
    In k tokens -> built_from tokens t -> built_from tokens (k ++ t).

(** The text holds no markup of its own: ampersands only in entities. *)
Definition escaped (t : jsstring) : Prop := built_from entities t.

(** The only markup of the text are entities and tags of the formatter. *)
Definition safe_html (t : jsstring) : Prop :=
  built_from (entities ++ formatter_tags) t.

(** A code unit that is no markup and occurs in no token. *)
Definition inert (tokens : list jsstring) (c : N) : Prop :=
  is_markup c = false /\ forall k, In k tokens -> ~ In c k.

Definition inertb (tokens : list jsstring) (c : N) : bool :=
  negb (is_markup c)
  && forallb (fun k => negb (existsb (N.eqb c) k)) tokens.

(** What the scan of [replace] keeps true of the text [P] written so
    far when the position starts a line: [P] can be cut off. *)
Definition cuttable (tokens : list jsstring) (P : jsstring) (pre : list N)
    : Prop :=
  at_bol pre = true -> forall Y, built_from tokens (P ++ Y) ->
    built_from tokens P /\ built_from tokens Y.

(** A rule is sound when each of its matches is not empty, does not end
    in a line terminator, and cuts a safe text into safe pieces with a
    safe replacement. *)
Definition rule_ok (tokens : list jsstring) (r : re) (f : replacer) : Prop :=
  forall pre rest st',
    match_at r pre rest = Some st' ->
    length (m_rest st') < length rest /\
    at_bol (m_pre st') = false /\
    forall P, cuttable tokens P pre -> built_from tokens (P ++ rest) ->
      built_from tokens P
      /\ built_from tokens (f (consumed (MState pre rest []) st') (m_caps st'))
      /\ built_from tokens (m_rest st').

(** Two backticks in a row somewhere in the text. *)
Fixpoint tick_pair (t : jsstring) : bool :=
  match t with
  | [] => false
  | c :: t' => ((c =? 96)%N && starts_with [96%N] t') || tick_pair t'
  end.

(** A state of the multi-chat client with a selected model and a prompt
    of blanks only, and the same for the single-chat client. *)
Definition blank_prompt_app : App.world :=
  App.World ∅ [] (JStr (lit "m1")) (Page (lit "   ") [] [] [] []).

Definition blank_prompt_basic : Basic.world :=
  Basic.World (JStr (lit "m1")) (Page (lit "   ") [] [] [] []).

(** What stays of a chat while an answer is streamed: its name and its
    questions, in order. *)
Definition chat_shape (c : App.chat) : jsstring * list jsstring :=
  (App.name c, App.question <$> App.messages c).

(** [frame w w']: from [w] to [w'] only answers and the content of the
    elements of the chat window changed. *)
Definition frame (w w' : App.world) : Prop :=
  App.currentChatId w' = App.currentChatId w /\
  App.selectedModel w' = App.selectedModel w /\
  (forall id, chat_shape <$> (App.chats w' !! id)
              = chat_shape <$> (App.chats w !! id)) /\
  userInput (App.ui w') = userInput (App.ui w) /\
  alerts (App.ui w') = alerts (App.ui w) /\
  requests (App.ui w') = requests (App.ui w) /\
  console (App.ui w') = console (App.ui w) /\
  length (chatWindow (App.ui w')) = length (chatWindow (App.ui w)).

(** The world in which [sendMessage] starts its request. *)
Definition sending (marked_parse : jsstring -> jsstring) (w : App.world)
    : App.world :=
  let prompt := trim (userInput (App.ui w)) in
  let w1 := App.push_exchange prompt w in
  App.set_ui
    (fetch (StreamChat prompt (App.selectedModel w) (Some (App.currentChatId w)))
       (fst (createAssistantMessageElements
               (set_userInput []
                  (App.addMessageToChat marked_parse (lit "user") prompt
                                        (App.ui w1))))))
    w1.

Definition stream_handle (w : App.world) : nat :=
  S (length (chatWindow (App.ui w))).

(** The bytes of an ASCII text. *)
Definition ascii_bytes (s : jsstring) : list Byte.byte :=
  map (fun c => default Byte.x00 (Byte.of_N c)) s.

(** A page just loaded in the multi-chat client: one chat, made by
    [createNewChat] under the id [uuid], a selected model and a typed
    prompt. *)
Definition loaded (marked_parse : jsstring -> jsstring)
    (uuid model prompt : jsstring) : App.world :=
  App.createNewChat marked_parse uuid JNull (JStr (lit "Chat 1"))
    (App.World ∅ [] (JStr model) (Page prompt [] [] [] [])).

(** A stream whose [DONE] line comes in one chunk and a further data
    line in the next one. *)
Definition late_body : list read_event :=
  [ Chunk (ascii_bytes (lit "data: one" ++ [chLF; chLF]
                        ++ lit "data: [DONE]" ++ [chLF; chLF]));
    Chunk (ascii_bytes (lit "data: late" ++ [chLF; chLF])) ].

(** The same text in a single chunk. *)
Definition late_body_one_chunk : list read_event :=
  [ Chunk (ascii_bytes (lit "data: one" ++ [chLF; chLF]
                        ++ lit "data: [DONE]" ++ [chLF; chLF]
                        ++ lit "data: late" ++ [chLF; chLF])) ].

(** A line read so far, latest character first, without the CR that
    ends it. *)
Definition drop_cr (seg : list N) : list N :=
  match seg with
  | c :: seg' => if (c =? 13)%N then seg' else seg
  | [] => []
  end.

(** The lines of a text, split at each LF; a CR right before the LF
    belongs to the line break.  [seg] is the line read so far, latest
    character first.  The last element is the text after the last line
    break. *)
Fixpoint lines_from (seg : list N) (s : jsstring) : list jsstring :=
  match s with
  | [] => [rev seg]
  | c :: s' =>
      if (c =? 10)%N then rev (drop_cr seg) :: lines_from [] s'
      else lines_from (c :: seg) s'
  end.

(** The complete lines of a text and the unfinished line at its end. *)
Definition complete_lines (s : jsstring) : list jsstring :=
  removelast (lines_from [] s).

Definition pending_line (s : jsstring) : jsstring :=
  default [] (last (lines_from [] s)).

(** The same with each line break kept as an element of its own, as
    [split] does for a separator with a capturing group. *)
Fixpoint lines_breaks_from (seg : list N) (s : jsstring) : list jsstring :=
  match s with
  | [] => [rev seg]
  | c :: s' =>
      if (c =? 10)%N then
        rev (drop_cr seg)
        :: (match seg with
            | x :: _ => if (x =? 13)%N then [chCR; chLF] else [chLF]
            | [] => [chLF]
            end)
        :: lines_breaks_from [] s'
      else lines_breaks_from (c :: seg) s'
  end.

(** A line of the stream: a data line with its payload, or any other
    line. *)
Inductive sse_line :=
| Data (payload : jsstring)
| Other (text : jsstring).

Definition line_text (l : sse_line) : jsstring :=
  match l with
  | Data p => data_prefix ++ p
  | Other s => s
  end.

(** A line the decoder passes over: blank, or not a data line. *)
Definition ignorable (s : jsstring) : bool :=
  negb (truthy (JStr (trim s))) || negb (starts_with data_prefix s).

(** The line that carries the [DONE] sentinel. *)
Definition is_done_line (s : jsstring) : bool :=
  truthy (JStr (trim s)) && starts_with data_prefix s
  && jsstring_eqb (trim (replace_first data_prefix [] s)) DONE.

(** A data line is well formed when its payload is not the sentinel;
    another line when the decoder passes over it. *)
Definition well_formed (l : sse_line) : Prop :=
  match l with
  | Data p => trim p <> DONE
  | Other s => ignorable s = true
  end.

(** The payloads of the data lines, as the decoder extracts them:
    trimmed, in order. *)
Fixpoint payloads (ls : list sse_line) : list jsstring :=
  match ls with
  | [] => []
  | Data p :: ls' => trim p :: payloads ls'
  | Other _ :: ls' => payloads ls'
  end.

(** What the decoder accumulates for a list of payloads: each one
    followed by a line feed. *)
Definition payload_text (ps : list jsstring) : jsstring :=
  flat_map (fun p => p ++ [chLF]) ps.

(** After a [DONE] line only lines that are passed over follow. *)
Fixpoint settled (lines : list jsstring) : bool :=
  match lines with
  | [] => true
  | x :: l => (if is_done_line x then forallb ignorable l else true) && settled l
  end.

(** The state a loop body leaves, however it ends. *)
Definition state_of {S : Type} (f : flow S) : S :=
  match f with
  | Next s | Break s | Raise _ s => s
  end.

(** What a data line does to the world. *)
Definition data_step (marked_parse : jsstring -> jsstring) (chatIndex : Z)
    (h : nat) (raw a : jsstring) (w : App.world) : App.world :=
  let w1 := App.set_ui (set_chatWindow
                          (alter (set_raw raw) h (chatWindow (App.ui w)))
                          (App.ui w)) w in
  let w2 := App.append_answer chatIndex a w1 in
  match App.current_answer chatIndex w2 with
  | Some t =>
      App.set_ui (set_chatWindow
                    (alter (set_html (marked_parse t)) h (chatWindow (App.ui w2)))
                    (App.ui w2)) w2
  | None => w2
  end.

(** What a line does to the state of the loop of the multi-chat client,
    however the body ends. *)
Definition feed (marked_parse : jsstring -> jsstring)
    (type_error_message : jsstring) (chatIndex : Z) (h : nat)
    (x : jsstring) (s : jsstring * App.world) : jsstring * App.world :=
  state_of (App.on_line marked_parse type_error_message chatIndex h h x s).

(** The same for the single-chat client. *)
Definition basic_feed (h : nat) (x : jsstring) (s : jsstring * page)
    : jsstring * page :=
  state_of (Basic.on_line h h x s).

(** What the single-chat client shows once it has accumulated [raw]. *)
Definition basic_show (raw : jsstring) (n : node) : node :=
  set_html (formatMarkdown (escapeHtml (JStr raw))) (set_raw raw n).


(** A stream cut in the middle of a line, of a line break and of the
    three bytes of the euro sign. *)
Definition cut_chunks : list (list Byte.byte) :=
  [ ascii_bytes (lit "da");
    ascii_bytes (lit "ta: h") ++ [Byte.xe2; Byte.x82];
    [Byte.xac; Byte.x0d];
    ascii_bytes ([chLF; chCR; chLF] ++ lit "data:  there" ++ [chLF; chLF]
                 ++ lit "data: [DO");
    ascii_bytes (lit "NE]" ++ [chLF; chLF]) ].

(** The stream of the first end-to-end scenario, one event a chunk. *)
Definition scenario_chunks : list (list Byte.byte) :=
  [ ascii_bytes (lit "data: Hi" ++ [chLF; chLF]);
    ascii_bytes (lit "data:  there" ++ [chLF; chLF]);
    ascii_bytes (lit "data: [DONE]" ++ [chLF; chLF]) ].

Definition scenario_body : list read_event := map Chunk scenario_chunks.

(** What both clients accumulate for it. *)
Definition scenario_answer : jsstring :=
  lit "Hi" ++ [chLF] ++ lit "there" ++ [chLF].

(** The page on which the single-chat client starts its request. *)
Definition basic_sending (b : Basic.world) : page :=
  let prompt := trim (userInput (Basic.ui b)) in
  fetch (StreamChat prompt (Basic.selectedModel b) None)
    (appendChild (Streaming [] true [])
       (set_userInput []
          (Basic.addMessageToChat (lit "user") prompt false (Basic.ui b)))).

(** ** Streams, sessions and events *)

(** The five characters that [escapeHtml] replaces. *)
Definition is_special (c : N) : bool :=
  (c =? 38)%N || (c =? 60)%N || (c =? 62)%N || (c =? 34)%N || (c =? 39)%N.

(** A character of running text: not a line terminator, not a star and
    not a backtick. *)
Definition plain_char (c : N) : bool :=
  is_dot c && negb (c =? 42)%N && negb (c =? 96)%N.

(** The replacement loop from a position on, with the fuel that
    [replace_all] gives it for the text that is left. *)
Definition replace_from (r : re) (f : replacer) (pre rest : list N) : jsstring :=
  replace_loop (S (length rest)) r f pre rest.

(** A line of running text does not start like a heading or a list
    item. *)
Definition inline_start (s : jsstring) : Prop :=
  match s with
  | c :: _ => c <> 35%N /\ c <> 45%N
  | [] => True
  end.

(** The page of the single-chat client once the loop has accumulated
    [raw]: the streaming element at [h] shows it. *)
Definition basic_page (h : nat) (raw : jsstring) (p : page) : page :=
  match raw with
  | [] => p
  | _ :: _ => set_chatWindow (alter (basic_show raw) h (chatWindow p)) p
  end.

(** The message that the single-chat client shows for a prompt. *)
Definition basic_user_message (prompt : jsstring) : node :=
  Message (lit "message user ")
          (Html (formatMarkdown (escapeHtml (JStr prompt)))).

(** The streaming element of the single-chat client that shows [raw],
    with its cursor. *)
Definition basic_streaming (raw : jsstring) : node :=
  Streaming (formatMarkdown (escapeHtml (JStr raw))) true raw.


(** A function applied to the state a loop body leaves. *)
Definition flow_map {S T : Type} (f : S -> T) (fl : flow S) : flow T :=
  match fl with
  | Next s => Next (f s)
  | Break s => Break (f s)
  | Raise m s => Raise m (f s)
  end.

(** What a line does to the raw text that [processStreamResponse]
    accumulates, in both clients: a data line appends its trimmed
    payload and a line feed, the [DONE] line breaks out of the loop over
    the lines, any other line is passed over. *)
Definition line_raw (x raw : jsstring) : flow jsstring :=
  if starts_with data_prefix x then
    let data := trim (replace_first data_prefix [] x) in
    if jsstring_eqb data DONE then Break raw
    else Next (raw ++ data ++ [chLF])
  else Next raw.

(** The raw text after the loop over the lines of one chunk. *)
Definition lines_raw (lines : list jsstring) (raw : jsstring) : jsstring :=
  state_of (for_of line_raw lines raw).

(** The decoder, the unfinished line and the raw text after the chunks
    have been read. *)
Fixpoint receive (chunks : list (list Byte.byte)) (d : TextDecoder.t)
    (partial raw : jsstring) : TextDecoder.t * jsstring * jsstring :=
  match chunks with
  | [] => (d, partial, raw)
  | c :: cs =>
      let '(d', text) := TextDecoder.decode d c in
      let buffer := partial ++ text in
      receive cs d' (pending_line buffer)
              (lines_raw (complete_lines buffer) raw)
  end.

(** The raw text that a client has accumulated when the chunks have
    been read. *)
Definition received (chunks : list (list Byte.byte)) : jsstring :=
  snd (receive chunks TextDecoder.create [] []).

(** A state the UTF-8 decoder can be in after any bytes: the next
    continuation byte lies between 128 and 191, and inside a sequence
    the code point under construction is not zero unless the next byte
    has to be at least 144. *)
Definition decoder_ok (u : TextDecoder.utf8) : bool :=
  (128 <=? TextDecoder.u_lower u)%N
  && (TextDecoder.u_upper u <=? 191)%N
  && ((TextDecoder.u_needed u =? 0)%N
      || negb (TextDecoder.u_cp u =? 0)%N
      || (144 <=? TextDecoder.u_lower u)%N).

Definition no_line_feed (s : list N) : bool :=
  forallb (fun c => negb (c =? 10)%N) s.

(** An element without its cursor. *)
Definition uncursor (n : node) : node :=
  match n with
  | Streaming h _ r => Streaming h false r
  | Message _ _ => n
  end.

(** The store in which exchange [n] of the current chat has the answer
    [a]. *)
Definition with_answer (n : nat) (a : jsstring) (w : App.world)
    : gmap jsstring App.chat :=
  alter (fun c => App.set_messages
                    (alter (App.set_answer a) n (App.messages c)) c)
        (App.currentChatId w) (App.chats w).

(** What the streaming element of the multi-chat client shows once the
    loop has accumulated [raw] after the answer [a0]. *)
Definition app_show (marked_parse : jsstring -> jsstring) (a0 raw : jsstring)
    (n : node) : node :=
  match raw with
  | [] => n
  | _ :: _ => set_html (marked_parse (a0 ++ raw)) (set_raw raw n)
  end.

(** The world of the multi-chat client once the loop has accumulated
    [raw] and removed a cursor [k] times: [w0] with the answer of
    exchange [n] extended by [raw] and the element at [h] showing it. *)
Definition app_state (marked_parse : jsstring -> jsstring) (n h : nat)
    (a0 : jsstring) (w0 : App.world) (k : nat) (raw : jsstring) : App.world :=
  App.World (with_answer n (a0 ++ raw) w0) (App.currentChatId w0)
    (App.selectedModel w0)
    (set_chatWindow
       (Nat.iter k remove_cursor
          (alter (app_show marked_parse a0 raw) h (chatWindow (App.ui w0))))
       (App.ui w0)).

(** The chat that [sendMessage] adds an exchange to: the current one,
    or an empty one called Unnamed Chat when there is none. *)
Definition sending_chat (w : App.world) : App.chat :=
  default (App.Chat (lit "Unnamed Chat") [])
          (App.chats w !! App.currentChatId w).

(** The store after [sendMessage]: the current chat has one exchange
    more, with the trimmed prompt as its question and [a] as its
    answer. *)
Definition sent_store (a : jsstring) (w : App.world) : gmap jsstring App.chat :=
  <[App.currentChatId w :=
      App.Chat (App.name (sending_chat w))
               (App.messages (sending_chat w)
                ++ [App.Exchange (trim (userInput (App.ui w))) a])]>
    (App.chats w).

(** The request that [sendMessage] of the multi-chat client makes. *)
Definition app_request (w : App.world) : request :=
  StreamChat (trim (userInput (App.ui w))) (App.selectedModel w)
             (Some (App.currentChatId w)).

(** The message that the multi-chat client shows for a prompt. *)
Definition app_user_message (prompt : jsstring) : node :=
  Message (lit "message user") (Text prompt).

(** The streaming element of the multi-chat client once the loop has
    accumulated [raw], with its cursor: it is empty until the first
    payload has come. *)
Definition app_streaming (marked_parse : jsstring -> jsstring)
    (raw : jsstring) : node :=
  match raw with
  | [] => Streaming [] true []
  | _ :: _ => Streaming (marked_parse raw) true raw
  end.

(** The same element after the [catch] block has written the error
    into it. *)
Definition app_failed (marked_parse : jsstring -> jsstring)
    (raw m : jsstring) : node :=
  Streaming (get_html (app_streaming marked_parse raw) ++ lit "<br><em>"
             ++ App.escapeHtml (lit "Error: " ++ m) ++ lit "</em>")
            true raw.


(** A letter of the ASCII alphabet in lower case: in quirks mode a
    class selector compares names so. *)
Definition ascii_lower (c : N) : N :=
  if (65 <=? c)%N && (c <=? 90)%N then (c + 32)%N else c.

(** Whether [k] occurs in [s]. *)
Fixpoint occurs (k s : jsstring) : bool :=
  starts_with k s
  || match s with
     | [] => false
     | _ :: s' => occurs k s'
     end.

Definition is_ascii_alpha (c : N) : bool :=
  (65 <=? c)%N && (c <=? 90)%N || (97 <=? c)%N && (c <=? 122)%N.

Definition is_ascii_alnum (c : N) : bool :=
  is_ascii_alpha c || (48 <=? c)%N && (c <=? 57)%N.

(** Markup in which every [<] starts a tag that is only a name between
    its angle brackets, after a slash in an end tag: a letter, then
    letters and digits, then [>].  [in_name] tells that the text is
    read inside such a name. *)
Fixpoint bare_markup_from (in_name : bool) (h : jsstring) : bool :=
  match h with
  | [] => negb in_name
  | c :: h' =>
      if in_name then
        if (c =? 62)%N then bare_markup_from false h'
        else is_ascii_alnum c && bare_markup_from true h'
      else if (c =? 60)%N then
        match h' with
        | [] => false
        | c1 :: h1 =>
            if (c1 =? 47)%N then
              match h1 with
              | [] => false
              | c2 :: h2 => is_ascii_alpha c2 && bare_markup_from true h2
              end
            else is_ascii_alpha c1 && bare_markup_from true h1
        end
      else bare_markup_from false h'
  end.

(** Markup whose tags carry no attributes.  Parsed as [innerHTML] it
    gives elements without attributes only: none has a class, so
    [document.querySelector('.streaming')] finds none of them (the
    classes that syntax highlighting adds are its own); none has a name
    or an id that could stand for a property of the document; none has
    an event handler. *)
Definition bare_markup (h : jsstring) : bool := bare_markup_from false h.

(** A child of the chat window in which the cursor, if it is there, is
    the only element of class streaming: the class of a message does
    not name it, and the tags of the markup shown carry no
    attributes. *)
Definition plain_node (n : node) : bool :=
  match n with
  | Message cls body =>
      negb (occurs (lit "streaming") (map ascii_lower cls))
      && match body with
         | Text _ => true
         | Html h => bare_markup h
         end
  | Streaming h _ _ => bare_markup h
  end.


(** What the user can do on the page of the multi-chat client: pick a
    model, press New Chat, click the name or the Reset button of a chat
    in the side bar, edit the input box, press Send, press a key in the
    input box.  Each carries what the environment answers: the id that
    [generateUUID] returns, what the name dialog would return, the
    reply of the server. *)
Inductive event :=
| ModelChange (value : jsstring)
| NewChatClick (uuid : jsstring) (dialog : jsval)
| ChatClick (chatId : jsstring)
| ResetClick (reply : App.reset_result) (chatId : jsstring)
| Typed (text : jsstring)
| SendClick (reply : fetch_result)
| KeyDown (e : key_event) (reply : fetch_result).

(** The listener of each event, run from its start to its end. *)
Definition handle (marked_parse : jsstring -> jsstring)
    (type_error_message : jsstring) (ev : event) (w : App.world) : App.world :=
  match ev with
  | ModelChange value => App.onModelChange value w
  | NewChatClick uuid dialog => App.onNewChatClick marked_parse uuid dialog w
  | ChatClick chatId => App.selectChat marked_parse chatId w
  | ResetClick reply chatId =>
      App.resetChat marked_parse type_error_message reply chatId w
  | Typed text => App.set_ui (set_userInput text (App.ui w)) w
  | SendClick reply => App.sendMessage marked_parse type_error_message reply w
  | KeyDown e reply =>
      snd (App.handleTextareaKeyDown marked_parse type_error_message e reply w)
  end.

(** The side bar has a name and a Reset button only for chats of the
    store. *)
Definition listed (ev : event) (w : App.world) : Prop :=
  match ev with
  | ChatClick chatId | ResetClick _ chatId => is_Some (App.chats w !! chatId)
  | _ => True
  end.

(** The states of the multi-chat client: the page is loaded, then
    events are handled one after the other. *)
Inductive reachable (marked_parse : jsstring -> jsstring)
    (type_error_message : jsstring) : App.world -> Prop :=
| reachable_loaded uuid dialog options value p :
    reachable marked_parse type_error_message
      (App.onDOMContentLoaded marked_parse uuid dialog options value
                              (App.initial p))
| reachable_handled ev w :
    reachable marked_parse type_error_message w -> listed ev w ->
    reachable marked_parse type_error_message
      (handle marked_parse type_error_message ev w).

(** The invariant of the store: the current chat is in it, and every
    chat has a name that the New Chat button or the page load gave
    it. *)
Definition chats_ok (w : App.world) : Prop :=
  is_Some (App.chats w !! App.currentChatId w) /\
  map_Forall (fun _ c => starts_with (lit "Chat ") (App.name c) = true)
             (App.chats w).

(** * Facts about the matcher *)

Lemma starts_with_spec (k s : jsstring) :
  starts_with k s = true <-> exists t, s = k ++ t.
Proof.
  revert s. induction k as [|a k IH]; intros s; simpl.
  - split; eauto.
  - destruct s as [|b s]; simpl.
    + split; [discriminate | intros [t Ht]; discriminate].
    + rewrite andb_true_iff, N.eqb_eq, IH. split.
      * intros [-> [t ->]]. eauto.
      * intros [t Ht]. injection Ht as -> ->. eauto.
Qed.

Lemma starts_with_app (k t : jsstring) : starts_with k (k ++ t) = true.
Proof. apply starts_with_spec. eauto. Qed.

Lemma rmatch_rlit (k : string) (st : mstate) :
  rmatch (rlit k) st =
  if starts_with (lit k) (m_rest st)
  then [MState (rev (lit k) ++ m_pre st) (drop (length (lit k)) (m_rest st))
               (m_caps st)]
  else [].
Proof.
  unfold rlit. generalize (lit k). intros l. revert st.
  induction l as [|a l IH]; intros [pre rest caps]; simpl.
  - reflexivity.
  - destruct rest as [|b rest]; simpl; [reflexivity|].
    rewrite (N.eqb_sym a b). destruct (b =? a)%N eqn:E; simpl; [|reflexivity].
    apply N.eqb_eq in E. subst b. rewrite app_nil_r, IH. simpl.
    destruct (starts_with l rest); [|reflexivity].
    unfold advance. simpl. rewrite <- app_assoc. reflexivity.
Qed.

Lemma star_ext (g : bool) (b1 b2 : mstate -> list mstate) :
  (forall st, b1 st = b2 st) ->
  forall fuel st, star g b1 fuel st = star g b2 fuel st.
Proof.
  intros E fuel. induction fuel as [|fuel IH]; intros st; simpl; [reflexivity|].
  rewrite E.
  replace (flat_map (fun st' => if progressed st st' then star g b1 fuel st' else [])
                    (b2 st))
    with (flat_map (fun st' => if progressed st st' then star g b2 fuel st' else [])
                   (b2 st)); [reflexivity|].
  apply flat_map_ext. intros st'. rewrite IH. reflexivity.
Qed.

Lemma head_app {A : Type} (l1 l2 : list A) :
  head (l1 ++ l2) = match l1 with [] => head l2 | x :: _ => Some x end.
Proof. destruct l1; reflexivity. Qed.

Lemma rmatch_seq a b st :
  rmatch (RSeq a b) st = flat_map (rmatch b) (rmatch a st).
Proof. reflexivity. Qed.

Lemma rmatch_group n a st :
  rmatch (RGroup n a) st
  = map (fun st' => MState (m_pre st') (m_rest st')
                           ((n, consumed st st') :: m_caps st'))
        (rmatch a st).
Proof. reflexivity. Qed.

Lemma rmatch_star g a st :
  rmatch (RStar g a) st = star g (rmatch a) (S (length (m_rest st))) st.
Proof. reflexivity. Qed.

Lemma flat_map_singleton {A B : Type} (f : A -> list B) (x : A) :
  flat_map f [x] = f x.
Proof. simpl. apply app_nil_r. Qed.

Lemma star_S g body fuel st :
  star g body (S fuel) st =
  if g then flat_map (fun st' => if progressed st st' then star g body fuel st'
                                 else []) (body st) ++ [st]
  else st :: flat_map (fun st' => if progressed st st' then star g body fuel st'
                                  else []) (body st).
Proof. reflexivity. Qed.

Lemma unit_body_cons ok g pre c r caps :
  unit_body ok g (MState pre (c :: r) caps)
  = if ok c then [MState (c :: pre) r (g c caps)] else [].
Proof. reflexivity. Qed.

Lemma progressed_cons pre c r caps pre' caps' :
  progressed (MState pre (c :: r) caps) (MState pre' r caps') = true.
Proof. unfold progressed. simpl. apply Nat.ltb_lt. lia. Qed.

Lemma star_lazy_unit ok g fuel pre rest caps :
  length rest < fuel ->
  star false (unit_body ok g) fuel (MState pre rest caps)
  = prefixes ok g pre rest caps.
Proof.
  revert pre rest caps.
  induction fuel as [|fuel IH]; intros pre rest caps Hf; [lia|].
  rewrite star_S. destruct rest as [|c r]; [reflexivity|].
  rewrite unit_body_cons. simpl prefixes.
  destruct (ok c); [|reflexivity].
  simpl flat_map. rewrite progressed_cons, app_nil_r.
  rewrite IH by (simpl in Hf; lia). reflexivity.
Qed.

Lemma star_greedy_unit ok g fuel pre rest caps :
  length rest < fuel ->
  star true (unit_body ok g) fuel (MState pre rest caps)
  = rev (prefixes ok g pre rest caps).
Proof.
  revert pre rest caps.
  induction fuel as [|fuel IH]; intros pre rest caps Hf; [lia|].
  rewrite star_S. destruct rest as [|c r]; [reflexivity|].
  rewrite unit_body_cons. simpl prefixes.
  destruct (ok c); [|reflexivity].
  simpl flat_map. rewrite progressed_cons, app_nil_r.
  rewrite IH by (simpl in Hf; lia). reflexivity.
Qed.

Lemma rmatch_rdot st :
  rmatch rdot st = unit_body is_dot (fun _ caps => caps) st.
Proof. destruct st as [pre [|c r] caps]; reflexivity. Qed.

Lemma rmatch_dot_or_lf st :
  rmatch (RGroup 2 (RAlt rdot (RChar chLF))) st
  = unit_body is_dot_or_lf (fun c caps => (2, [c]) :: caps) st.
Proof.
  destruct st as [pre [|c r] caps]; [reflexivity|].
  unfold unit_body, is_dot_or_lf, is_dot. simpl.
  destruct (is_line_terminator c) eqn:E; simpl.
  - destruct (c =? chLF)%N; simpl; [|reflexivity].
    unfold consumed. simpl. rewrite Nat.sub_succ_l, Nat.sub_diag by lia.
    reflexivity.
  - replace (c =? chLF)%N with false.
    + simpl. unfold consumed. simpl.
      rewrite Nat.sub_succ_l, Nat.sub_diag by lia. reflexivity.
    + symmetry. apply N.eqb_neq. intros ->. discriminate.
Qed.

Lemma consumed_app pre rest caps body rest' caps' :
  consumed (MState pre rest caps) (MState (rev body ++ pre) rest' caps') = body.
Proof.
  unfold consumed. simpl.
  rewrite length_app, length_rev, Nat.add_sub.
  rewrite <- (length_rev body), take_app_length. apply rev_involutive.
Qed.

(** The last state of [prefixes]: the whole run was taken. *)
Lemma prefixes_snoc ok g pre rest caps :
  exists front,
    prefixes ok g pre rest caps
    = front ++ [MState (rev (run ok rest) ++ pre) (after ok rest)
                       (caps_after g caps (run ok rest))].
Proof.
  revert pre caps. induction rest as [|c r IH]; intros pre caps; simpl.
  - exists []. reflexivity.
  - destruct (ok c); simpl.
    + destruct (IH (c :: pre) (g c caps)) as [front ->].
      exists (MState pre (c :: r) caps :: front). simpl.
      rewrite <- app_assoc. reflexivity.
    + exists []. reflexivity.
Qed.

Lemma after_head ok s :
  match after ok s with
  | [] => True
  | c :: _ => ok c = false
  end.
Proof.
  induction s as [|c s IH]; simpl; [exact I|].
  destruct (ok c) eqn:E; [exact IH | exact E].
Qed.

Lemma run_after ok s : run ok s ++ after ok s = s.
Proof.
  induction s as [|c s IH]; simpl; [reflexivity|].
  destruct (ok c); simpl; [rewrite IH|]; reflexivity.
Qed.

Lemma run_ok ok s : Forall (fun c => ok c = true) (run ok s).
Proof.
  induction s as [|c s IH]; simpl; [constructor|].
  destruct (ok c) eqn:E; constructor; assumption.
Qed.

(** The first closing text after a lazy one-character star. *)
Lemma head_close ok g (close : string) st1 rest acc caps :
  head (flat_map (rmatch (rlit close))
          (map (fun st' => MState (m_pre st') (m_rest st')
                             ((1, consumed st1 st') :: m_caps st'))
               (prefixes ok g (rev acc ++ m_pre st1) rest caps)))
  = match find_close ok (lit close) rest with
    | Some (body, rest') =>
        Some (MState (rev (lit close) ++ rev (acc ++ body) ++ m_pre st1) rest'
                     ((1, acc ++ body) :: caps_after g caps body))
    | None => None
    end.
Proof.
  revert acc caps. induction rest as [|c r IH]; intros acc caps.
  - simpl prefixes. simpl map. simpl flat_map. rewrite app_nil_r.
    rewrite rmatch_rlit. simpl m_rest.
    unfold find_close.
    destruct (starts_with (lit close) []) eqn:E; [|reflexivity].
    simpl. destruct st1. rewrite consumed_app, app_nil_r. reflexivity.
  - simpl prefixes. simpl map. simpl flat_map.
    rewrite rmatch_rlit. simpl m_rest. simpl find_close.
    destruct (starts_with (lit close) (c :: r)) eqn:E.
    + simpl. destruct st1. rewrite consumed_app, app_nil_r. reflexivity.
    + simpl app. destruct (ok c); [|reflexivity].
      specialize (IH (acc ++ [c]) (g c caps)).
      rewrite rev_app_distr in IH. simpl in IH. rewrite IH.
      destruct (find_close ok (lit close) r) as [[body rest']|]; [|reflexivity].
      rewrite <- !app_assoc. reflexivity.
Qed.

(** The closed form of a match of [open (body*?) close] where [body] is
    a one-character pattern. *)
Lemma match_at_delim (open close : string) (X : re) ok g pre rest :
  (forall st, rmatch X st = unit_body ok g st) ->
  match_at (RSeq (rlit open) (RSeq (RGroup 1 (RStar false X)) (rlit close)))
           pre rest
  = if starts_with (lit open) rest then
      match find_close ok (lit close) (drop (length (lit open)) rest) with
      | Some (body, rest') =>
          Some (MState (rev (lit close) ++ rev body ++ rev (lit open) ++ pre)
                       rest' ((1, body) :: caps_after g [] body))
      | None => None
      end
    else None.
Proof.
  intros HX. unfold match_at.
  rewrite rmatch_seq, rmatch_rlit. simpl m_rest. simpl m_pre. simpl m_caps.
  destruct (starts_with (lit open) rest); [|reflexivity].
  rewrite flat_map_singleton.
  set (st1 := MState (rev (lit open) ++ pre) (drop (length (lit open)) rest) []).
  rewrite rmatch_seq, rmatch_group, rmatch_star.
  rewrite (star_ext false _ _ HX).
  unfold st1 at 2 3. rewrite star_lazy_unit by (simpl; lia).
  pose proof (head_close ok g close st1 (drop (length (lit open)) rest) [] []) as H.
  simpl in H. rewrite H. reflexivity.
Qed.

(** The closed form of a match of [^open(.*$)] and of [^open(.* )] under
    the m flag. *)
Lemma last_prefix_eol ok g pre rest caps :
  (forall c, ok c = false -> is_line_terminator c = true) ->
  head (flat_map (rmatch (REol true)) (rev (prefixes ok g pre rest caps)))
  = Some (MState (rev (run ok rest) ++ pre) (after ok rest)
                 (caps_after g caps (run ok rest))).
Proof.
  intros Hok. destruct (prefixes_snoc ok g pre rest caps) as [front ->].
  rewrite rev_app_distr. simpl rev. simpl app.
  cbn [flat_map]. rewrite head_app.
  pose proof (after_head ok rest) as H.
  unfold rmatch at 1. simpl m_rest.
  destruct (after ok rest) as [|c r]; [reflexivity|].
  rewrite (Hok c H). reflexivity.
Qed.

Lemma match_at_heading (open : string) pre rest :
  match_at (RSeq (RBol true) (RSeq (rlit open)
              (RGroup 1 (RSeq (RStar true rdot) (REol true))))) pre rest
  = if at_bol pre && starts_with (lit open) rest then
      let body := run is_dot (drop (length (lit open)) rest) in
      Some (MState (rev body ++ rev (lit open) ++ pre)
                   (after is_dot (drop (length (lit open)) rest))
                   [(1, body)])
    else None.
Proof.
  unfold match_at. rewrite rmatch_seq.
  assert (Hbol : rmatch (RBol true) (MState pre rest [])
                 = if at_bol pre then [MState pre rest []] else []).
  { destruct pre; reflexivity. }
  rewrite Hbol. destruct (at_bol pre); [|reflexivity].
  rewrite flat_map_singleton, rmatch_seq, rmatch_rlit.
  simpl m_rest. simpl m_pre. simpl m_caps. simpl andb.
  destruct (starts_with (lit open) rest); [|reflexivity].
  rewrite flat_map_singleton.
  set (st1 := MState (rev (lit open) ++ pre) (drop (length (lit open)) rest) []).
  rewrite rmatch_group, rmatch_seq, rmatch_star.
  rewrite (star_ext true _ _ rmatch_rdot).
  unfold st1 at 2 3. rewrite star_greedy_unit by (simpl; lia).
  destruct (prefixes_snoc is_dot (fun _ c => c) (rev (lit open) ++ pre)
              (drop (length (lit open)) rest) []) as [front Hf].
  rewrite Hf, rev_app_distr. simpl rev. simpl app. cbn [flat_map].
  pose proof (after_head is_dot (drop (length (lit open)) rest)) as H.
  unfold rmatch at 1. simpl m_rest.
  assert (Hcaps : forall body, caps_after (fun _ c => c) [] body = []).
  { intros body. induction body; simpl; auto. }
  rewrite Hcaps.
  destruct (after is_dot (drop (length (lit open)) rest)) as [|c r] eqn:E.
  - simpl. unfold st1. rewrite consumed_app. reflexivity.
  - unfold is_dot in H. apply negb_false_iff in H. rewrite H. simpl.
    unfold st1. rewrite consumed_app. reflexivity.
Qed.

Lemma match_at_line (open : string) pre rest :
  match_at (RSeq (RBol true) (RSeq (rlit open) (RGroup 1 (RStar true rdot))))
           pre rest
  = if at_bol pre && starts_with (lit open) rest then
      let body := run is_dot (drop (length (lit open)) rest) in
      Some (MState (rev body ++ rev (lit open) ++ pre)
                   (after is_dot (drop (length (lit open)) rest))
                   [(1, body)])
    else None.
Proof.
  unfold match_at. rewrite rmatch_seq.
  assert (Hbol : rmatch (RBol true) (MState pre rest [])
                 = if at_bol pre then [MState pre rest []] else []).
  { destruct pre; reflexivity. }
  rewrite Hbol. destruct (at_bol pre); [|reflexivity].
  rewrite flat_map_singleton, rmatch_seq, rmatch_rlit.
  simpl m_rest. simpl m_pre. simpl m_caps. simpl andb.
  destruct (starts_with (lit open) rest); [|reflexivity].
  rewrite flat_map_singleton.
  set (st1 := MState (rev (lit open) ++ pre) (drop (length (lit open)) rest) []).
  rewrite rmatch_group, rmatch_star.
  rewrite (star_ext true _ _ rmatch_rdot).
  unfold st1 at 2 3. rewrite star_greedy_unit by (simpl; lia).
  destruct (prefixes_snoc is_dot (fun _ c => c) (rev (lit open) ++ pre)
              (drop (length (lit open)) rest) []) as [front Hf].
  rewrite Hf, rev_app_distr. simpl rev. simpl app. cbn [map head].
  assert (Hcaps : forall body, caps_after (fun _ c => c) [] body = []).
  { intros body. induction body; simpl; auto. }
  rewrite Hcaps. unfold st1. rewrite consumed_app. reflexivity.
Qed.

(** A pattern that matches nowhere leaves the text as it is. *)
Lemma replace_loop_id r f fuel pre rest :
  (forall a b, rest = a ++ b -> match_at r (rev a ++ pre) b = None) ->
  replace_loop fuel r f pre rest = rest.
Proof.
  revert pre rest. induction fuel as [|fuel IH]; intros pre rest H; [reflexivity|].
  cbn [replace_loop]. pose proof (H [] rest eq_refl) as H0.
  simpl in H0. rewrite H0.
  destruct rest as [|c rest']; [reflexivity|]. f_equal.
  apply IH. intros a b ->. specialize (H (c :: a) b eq_refl).
  simpl in H. rewrite <- app_assoc in H. exact H.
Qed.

Lemma replace_all_id r f s :
  (forall a b, s = a ++ b -> match_at r (rev a) b = None) ->
  replace_all r f s = s.
Proof.
  intros H. unfold replace_all. apply replace_loop_id.
  intros a b E. rewrite app_nil_r. auto.
Qed.

Lemma match_at_special pre rest :
  match_at re_special pre rest =
  match rest with
  | c :: rest' =>
      if (c =? 38)%N || (c =? 60)%N || (c =? 34)%N || (c =? 39)%N || (c =? 62)%N
      then Some (MState (c :: pre) rest' []) else None
  | [] => None
  end.
Proof.
  unfold match_at, re_special. destruct rest as [|c rest']; [reflexivity|].
  simpl. destruct ((c =? 38)%N || (c =? 60)%N || (c =? 34)%N || (c =? 39)%N
                   || (c =? 62)%N); reflexivity.
Qed.

Lemma entity_of_unit c caps :
  ((c =? 38)%N || (c =? 60)%N || (c =? 34)%N || (c =? 39)%N || (c =? 62)%N) = true ->
  entity_of [c] caps = escape_unit c.
Proof.
  intros H. repeat (apply orb_true_iff in H; destruct H as [H|H]);
    apply N.eqb_eq in H; subst c; reflexivity.
Qed.

Lemma escape_unit_other c :
  ((c =? 38)%N || (c =? 60)%N || (c =? 34)%N || (c =? 39)%N || (c =? 62)%N) = false ->
  escape_unit c = [c].
Proof.
  intros H. repeat (apply orb_false_iff in H; destruct H as [H ?]).
  unfold escape_unit. repeat match goal with E : (_ =? _)%N = false |- _ =>
    rewrite E; clear E end. reflexivity.
Qed.

Lemma escape_loop fuel pre rest :
  length rest < fuel ->
  replace_loop fuel re_special entity_of pre rest = flat_map escape_unit rest.
Proof.
  revert pre rest. induction fuel as [|fuel IH]; intros pre rest Hf; [lia|].
  cbn [replace_loop]. rewrite match_at_special.
  destruct rest as [|c rest']; [reflexivity|].
  simpl in Hf.
  destruct ((c =? 38)%N || (c =? 60)%N || (c =? 34)%N || (c =? 39)%N
            || (c =? 62)%N) eqn:E.
  - cbn [m_rest m_pre m_caps length].
    replace (length rest' <? S (length rest')) with true
      by (symmetry; apply Nat.ltb_lt; lia).
    pose proof (consumed_app pre (c :: rest') [] [c] rest' []) as Hc.
    simpl in Hc. rewrite Hc, (entity_of_unit c [] E), IH by lia. reflexivity.
  - rewrite IH by lia. simpl. rewrite (escape_unit_other c E). reflexivity.
Qed.

Lemma escapeHtml_string s :
  escapeHtml (JStr s) = flat_map escape_unit s.
Proof.
  unfold escapeHtml, replace_all. rewrite escape_loop by lia.
  simpl. destruct (flat_map escape_unit s); reflexivity.
Qed.

(** C10. [escapeHtml] is total: [null] and [undefined] give the empty
    string, and a string comes back with each ampersand, angle bracket,
    double quote and apostrophe replaced by its entity and every other
    code unit unchanged. *)
Theorem escapeHtml_total :
  escapeHtml JNull = [] /\
  escapeHtml JUndefined = [] /\
  (forall s, escapeHtml (JStr s) = flat_map escape_unit s) /\
  (forall c, escape_unit c =
             if (c =? 38)%N then lit "&amp;"
             else if (c =? 60)%N then lit "&lt;"
             else if (c =? 62)%N then lit "&gt;"
             else if (c =? 34)%N then lit "&quot;"
             else if (c =? 39)%N then lit "&#039;"
             else [c]).
Proof.
  split; [reflexivity|]. split; [reflexivity|].
  split; [exact escapeHtml_string | reflexivity].
Qed.

Lemma at_bol_rev a : at_bol (rev a) = bol_after true a.
Proof.
  unfold bol_after. destruct a as [|x a] using rev_ind; [reflexivity|].
  rewrite rev_app_distr, last_snoc. reflexivity.
Qed.

Lemma bol_after_cons bol c a :
  bol_after bol (c :: a) = bol_after (is_line_terminator c) a.
Proof.
  unfold bol_after. destruct a as [|x a]; [reflexivity|].
  rewrite last_cons_cons. destruct (last (x :: a)) eqn:E; [reflexivity|].
  apply last_None in E. discriminate.
Qed.

Lemma quiet_split bol a b :
  quiet bol (a ++ b) = true -> quiet (bol_after bol a) b = true.
Proof.
  revert bol. induction a as [|c a IH]; intros bol H; [exact H|].
  rewrite bol_after_cons. apply IH.
  simpl app in H. cbn [quiet] in H.
  apply andb_true_iff in H. destruct H as [_ H]. exact H.
Qed.

Lemma quiet_head bol c t :
  quiet bol (c :: t) = true ->
  c <> 42%N /\ c <> 96%N /\
  (bol = true -> c <> 35%N /\ starts_with (lit "- ") (c :: t) = false).
Proof.
  cbn [quiet]. rewrite !andb_true_iff, !negb_true_iff.
  intros [[[H1 H2] H3] _].
  apply N.eqb_neq in H1. apply N.eqb_neq in H2.
  split; [exact H1|]. split; [exact H2|]. intros ->.
  simpl andb in H3. apply orb_false_iff in H3. destruct H3 as [H3 H4].
  apply N.eqb_neq in H3. split; assumption.
Qed.

(** On a quiet text no pattern of the formatter matches anywhere. *)
Lemma quiet_no_heading (open : string) k t a b :
  lit open = 35%N :: k ->
  quiet true t = true -> t = a ++ b ->
  match_at (RSeq (RBol true) (RSeq (rlit open)
              (RGroup 1 (RSeq (RStar true rdot) (REol true))))) (rev a) b
  = None.
Proof.
  intros Hopen Hq ->. rewrite match_at_heading.
  apply quiet_split in Hq. rewrite <- at_bol_rev in Hq.
  destruct (at_bol (rev a)); [|reflexivity].
  destruct b as [|c b]; rewrite Hopen; [reflexivity|].
  apply quiet_head in Hq. destruct Hq as (_ & _ & Hq).
  destruct (Hq eq_refl) as [Hc _].
  assert (Hs : starts_with (35%N :: k) (c :: b) = false).
  { cbn [starts_with]. replace (35 =? c)%N with false; [reflexivity|].
    symmetry. apply N.eqb_neq. congruence. }
  rewrite Hs. reflexivity.
Qed.

Lemma quiet_no_delim (open close : string) X ok g d k t a b :
  (forall st, rmatch X st = unit_body ok g st) ->
  lit open = d :: k -> d = 42%N \/ d = 96%N ->
  quiet true t = true -> t = a ++ b ->
  match_at (RSeq (rlit open) (RSeq (RGroup 1 (RStar false X)) (rlit close)))
           (rev a) b = None.
Proof.
  intros HX Hopen Hd Hq ->. rewrite (match_at_delim open close X ok g _ _ HX).
  apply quiet_split in Hq.
  destruct b as [|c b]; rewrite Hopen; [reflexivity|].
  apply quiet_head in Hq. destruct Hq as (H1 & H2 & _).
  assert (Hs : starts_with (d :: k) (c :: b) = false).
  { cbn [starts_with]. replace (d =? c)%N with false; [reflexivity|].
    symmetry. apply N.eqb_neq. destruct Hd; congruence. }
  rewrite Hs. reflexivity.
Qed.

Lemma quiet_no_item t a b :
  quiet true t = true -> t = a ++ b -> match_at re_item (rev a) b = None.
Proof.
  intros Hq ->. unfold re_item. rewrite match_at_line.
  apply quiet_split in Hq. rewrite <- at_bol_rev in Hq.
  destruct (at_bol (rev a)); [|reflexivity].
  destruct b as [|c b]; [reflexivity|].
  apply quiet_head in Hq. destruct Hq as (_ & _ & Hq).
  destruct (Hq eq_refl) as [_ Hc]. rewrite Hc. reflexivity.
Qed.

Lemma rmatch_any st :
  rmatch (RSet (fun c => is_space c || negb (is_space c))) st
  = unit_body (fun c => is_space c || negb (is_space c)) (fun _ caps => caps) st.
Proof. destruct st as [pre [|c r] caps]; reflexivity. Qed.

Lemma formatMarkdown_quiet t :
  quiet true t = true -> formatMarkdown t = t.
Proof.
  intros Hq. unfold formatMarkdown.
  assert (H3 : rule_h3 t = t).
  { apply replace_all_id. intros a b E.
    apply (quiet_no_heading "### " (lit "## ") t a b eq_refl Hq E). }
  rewrite H3.
  assert (H2 : rule_h2 t = t).
  { apply replace_all_id. intros a b E.
    apply (quiet_no_heading "## " (lit "# ") t a b eq_refl Hq E). }
  rewrite H2.
  assert (H1 : rule_h1 t = t).
  { apply replace_all_id. intros a b E.
    apply (quiet_no_heading "# " (lit " ") t a b eq_refl Hq E). }
  rewrite H1.
  assert (Hb : rule_bold t = t).
  { apply replace_all_id. intros a b E.
    apply (quiet_no_delim "**" "**" rdot _ _ 42%N (lit "*") t a b
             rmatch_rdot eq_refl (or_introl eq_refl) Hq E). }
  rewrite Hb.
  assert (Hi : rule_italic t = t).
  { apply replace_all_id. intros a b E.
    apply (quiet_no_delim "*" "*" rdot _ _ 42%N [] t a b
             rmatch_rdot eq_refl (or_introl eq_refl) Hq E). }
  rewrite Hi.
  assert (Hc : rule_code t = t).
  { apply replace_all_id. intros a b E.
    apply (quiet_no_delim "`" "`" _ _ _ 96%N [] t a b
             rmatch_dot_or_lf eq_refl (or_intror eq_refl) Hq E). }
  rewrite Hc.
  assert (Hf : rule_fence t = t).
  { apply replace_all_id. intros a b E.
    apply (quiet_no_delim "```" "```" _ _ _ 96%N (lit "``") t a b
             rmatch_any eq_refl (or_intror eq_refl) Hq E). }
  rewrite Hf.
  apply replace_all_id. intros a b E. apply (quiet_no_item t a b Hq E).
Qed.

(** The escaped text starts with a blank exactly when the text does. *)
Lemma escaped_starts_with_blank s :
  starts_with [32%N] (flat_map escape_unit s) = starts_with [32%N] s.
Proof.
  destruct s as [|c s]; [reflexivity|]. simpl flat_map.
  unfold escape_unit.
  destruct (c =? 38)%N eqn:E1; [apply N.eqb_eq in E1; subst; reflexivity|].
  destruct (c =? 60)%N eqn:E2; [apply N.eqb_eq in E2; subst; reflexivity|].
  destruct (c =? 62)%N eqn:E3; [apply N.eqb_eq in E3; subst; reflexivity|].
  destruct (c =? 34)%N eqn:E4; [apply N.eqb_eq in E4; subst; reflexivity|].
  destruct (c =? 39)%N eqn:E5; [apply N.eqb_eq in E5; subst; reflexivity|].
  reflexivity.
Qed.

Lemma starts_with_dash c t :
  starts_with (lit "- ") (c :: t) = (c =? 45)%N && starts_with [32%N] t.
Proof.
  change (lit "- ") with [45%N; 32%N]. cbn [starts_with].
  rewrite (N.eqb_sym 45 c). reflexivity.
Qed.

Lemma escaped_quiet s bol :
  (forall c, In c s -> c <> 35%N /\ c <> 42%N /\ c <> 96%N) ->
  item_line_from bol s = false ->
  quiet bol (flat_map escape_unit s) = true.
Proof.
  revert bol. induction s as [|c s IH]; intros bol Hc Hi; [reflexivity|].
  cbn [flat_map]. cbn [item_line_from] in Hi.
  apply orb_false_iff in Hi. destruct Hi as [Hi1 Hi2].
  assert (IH' : quiet (is_line_terminator c) (flat_map escape_unit s) = true).
  { apply IH; [intros x Hx; apply Hc; right; exact Hx | exact Hi2]. }
  destruct (Hc c (or_introl eq_refl)) as (N1 & N2 & N3).
  unfold escape_unit at 1.
  destruct (c =? 38)%N eqn:E1;
    [apply N.eqb_eq in E1; subst; simpl; rewrite !andb_false_r; exact IH'|].
  destruct (c =? 60)%N eqn:E2;
    [apply N.eqb_eq in E2; subst; simpl; rewrite !andb_false_r; exact IH'|].
  destruct (c =? 62)%N eqn:E3;
    [apply N.eqb_eq in E3; subst; simpl; rewrite !andb_false_r; exact IH'|].
  destruct (c =? 34)%N eqn:E4;
    [apply N.eqb_eq in E4; subst; simpl; rewrite !andb_false_r; exact IH'|].
  destruct (c =? 39)%N eqn:E5;
    [apply N.eqb_eq in E5; subst; simpl; rewrite !andb_false_r; exact IH'|].
  cbn [app quiet]. rewrite IH', andb_true_r.
  apply N.eqb_neq in N1, N2, N3. rewrite N1, N2, N3. cbn [negb andb orb].
  rewrite starts_with_dash, escaped_starts_with_blank.
  rewrite starts_with_dash in Hi1. rewrite Hi1. reflexivity.
Qed.

(** C9. On a text with no hash, star or backtick and no line that begins
    with a dash and a blank, the formatter returns the escaped text
    unchanged, with no tag around it. *)
Theorem formatMarkdown_plain_identity (s : jsstring) :
  (forall c, In c s -> c <> 35%N /\ c <> 42%N /\ c <> 96%N) ->
  has_item_line s = false ->
  formatMarkdown (escapeHtml (JStr s)) = escapeHtml (JStr s).
Proof.
  intros Hc Hi. rewrite escapeHtml_string.
  apply formatMarkdown_quiet, escaped_quiet; assumption.
Qed.

Lemma formatMarkdown_plain_identity_witness :
  formatMarkdown (escapeHtml (JStr (lit "a<b> & 'c' -d")))
  = escapeHtml (JStr (lit "a<b> & 'c' -d")).
Proof.
  apply formatMarkdown_plain_identity.
  - intros c Hc. simpl in Hc.
    repeat (destruct Hc as [<-|Hc]; [repeat split; discriminate|]).
    destruct Hc.
  - reflexivity.
Defined.

Lemma inertb_inert tokens c : inertb tokens c = true -> inert tokens c.
Proof.
  unfold inertb, inert. rewrite andb_true_iff, negb_true_iff, forallb_forall.
  intros [H1 H2]. split; [exact H1|]. intros k Hk Hin.
  specialize (H2 k Hk). apply negb_true_iff in H2.
  assert (existsb (N.eqb c) k = true); [|congruence].
  apply existsb_exists. exists c. split; [exact Hin | apply N.eqb_refl].
Qed.

Lemma split_in_token {A : Type} (k t X Y : list A) (c : A) :
  k ++ t = X ++ c :: Y ->
  (exists X', X = k ++ X' /\ t = X' ++ c :: Y) \/ In c k.
Proof.
  revert X. induction k as [|e k IH]; intros X E.
  - left. exists X. split; [reflexivity | exact E].
  - destruct X as [|x X]; simpl in E.
    + injection E as -> _. right. left. reflexivity.
    + injection E as -> E. destruct (IH X E) as [[X' [-> ->]]|Hin].
      * left. exists X'. split; reflexivity.
      * right. right. exact Hin.
Qed.

Section BuiltFrom.

Variable tokens : list jsstring.

(** Every token starts with a markup character. *)
Hypothesis tokens_start :
  forall k, In k tokens -> exists m k', k = m :: k' /\ is_markup m = true.

Hypothesis terminators_inert :
  forall c, is_line_terminator c = true -> inert tokens c.

Local Abbreviation safe := (built_from tokens).
Local Abbreviation cuttable := (cuttable tokens).
Local Abbreviation rule_ok := (rule_ok tokens).

Lemma safe_app X Y : safe X -> safe Y -> safe (X ++ Y).
Proof.
  intros HX HY. induction HX as [|c t Hc _ IH|k t Hk _ IH]; simpl.
  - exact HY.
  - apply built_unit; assumption.
  - rewrite <- app_assoc. apply built_token; assumption.
Qed.

Lemma safe_split X c Y :
  inert tokens c -> safe (X ++ c :: Y) -> safe X /\ safe Y.
Proof.
  intros [Hm Hk] H. remember (X ++ c :: Y) as Z eqn:E. revert X E.
  induction H as [|c0 t Hc0 H IH|k t Hin H IH]; intros X E.
  - destruct X; discriminate.
  - destruct X as [|x X]; simpl in E.
    + injection E as -> ->. split; [constructor | exact H].
    + injection E as -> ->. destruct (IH X eq_refl) as [H1 H2].
      split; [apply built_unit; assumption | exact H2].
  - destruct (split_in_token k t X Y c E) as [[X' [-> ->]]|Hc].
    + destruct (IH X' eq_refl) as [H1 H2].
      split; [apply built_token; assumption | exact H2].
    + exfalso. exact (Hk k Hin Hc).
Qed.

Lemma safe_skip c t : is_markup c = false -> safe (c :: t) -> safe t.
Proof.
  intros Hc H. inversion H as [|c0 t0 _ Ht|k t0 Hk Ht E]; subst.
  - exact Ht.
  - destruct (tokens_start k Hk) as (m & k' & -> & Hm).
    simpl in E. injection E as -> _. congruence.
Qed.

Lemma safe_strip d t :
  Forall (fun c => is_markup c = false) d -> safe (d ++ t) -> safe t.
Proof.
  induction 1 as [|c d Hc _ IH]; intros H; [exact H|].
  apply IH. exact (safe_skip c _ Hc H).
Qed.

Lemma safe_plain d :
  Forall (fun c => is_markup c = false) d -> safe d.
Proof.
  induction 1; [constructor | apply built_unit; assumption].
Qed.

Lemma replace_loop_safe r f :
  rule_ok r f ->
  forall fuel pre rest P,
    cuttable P pre -> safe (P ++ rest) ->
    safe (P ++ replace_loop fuel r f pre rest).
Proof.
  intros Hok fuel. induction fuel as [|fuel IH]; intros pre rest P HP H;
    [exact H|].
  cbn [replace_loop]. destruct (match_at r pre rest) as [st'|] eqn:E.
  - destruct (Hok pre rest st' E) as (Hlen & Hbol & Hs).
    destruct (Hs P HP H) as (H1 & H2 & H3).
    apply Nat.ltb_lt in Hlen. rewrite Hlen. rewrite app_assoc.
    apply IH.
    + intros Hb. congruence.
    + apply safe_app; [apply safe_app; assumption | exact H3].
  - destruct rest as [|c rest']; [exact H|].
    change (P ++ c :: replace_loop fuel r f (c :: pre) rest')
      with (P ++ [c] ++ replace_loop fuel r f (c :: pre) rest').
    rewrite app_assoc. apply IH.
    + intros Hb Y HY. simpl in Hb. rewrite <- app_assoc in HY. simpl in HY.
      pose proof (terminators_inert c Hb) as Hi.
      destruct (safe_split P c Y Hi HY) as [H1 H2].
      split; [|exact H2]. apply safe_app; [exact H1|].
      apply built_unit; [apply Hi | constructor].
    + rewrite <- app_assoc. exact H.
Qed.

Lemma replace_all_safe r f t :
  rule_ok r f -> safe t -> safe (replace_all r f t).
Proof.
  intros Hok H. unfold replace_all.
  apply (replace_loop_safe r f Hok (S (length t)) [] t []); [|exact H].
  intros _ Y HY. split; [constructor | exact HY].
Qed.

Lemma find_close_spec ok close s body rest' :
  find_close ok close s = Some (body, rest') -> s = body ++ close ++ rest'.
Proof.
  revert body. induction s as [|c s IH]; intros body.
  - cbn [find_close]. destruct (starts_with close []) eqn:E; [|discriminate].
    destruct close; [|discriminate]. intros [= <- <-]. reflexivity.
  - cbn [find_close]. destruct (starts_with close (c :: s)) eqn:E.
    + intros [= <- <-]. apply starts_with_spec in E. destruct E as [t E].
      rewrite E. rewrite drop_app_length. reflexivity.
    + destruct (ok c); [|discriminate].
      destruct (find_close ok close s) as [[b r]|]; [|discriminate].
      intros [= <- <-]. rewrite (IH b eq_refl). reflexivity.
Qed.

Lemma at_bol_rev_app x y :
  x <> [] -> Forall (fun c => is_line_terminator c = false) x ->
  at_bol (rev x ++ y) = false.
Proof.
  intros Hx H. destruct x as [|z x _] using rev_ind; [congruence|].
  rewrite rev_app_distr. simpl. apply Forall_app in H. destruct H as [_ H].
  inversion H; assumption.
Qed.

Lemma wrap_capture otag ctag m body caps :
  wrap otag ctag m ((1, body) :: caps) = lit otag ++ body ++ lit ctag.
Proof. unfold wrap, template. simpl. rewrite app_nil_r. reflexivity. Qed.

Lemma safe_wrap (otag ctag : string) body :
  In (lit otag) tokens -> In (lit ctag) tokens -> safe body ->
  safe (lit otag ++ body ++ lit ctag).
Proof.
  intros Ho Hc Hb. apply built_token; [exact Ho|].
  apply safe_app; [exact Hb|].
  rewrite <- (app_nil_r (lit ctag)). apply built_token; [exact Hc | constructor].
Qed.

(** The rules with an opening and a closing delimiter. *)
Lemma rule_ok_delim (open close otag ctag : string) X ok g :
  (forall st, rmatch X st = unit_body ok g st) ->
  lit open <> [] -> lit close <> [] ->
  Forall (inert tokens) (lit open) -> Forall (inert tokens) (lit close) ->
  Forall (fun c => is_line_terminator c = false) (lit close) ->
  In (lit otag) tokens -> In (lit ctag) tokens ->
  rule_ok (RSeq (rlit open) (RSeq (RGroup 1 (RStar false X)) (rlit close)))
          (wrap otag ctag).
Proof.
  intros HX Hon Hcn Hoi Hci Hclt Hot Hct pre rest st' E.
  rewrite (match_at_delim open close X ok g pre rest HX) in E.
  destruct (starts_with (lit open) rest) eqn:Es; [|discriminate].
  apply starts_with_spec in Es. destruct Es as [t ->].
  rewrite drop_app_length in E.
  destruct (find_close ok (lit close) t) as [[body rest']|] eqn:Ef;
    [|discriminate].
  injection E as <-. apply find_close_spec in Ef. subst t.
  cbn [m_rest m_pre m_caps]. split; [|split].
  - rewrite !length_app. destruct (lit open); [congruence|]. simpl. lia.
  - apply at_bol_rev_app; assumption.
  - intros P _ H. rewrite wrap_capture.
    destruct (lit open) as [|d o] eqn:Eo; [congruence|].
    inversion Hoi as [|? ? Hd Ho']; subst.
    simpl in H.
    destruct (safe_split P d _ Hd H) as [H1 H2].
    assert (Hm : forall l, Forall (inert tokens) l ->
                           Forall (fun c => is_markup c = false) l).
    { intros l Hl. eapply Forall_impl; [exact Hl|]. intros c [Hc _]. exact Hc. }
    apply (safe_strip o _ (Hm o Ho')) in H2.
    destruct (lit close) as [|e cl] eqn:Ec; [congruence|].
    inversion Hci as [|? ? He Hc']; subst.
    simpl in H2. destruct (safe_split body e _ He H2) as [H3 H4].
    apply (safe_strip cl _ (Hm cl Hc')) in H4.
    split; [exact H1|]. split; [|exact H4].
    apply safe_wrap; assumption.
Qed.

(** The rules that take a line from its opening text on. *)
Lemma line_match_ok (open otag ctag : string) pre rest st' :
  lit open <> [] ->
  Forall (fun c => is_markup c = false) (lit open) ->
  Forall (fun c => is_line_terminator c = false) (lit open) ->
  In (lit otag) tokens -> In (lit ctag) tokens ->
  (if at_bol pre && starts_with (lit open) rest then
     let body := run is_dot (drop (length (lit open)) rest) in
     Some (MState (rev body ++ rev (lit open) ++ pre)
                  (after is_dot (drop (length (lit open)) rest))
                  [(1, body)])
   else None) = Some st' ->
  length (m_rest st') < length rest /\
  at_bol (m_pre st') = false /\
  forall P, cuttable P pre -> safe (P ++ rest) ->
    safe P /\ safe (wrap otag ctag (consumed (MState pre rest []) st') (m_caps st'))
    /\ safe (m_rest st').
Proof.
  intros Hon Hom Holt Hot Hct E.
  destruct (at_bol pre) eqn:Eb; [|discriminate].
  destruct (starts_with (lit open) rest) eqn:Es; [|discriminate].
  apply starts_with_spec in Es. destruct Es as [t ->].
  rewrite drop_app_length in E. simpl in E. injection E as <-.
  cbn [m_rest m_pre m_caps].
  pose proof (run_after is_dot t) as Ht.
  pose proof (run_ok is_dot t) as Hr.
  pose proof (after_head is_dot t) as Ha.
  split; [|split].
  - rewrite length_app. rewrite <- Ht at 2. rewrite length_app.
    destruct (lit open); [congruence|]. simpl. lia.
  - rewrite app_assoc, <- rev_app_distr. apply at_bol_rev_app.
    + destruct (lit open); [congruence | discriminate].
    + apply Forall_app. split; [exact Holt|].
      eapply Forall_impl; [exact Hr|]. intros c Hc. unfold is_dot in Hc.
      apply negb_true_iff in Hc. exact Hc.
  - intros P HP H. destruct (HP Eb _ H) as [H1 H2].
    apply (safe_strip _ _ Hom) in H2. rewrite <- Ht in H2.
    rewrite wrap_capture.
    assert (Hb : safe (run is_dot t) /\ safe (after is_dot t)).
    { destruct (after is_dot t) as [|l r].
      - rewrite app_nil_r in H2. split; [exact H2 | constructor].
      - unfold is_dot in Ha. apply negb_false_iff in Ha.
        pose proof (terminators_inert l Ha) as Hi.
        destruct (safe_split _ l r Hi H2) as [H3 H4].
        split; [exact H3|]. apply built_unit; [apply Hi | exact H4]. }
    destruct Hb as [Hb1 Hb2].
    split; [exact H1|]. split; [|exact Hb2]. apply safe_wrap; assumption.
Qed.

Lemma rule_ok_heading (open otag ctag : string) :
  lit open <> [] ->
  Forall (fun c => is_markup c = false) (lit open) ->
  Forall (fun c => is_line_terminator c = false) (lit open) ->
  In (lit otag) tokens -> In (lit ctag) tokens ->
  rule_ok (RSeq (RBol true) (RSeq (rlit open)
             (RGroup 1 (RSeq (RStar true rdot) (REol true)))))
          (wrap otag ctag).
Proof.
  intros Hon Hom Holt Hot Hct pre rest st' E.
  rewrite match_at_heading in E.
  exact (line_match_ok open otag ctag pre rest st' Hon Hom Holt Hot Hct E).
Qed.

Lemma rule_ok_line (open otag ctag : string) :
  lit open <> [] ->
  Forall (fun c => is_markup c = false) (lit open) ->
  Forall (fun c => is_line_terminator c = false) (lit open) ->
  In (lit otag) tokens -> In (lit ctag) tokens ->
  rule_ok (RSeq (RBol true) (RSeq (rlit open) (RGroup 1 (RStar true rdot))))
          (wrap otag ctag).
Proof.
  intros Hon Hom Holt Hot Hct pre rest st' E.
  rewrite match_at_line in E.
  exact (line_match_ok open otag ctag pre rest st' Hon Hom Holt Hot Hct E).
Qed.

End BuiltFrom.

Lemma tick_pair_app A B :
  Forall (fun c => c <> 96%N) A -> tick_pair (A ++ B) = tick_pair B.
Proof.
  induction 1 as [|c A Hc _ IH]; [reflexivity|].
  simpl app. cbn [tick_pair]. rewrite IH.
  apply N.eqb_neq in Hc. rewrite Hc. reflexivity.
Qed.

Lemma tick_pair_mid a b : tick_pair (a ++ 96%N :: 96%N :: b) = true.
Proof.
  induction a as [|c a IH]; [reflexivity|].
  simpl app. cbn [tick_pair]. rewrite IH. apply orb_true_r.
Qed.

Lemma starts_with_tick t :
  starts_with [96%N] t = true -> exists t', t = 96%N :: t'.
Proof. intros H. apply starts_with_spec in H. exact H. Qed.

Lemma find_close_no_tick ok s body rest' :
  find_close ok [96%N] s = Some (body, rest') -> Forall (fun c => c <> 96%N) body.
Proof.
  revert body. induction s as [|c s IH]; intros body; cbn [find_close].
  - destruct (starts_with [96%N] []); [|discriminate].
    intros [= <- <-]. constructor.
  - destruct (starts_with [96%N] (c :: s)) eqn:E.
    + intros [= <- <-]. constructor.
    + destruct (ok c); [|discriminate].
      destruct (find_close ok [96%N] s) as [[b r]|]; [|discriminate].
      intros [= <- <-]. constructor; [|apply IH; reflexivity].
      intros ->. discriminate.
Qed.

(** After the inline-code rule no two backticks are left side by side:
    where two stood, the rule matched. *)
Lemma code_loop_ticks fuel pre rest :
  length rest < fuel ->
  tick_pair (replace_loop fuel re_code (wrap "<code>" "</code>") pre rest)
  = false /\
  (starts_with [96%N]
     (replace_loop fuel re_code (wrap "<code>" "</code>") pre rest) = true ->
   starts_with [96%N] rest = true /\ match_at re_code pre rest = None).
Proof.
  revert pre rest. induction fuel as [|fuel IH]; intros pre rest Hf; [lia|].
  cbn [replace_loop]. destruct (match_at re_code pre rest) as [st'|] eqn:E.
  - pose proof E as E'. unfold re_code in E'.
    rewrite (match_at_delim "`" "`" _ _ _ pre rest rmatch_dot_or_lf) in E'.
    destruct (starts_with (lit "`") rest) eqn:Es; [|discriminate].
    destruct (find_close is_dot_or_lf (lit "`") (drop (length (lit "`")) rest))
      as [[body rest']|] eqn:Ef; [|discriminate].
    injection E' as <-. cbn [m_rest m_pre m_caps].
    pose proof (find_close_spec _ _ _ _ _ Ef) as Hd.
    pose proof (find_close_no_tick _ _ _ _ Ef) as Hb.
    apply starts_with_spec in Es. destruct Es as [t ->].
    rewrite drop_app_length in Hd. subst t.
    assert (Hl : length rest' < length (lit "`" ++ body ++ lit "`" ++ rest')).
    { rewrite !length_app. simpl. lia. }
    pose proof Hl as Hl'. apply Nat.ltb_lt in Hl'. rewrite Hl'.
    rewrite wrap_capture. split.
    + rewrite tick_pair_app.
      * apply IH. lia.
      * apply Forall_app. split; [repeat constructor; discriminate|].
        apply Forall_app. split; [exact Hb | repeat constructor; discriminate].
    + intros H. discriminate H.
  - destruct rest as [|c rest']; [split; [reflexivity | discriminate]|].
    simpl in Hf. destruct (IH (c :: pre) rest' ltac:(lia)) as [IH1 IH2].
    split.
    + cbn [tick_pair]. rewrite IH1, orb_false_r.
      destruct (c =? 96)%N eqn:Ec; [|reflexivity]. cbn [andb].
      destruct (starts_with [96%N]
                  (replace_loop fuel re_code (wrap "<code>" "</code>")
                                (c :: pre) rest')) eqn:Eo; [|reflexivity].
      destruct (IH2 eq_refl) as [Hr _].
      apply starts_with_tick in Hr. destruct Hr as [r ->].
      apply N.eqb_eq in Ec. subst c. exfalso.
      unfold re_code in E.
      rewrite (match_at_delim "`" "`" _ _ _ pre _ rmatch_dot_or_lf) in E.
      discriminate E.
    + intros H. split; [|reflexivity].
      cbn [starts_with] in H |- *. apply andb_true_iff in H.
      destruct H as [H _]. rewrite H. reflexivity.
Qed.

(** The fenced-block rule never fires after the inline-code rule. *)
Lemma rule_fence_after_code t : rule_fence (rule_code t) = rule_code t.
Proof.
  apply replace_all_id. intros a b E.
  unfold re_fence. rewrite (match_at_delim "```" "```" _ _ _ _ _ rmatch_any).
  destruct (starts_with (lit "```") b) eqn:Es; [|reflexivity].
  apply starts_with_spec in Es. destruct Es as [b' ->]. exfalso.
  pose proof (code_loop_ticks (S (length t)) [] t ltac:(lia)) as [H _].
  fold (replace_all re_code (wrap "<code>" "</code>") t) in H.
  fold (rule_code t) in H. rewrite E in H.
  change (lit "```" ++ b') with (96%N :: 96%N :: 96%N :: b') in H.
  rewrite tick_pair_mid in H. discriminate.
Qed.

Lemma tokens_start_all k :
  In k (entities ++ formatter_tags) ->
  exists m k', k = m :: k' /\ is_markup m = true.
Proof.
  intros Hk. simpl in Hk.
  repeat (destruct Hk as [<-|Hk]; [eexists _, _; split; reflexivity|]).
  destruct Hk.
Qed.

Lemma terminators_inert_all c :
  is_line_terminator c = true -> inert (entities ++ formatter_tags) c.
Proof.
  unfold is_line_terminator. intros H.
  repeat (apply orb_true_iff in H; destruct H as [H|H]);
    apply N.eqb_eq in H; subst c; apply inertb_inert; reflexivity.
Qed.

Lemma escaped_escape s : escaped (flat_map escape_unit s).
Proof.
  induction s as [|c s IH]; [constructor|].
  cbn [flat_map]. unfold escape_unit at 1.
  destruct (c =? 38)%N eqn:E1;
    [apply built_token; [simpl; tauto | exact IH]|].
  destruct (c =? 60)%N eqn:E2;
    [apply built_token; [simpl; tauto | exact IH]|].
  destruct (c =? 62)%N eqn:E3;
    [apply built_token; [simpl; tauto | exact IH]|].
  destruct (c =? 34)%N eqn:E4;
    [apply built_token; [simpl; tauto | exact IH]|].
  destruct (c =? 39)%N eqn:E5;
    [apply built_token; [simpl; tauto | exact IH]|].
  apply built_unit; [|exact IH].
  unfold is_markup. rewrite E1, E2, E3. reflexivity.
Qed.

Lemma built_from_more tokens more t :
  built_from tokens t -> built_from (tokens ++ more) t.
Proof.
  induction 1 as [|c t Hc _ IH|k t Hk _ IH].
  - constructor.
  - apply built_unit; assumption.
  - apply built_token; [apply in_or_app; left; exact Hk | exact IH].
Qed.

Lemma formatter_tag_in (k : string) :
  existsb (fun t => jsstring_eqb (lit k) t) formatter_tags = true ->
  In (lit k) (entities ++ formatter_tags).
Proof.
  intros H. apply existsb_exists in H. destruct H as (t & Ht & E).
  unfold jsstring_eqb in E. apply bool_decide_eq_true in E. subst t.
  apply in_or_app. right. exact Ht.
Qed.

Lemma inert_all (d : string) :
  forallb (inertb (entities ++ formatter_tags)) (lit d) = true ->
  Forall (inert (entities ++ formatter_tags)) (lit d).
Proof.
  intros H. apply List.Forall_forall. intros c Hc. apply inertb_inert.
  rewrite forallb_forall in H. apply H. exact Hc.
Qed.

Lemma forallb_Forall {A : Type} (p : A -> bool) (l : list A) :
  forallb p l = true -> Forall (fun c => p c = true) l.
Proof.
  intros H. apply List.Forall_forall. intros c Hc.
  rewrite forallb_forall in H. exact (H c Hc).
Qed.

Lemma plain_all (P : N -> bool) (d : jsstring) :
  forallb (fun c => negb (P c)) d = true ->
  Forall (fun c => P c = false) d.
Proof.
  intros H. apply forallb_Forall in H.
  eapply Forall_impl; [exact H|]. intros c Hc. apply negb_true_iff in Hc.
  exact Hc.
Qed.

Lemma formatMarkdown_safe t : safe_html t -> safe_html (formatMarkdown t).
Proof.
  unfold safe_html. intros H.
  pose proof tokens_start_all as TS. pose proof terminators_inert_all as TI.
  unfold formatMarkdown. rewrite rule_fence_after_code.
  assert (Hh : forall (open otag ctag : string) x,
             lit open <> [] ->
             forallb (fun c => negb (is_markup c)) (lit open) = true ->
             forallb (fun c => negb (is_line_terminator c)) (lit open) = true ->
             existsb (fun t => jsstring_eqb (lit otag) t) formatter_tags = true ->
             existsb (fun t => jsstring_eqb (lit ctag) t) formatter_tags = true ->
             built_from (entities ++ formatter_tags) x ->
             built_from (entities ++ formatter_tags)
               (replace_all (RSeq (RBol true) (RSeq (rlit open)
                               (RGroup 1 (RSeq (RStar true rdot) (REol true)))))
                            (wrap otag ctag) x)).
  { intros open otag ctag x H1 H2 H3 H4 H5 Hx.
    apply (replace_all_safe _ TI); [|exact Hx].
    apply (rule_ok_heading _ TS TI); auto using plain_all, formatter_tag_in. }
  assert (Hd : forall (open close otag ctag : string) X ok g x,
             (forall st, rmatch X st = unit_body ok g st) ->
             lit open <> [] -> lit close <> [] ->
             forallb (inertb (entities ++ formatter_tags)) (lit open) = true ->
             forallb (inertb (entities ++ formatter_tags)) (lit close) = true ->
             forallb (fun c => negb (is_line_terminator c)) (lit close) = true ->
             existsb (fun t => jsstring_eqb (lit otag) t) formatter_tags = true ->
             existsb (fun t => jsstring_eqb (lit ctag) t) formatter_tags = true ->
             built_from (entities ++ formatter_tags) x ->
             built_from (entities ++ formatter_tags)
               (replace_all (RSeq (rlit open)
                               (RSeq (RGroup 1 (RStar false X)) (rlit close)))
                            (wrap otag ctag) x)).
  { intros open close otag ctag X ok g x HX H1 H2 H3 H4 H5 H6 H7 Hx.
    apply (replace_all_safe _ TI); [|exact Hx].
    apply (rule_ok_delim _ TS _ _ _ _ _ ok g);
      auto using plain_all, formatter_tag_in, inert_all. }
  apply (replace_all_safe _ TI).
  { apply (rule_ok_line _ TS TI);
      [discriminate | apply plain_all; reflexivity | apply plain_all; reflexivity
      | apply formatter_tag_in; reflexivity
      | apply formatter_tag_in; reflexivity]. }
  apply (Hd "`"%string "`"%string "<code>"%string "</code>"%string _ _ _ _ rmatch_dot_or_lf);
    try reflexivity; try discriminate.
  apply (Hd "*"%string "*"%string "<em>"%string "</em>"%string _ _ _ _ rmatch_rdot);
    try reflexivity; try discriminate.
  apply (Hd "**"%string "**"%string "<strong>"%string "</strong>"%string _ _ _ _ rmatch_rdot);
    try reflexivity; try discriminate.
  apply (Hh "# "%string "<h1>"%string "</h1>"%string); try reflexivity; try discriminate.
  apply (Hh "## "%string "<h2>"%string "</h2>"%string); try reflexivity; try discriminate.
  apply (Hh "### "%string "<h3>"%string "</h3>"%string); try reflexivity; try discriminate.
  exact H.
Qed.

(** C2. Whatever the text, also one that spells a script tag, the
    escaped text holds no angle bracket and no ampersand outside an
    entity, and the only markup of the formatted text are those entities
    and the tags the formatter itself writes. *)
Theorem formatMarkdown_escapes_markup :
  (forall s, escaped (escapeHtml (JStr s))) /\
  (forall s, safe_html (formatMarkdown (escapeHtml (JStr s)))) /\
  formatMarkdown (escapeHtml (JStr (lit "<script>alert(1)</script>")))
  = lit "&lt;script&gt;alert(1)&lt;/script&gt;".
Proof.
  split; [|split].
  - intros s. rewrite escapeHtml_string. apply escaped_escape.
  - intros s. rewrite escapeHtml_string. apply formatMarkdown_safe.
    apply built_from_more, escaped_escape.
  - vm_compute. reflexivity.
Qed.

(** C6, as stated, fails: with a blank prompt and a selected model both
    clients return without showing an alert. *)
Lemma sendMessage_blank_prompt_no_alert :
  ~ (forall reply,
       truthy (JStr (trim (userInput (App.ui blank_prompt_app)))) = false \/
       truthy (App.selectedModel blank_prompt_app) = false ->
       exists m,
         alerts (App.ui (App.sendMessage (fun x => x) [] reply blank_prompt_app))
         = alerts (App.ui blank_prompt_app) ++ [m]) /\
  ~ (forall reply,
       truthy (JStr (trim (userInput (Basic.ui blank_prompt_basic)))) = false \/
       truthy (Basic.selectedModel blank_prompt_basic) = false ->
       exists m,
         alerts (Basic.ui (Basic.sendMessage reply blank_prompt_basic))
         = alerts (Basic.ui blank_prompt_basic) ++ [m]).
Proof.
  split; intros H; destruct (H (Rejected []) (or_introl eq_refl)) as [m Hm];
    vm_compute in Hm; discriminate Hm.
Qed.

(** C6, amended. When the trimmed prompt is empty or no model is
    selected, [sendMessage] sends no request and changes nothing but the
    list of alerts: the multi-chat client shows the alert when the prompt
    is not empty and no model is selected, the single-chat client
    whenever no model is selected; with an empty prompt and a selected
    model neither shows anything. *)
Theorem sendMessage_rejected_send
    (marked_parse : jsstring -> jsstring) (type_error_message : jsstring)
    (reply : fetch_result) (w : App.world) (b : Basic.world) :
  (truthy (JStr (trim (userInput (App.ui w)))) = false \/
   truthy (App.selectedModel w) = false ->
   App.sendMessage marked_parse type_error_message reply w
   = (if truthy (JStr (trim (userInput (App.ui w))))
      then App.set_ui (alert (lit "Please select a model first") (App.ui w)) w
      else w)) /\
  (truthy (JStr (trim (userInput (Basic.ui b)))) = false \/
   truthy (Basic.selectedModel b) = false ->
   Basic.sendMessage reply b
   = (if truthy (Basic.selectedModel b) then b
      else Basic.World (Basic.selectedModel b)
             (alert (lit "Please select a model first") (Basic.ui b)))).
Proof.
  split; intros H.
  - unfold App.sendMessage.
    destruct (truthy (JStr (trim (userInput (App.ui w))))); simpl.
    + destruct H as [H|H]; [discriminate | rewrite H; reflexivity].
    + reflexivity.
  - unfold Basic.sendMessage.
    destruct (truthy (Basic.selectedModel b)).
    + destruct H as [H|H]; [rewrite H; reflexivity | discriminate].
    + rewrite orb_true_r. reflexivity.
Qed.

Lemma sendMessage_rejected_send_witness :
  App.sendMessage (fun x => x) [] (Rejected []) blank_prompt_app = blank_prompt_app
  /\ Basic.sendMessage (Rejected [])
       (Basic.World JNull (Page (lit "Hello") [] [] [] []))
     = Basic.World JNull
         (alert (lit "Please select a model first") (Page (lit "Hello") [] [] [] [])).
Proof.
  pose proof (sendMessage_rejected_send (fun x => x) [] (Rejected [])
                blank_prompt_app
                (Basic.World JNull (Page (lit "Hello") [] [] [] []))) as [H1 H2].
  split.
  - rewrite (H1 (or_introl eq_refl)). reflexivity.
  - rewrite (H2 (or_intror eq_refl)). reflexivity.
Defined.

Section AppFacts.

Variable marked_parse : jsstring -> jsstring.
Variable type_error_message : jsstring.

Local Abbreviation sending := (sending marked_parse).

Lemma frame_refl w : frame w w.
Proof. repeat split. Qed.

Lemma frame_trans w1 w2 w3 : frame w1 w2 -> frame w2 w3 -> frame w1 w3.
Proof.
  intros (A1 & A2 & A3 & A4 & A5 & A6 & A7 & A8)
         (B1 & B2 & B3 & B4 & B5 & B6 & B7 & B8).
  repeat split; try congruence.
Qed.

Lemma remove_cursor_length ns : length (remove_cursor ns) = length ns.
Proof.
  induction ns as [|n ns IH]; [reflexivity|].
  destruct n as [cls body|h [|] r]; simpl; congruence.
Qed.

Lemma frame_window w ns :
  length ns = length (chatWindow (App.ui w)) ->
  frame w (App.set_ui (set_chatWindow ns (App.ui w)) w).
Proof. intros H. repeat split. exact H. Qed.

Lemma at_index_lt {A : Type} (l : list A) i x :
  App.at_index l i = Some x -> (0 <= i)%Z /\ Z.to_nat i < length l.
Proof.
  unfold App.at_index. destruct (i <? 0)%Z eqn:E; [discriminate|].
  intros H. apply Z.ltb_ge in E. split; [exact E|].
  apply lookup_lt_Some in H. exact H.
Qed.

Lemma frame_append_answer i text w :
  frame w (App.append_answer i text w).
Proof.
  unfold App.append_answer.
  destruct (App.chats w !! App.currentChatId w) as [c|] eqn:Ec;
    [|apply frame_refl].
  destruct (App.at_index (App.messages c) i) as [e|] eqn:Ee;
    [|apply frame_refl].
  repeat split. intros id. simpl.
  destruct (decide (id = App.currentChatId w)) as [->|Hne].
  - rewrite lookup_insert_eq, Ec. simpl. unfold chat_shape. simpl. f_equal.
    f_equal. rewrite list_fmap_insert. apply list_insert_id.
    rewrite list_lookup_fmap. unfold App.at_index in Ee.
    destruct (i <? 0)%Z; [discriminate|]. rewrite Ee. reflexivity.
  - rewrite lookup_insert_ne by congruence. reflexivity.
Qed.

Lemma frame_on_line chatIndex h1 h2 line raw w :
  match App.on_line marked_parse type_error_message chatIndex h1 h2 line (raw, w) with
  | Next (_, w') | Break (_, w') | Raise _ (_, w') => frame w w'
  end.
Proof.
  unfold App.on_line.
  destruct (negb (truthy (JStr (trim line)))); [apply frame_refl|].
  destruct (starts_with data_prefix line); [|apply frame_refl].
  destruct (jsstring_eqb _ DONE).
  - apply frame_window. apply remove_cursor_length.
  - set (w1 := App.set_ui _ w).
    assert (F1 : frame w w1).
    { apply frame_window. apply length_alter. }
    pose proof (frame_append_answer chatIndex
                  (trim (replace_first data_prefix [] line) ++ [chLF]) w1) as F2.
    set (w2 := App.append_answer _ _ w1) in *.
    destruct (App.current_answer chatIndex w2).
    + eapply frame_trans; [exact F1|]. eapply frame_trans; [exact F2|].
      apply frame_window. apply length_alter.
    + eapply frame_trans; eassumption.
Qed.

Lemma frame_for_of chatIndex h1 h2 lines raw w :
  match for_of (App.on_line marked_parse type_error_message chatIndex h1 h2)
               lines (raw, w) with
  | Next (_, w') | Break (_, w') | Raise _ (_, w') => frame w w'
  end.
Proof.
  revert raw w. induction lines as [|line lines IH]; intros raw w.
  - apply frame_refl.
  - cbn [for_of].
    pose proof (frame_on_line chatIndex h1 h2 line raw w) as F.
    destruct (App.on_line _ _ _ _ _ line (raw, w)) as [[r' w']|[r' w']|m [r' w']];
      try exact F.
    specialize (IH r' w').
    destruct (for_of _ lines (r', w')) as [[r2 w2]|[r2 w2]|m [r2 w2]];
      eapply frame_trans; eassumption.
Qed.

Lemma frame_on_chunk chatIndex h1 h2 value l w :
  match App.on_chunk marked_parse type_error_message chatIndex h1 h2 value l w with
  | Next (_, w') | Break (_, w') | Raise _ (_, w') => frame w w'
  end.
Proof.
  unfold App.on_chunk.
  destruct (TextDecoder.decode (App.decoder l) value) as [d chunk].
  destruct (pop _) as [lines partial].
  pose proof (frame_for_of chatIndex h1 h2 lines (App.rawText l) w) as F.
  destruct (for_of _ lines _) as [[r' w']|[r' w']|m [r' w']]; exact F.
Qed.

Lemma frame_read_loop chatIndex h1 h2 body l w :
  match App.read_loop marked_parse type_error_message chatIndex h1 h2 body l w with
  | Normal (_, w') | Thrown _ (_, w') => frame w w'
  end.
Proof.
  revert l w. induction body as [|ev body IH]; intros l w.
  - apply frame_refl.
  - destruct ev as [value|m]; cbn [App.read_loop]; [|apply frame_refl].
    pose proof (frame_on_chunk chatIndex h1 h2 value l w) as F.
    destruct (App.on_chunk _ _ _ _ _ value l w)
      as [[l' w']|[l' w']|m [l' w']]; try exact F;
      specialize (IH l' w');
      destruct (App.read_loop _ _ _ _ _ body l' w') as [[l2 w2]|m [l2 w2]];
      eapply frame_trans; eassumption.
Qed.

Lemma frame_processStreamResponse body h1 h2 w :
  match App.processStreamResponse marked_parse type_error_message body h1 h2 w with
  | Normal w' | Thrown _ w' => frame w w'
  end.
Proof.
  unfold App.processStreamResponse.
  destruct (App.chats w !! App.currentChatId w) as [c|]; [|apply frame_refl].
  pose proof (frame_read_loop (Z.of_nat (length (App.messages c)) - 1) h1 h2 body
                (App.Locals TextDecoder.create [] []) w) as F.
  destruct (App.read_loop _ _ _ _ _ body _ w) as [[l' w']|m [l' w']];
    [|exact F].
  eapply frame_trans; [exact F|]. apply frame_window, remove_cursor_length.
Qed.

Lemma push_exchange_current q w :
  App.chats (App.push_exchange q w) !! App.currentChatId w
  = Some (let c := default (App.Chat (lit "Unnamed Chat") [])
                           (App.chats w !! App.currentChatId w) in
          App.Chat (App.name c) (App.messages c ++ [App.Exchange q []])).
Proof.
  unfold App.push_exchange. simpl. rewrite lookup_alter_eq.
  destruct (App.chats w !! App.currentChatId w) as [c|] eqn:E.
  - rewrite E. reflexivity.
  - rewrite lookup_insert_eq. reflexivity.
Qed.

Lemma push_exchange_other q w id :
  id <> App.currentChatId w ->
  App.chats (App.push_exchange q w) !! id = App.chats w !! id.
Proof.
  intros Hne. unfold App.push_exchange. simpl.
  rewrite lookup_alter_ne by congruence.
  destruct (App.chats w !! App.currentChatId w); [reflexivity|].
  rewrite lookup_insert_ne by congruence. reflexivity.
Qed.

Lemma alter_last {A : Type} (f : A -> A) (l : list A) (x : A) :
  alter f (length (l ++ [x]) - 1) (l ++ [x]) = l ++ [f x].
Proof.
  rewrite length_app. simpl. replace (length l + 1 - 1) with (length l + 0) by lia.
  rewrite alter_app_r. reflexivity.
Qed.

(** The [catch] block keeps names and questions, and replaces the last
    answer of the current chat when there is one. *)
Lemma on_stream_error_chats h m w :
  App.currentChatId (App.on_stream_error h m w) = App.currentChatId w /\
  App.chats (App.on_stream_error h m w)
  = match App.chats w !! App.currentChatId w with
    | Some c =>
        if 0 <? length (App.messages c) then
          <[App.currentChatId w :=
              App.set_messages
                (alter (App.set_answer (lit "Error: " ++ m))
                       (length (App.messages c) - 1) (App.messages c)) c]>
            (App.chats w)
        else App.chats w
    | None => App.chats w
    end.
Proof.
  unfold App.on_stream_error. simpl.
  destruct (App.chats w !! App.currentChatId w) as [c|]; [|split; reflexivity].
  destruct (0 <? length (App.messages c)); split; reflexivity.
Qed.

Lemma on_stream_error_page h m w :
  userInput (App.ui (App.on_stream_error h m w)) = userInput (App.ui w) /\
  alerts (App.ui (App.on_stream_error h m w)) = alerts (App.ui w) /\
  requests (App.ui (App.on_stream_error h m w)) = requests (App.ui w).
Proof.
  unfold App.on_stream_error. simpl.
  destruct (App.chats w !! App.currentChatId w) as [c|]; [|repeat split].
  destruct (0 <? length (App.messages c)); repeat split.
Qed.

Lemma on_stream_error_shape h m w id :
  chat_shape <$> (App.chats (App.on_stream_error h m w) !! id)
  = chat_shape <$> (App.chats w !! id).
Proof.
  destruct (on_stream_error_chats h m w) as [_ ->].
  destruct (App.chats w !! App.currentChatId w) as [c|] eqn:Ec; [|reflexivity].
  destruct (0 <? length (App.messages c)); [|reflexivity].
  destruct (decide (id = App.currentChatId w)) as [->|Hne].
  - rewrite lookup_insert_eq, Ec. unfold chat_shape. simpl. f_equal. f_equal.
    apply list_eq. intros i. rewrite !list_lookup_fmap, list_lookup_alter.
    case_decide; [|reflexivity]. subst i.
    destruct (App.messages c !! _); reflexivity.
  - rewrite lookup_insert_ne by congruence. reflexivity.
Qed.

Lemma sendMessage_unfold reply w :
  truthy (JStr (trim (userInput (App.ui w)))) = true ->
  truthy (App.selectedModel w) = true ->
  App.sendMessage marked_parse type_error_message reply w
  = match match reply with
          | Rejected m => Thrown m (sending w)
          | Response false statusText _ => Thrown statusText (sending w)
          | Response true _ body =>
              App.processStreamResponse marked_parse type_error_message body
                (stream_handle w) (stream_handle w) (sending w)
          end with
    | Normal w' => w'
    | Thrown m w' => App.on_stream_error (stream_handle w) m w'
    end.
Proof.
  intros Hp Hm. unfold App.sendMessage. rewrite Hp, Hm. simpl negb. cbv iota.
  unfold sending, stream_handle, createAssistantMessageElements,
    App.addMessageToChat, appendChild. simpl.
  rewrite length_app. simpl. rewrite Nat.add_1_r. reflexivity.
Qed.

Lemma sendMessage_shape reply w id :
  truthy (JStr (trim (userInput (App.ui w)))) = true ->
  truthy (App.selectedModel w) = true ->
  App.currentChatId (App.sendMessage marked_parse type_error_message reply w)
  = App.currentChatId w /\
  chat_shape <$> (App.chats (App.sendMessage marked_parse type_error_message
                                             reply w) !! id)
  = chat_shape <$> (App.chats (App.push_exchange
                                 (trim (userInput (App.ui w))) w) !! id).
Proof.
  intros Hp Hm. rewrite (sendMessage_unfold reply w Hp Hm).
  assert (He : forall m, 
             App.currentChatId (App.on_stream_error (stream_handle w) m (sending w))
             = App.currentChatId w /\
             chat_shape <$> (App.chats (App.on_stream_error (stream_handle w) m
                                          (sending w)) !! id)
             = chat_shape <$> (App.chats (App.push_exchange
                                 (trim (userInput (App.ui w))) w) !! id)).
  { intros m. split.
    - destruct (on_stream_error_chats (stream_handle w) m (sending w)) as [-> _].
      reflexivity.
    - rewrite on_stream_error_shape. reflexivity. }
  destruct reply as [m|[|] st body]; [apply He| |apply He].
  pose proof (frame_processStreamResponse body (stream_handle w) (stream_handle w)
                (sending w)) as F.
  destruct (App.processStreamResponse _ _ body _ _ (sending w)) as [w'|m w'].
  - destruct F as (F1 & _ & F3 & _). split; [exact F1 | apply F3].
  - destruct F as (F1 & _ & F3 & _). split.
    + destruct (on_stream_error_chats (stream_handle w) m w') as [-> _].
      exact F1.
    + rewrite on_stream_error_shape. apply F3.
Qed.

End AppFacts.



(** C8. A new chat is current and empty; pushing an exchange with an
    empty answer makes the message count of the current chat one more,
    and so does a whole [sendMessage] whatever the server replies; after
    a Reset that the server accepts the chat has no message and keeps
    its id and its name, and the other chats are untouched. *)
Theorem conversation_store_counts
    (marked_parse : jsstring -> jsstring) (type_error_message : jsstring) :
  (forall uuid dialog defaultName nm w,
     (if truthy defaultName then defaultName else dialog) = JStr nm ->
     nm <> [] ->
     let w1 := App.createNewChat marked_parse uuid dialog defaultName w in
     App.currentChatId w1 = uuid /\
     App.chats w1 !! uuid = Some (App.Chat nm []) /\
     forall q, App.chats (App.push_exchange q w1) !! uuid
               = Some (App.Chat nm [App.Exchange q []])) /\
  (forall q w c,
     App.chats w !! App.currentChatId w = Some c ->
     App.chats (App.push_exchange q w) !! App.currentChatId w
     = Some (App.Chat (App.name c) (App.messages c ++ [App.Exchange q []])) /\
     length (App.messages c ++ [App.Exchange q []]) = S (length (App.messages c))) /\
  (forall reply w c,
     truthy (JStr (trim (userInput (App.ui w)))) = true ->
     truthy (App.selectedModel w) = true ->
     App.chats w !! App.currentChatId w = Some c ->
     exists c',
       App.chats (App.sendMessage marked_parse type_error_message reply w)
         !! App.currentChatId w = Some c' /\
       App.name c' = App.name c /\
       length (App.messages c') = S (length (App.messages c))) /\
  (forall error chatId w c,
     App.chats w !! chatId = Some c ->
     let w' := App.resetChat marked_parse type_error_message
                 (App.ResetResponse true error) chatId w in
     App.chats w' !! chatId = Some (App.Chat (App.name c) []) /\
     App.currentChatId w' = App.currentChatId w /\
     forall id, id <> chatId -> App.chats w' !! id = App.chats w !! id).
Proof.
  split; [|split; [|split]].
  - intros uuid dialog defaultName nm w Hn Hne w1. subst w1.
    unfold App.createNewChat. rewrite Hn.
    destruct nm as [|x nm]; [congruence|].
    assert (Hr : forall v, App.currentChatId (App.renderMessages marked_parse v)
                           = App.currentChatId v /\
                           App.chats (App.renderMessages marked_parse v)
                           = App.chats v).
    { intros v. unfold App.renderMessages.
      destruct (App.chats v !! App.currentChatId v); split; reflexivity. }
    set (v := App.set_currentChatId uuid _).
    destruct (Hr v) as [H1 H2].
    assert (Hv : App.chats v !! uuid = Some (App.Chat (x :: nm) [])).
    { unfold v. simpl. apply lookup_insert_eq. }
    split; [rewrite H1; reflexivity|]. split; [rewrite H2; exact Hv|].
    intros q.
    pose proof (push_exchange_current q (App.renderMessages marked_parse v)) as P.
    rewrite H1, H2 in P. change (App.currentChatId v) with uuid in P.
    rewrite Hv in P. exact P.
  - intros q w c Hc. rewrite push_exchange_current, Hc. simpl.
    split; [reflexivity|]. rewrite length_app. simpl. lia.
  - intros reply w c Hp Hm Hc.
    destruct (sendMessage_shape marked_parse type_error_message reply w
                (App.currentChatId w) Hp Hm) as [_ Hs].
    rewrite push_exchange_current, Hc in Hs. simpl in Hs.
    destruct (App.chats (App.sendMessage marked_parse type_error_message reply w)
                !! App.currentChatId w) as [c'|]; [|discriminate].
    exists c'. split; [reflexivity|]. simpl in Hs.
    unfold chat_shape in Hs. simpl in Hs. injection Hs as Hn Hq.
    split; [exact Hn|].
    apply (f_equal length) in Hq. rewrite !length_fmap, length_app in Hq.
    simpl in Hq. lia.
  - intros error chatId w c Hc w'. subst w'. unfold App.resetChat. simpl.
    rewrite Hc. unfold App.renderMessages. simpl.
    destruct (_ !! App.currentChatId w); simpl;
      (split; [apply lookup_insert_eq|]; split; [reflexivity|];
       intros id Hne; apply lookup_insert_ne; congruence).
Qed.

Lemma conversation_store_counts_witness :
  let w := App.World ∅ [] (JStr (lit "m1")) (Page (lit "Hello") [] [] [] []) in
  let w1 := App.createNewChat (fun x => x) (lit "c1") JNull (JStr (lit "Chat 1")) w in
  let w3 := App.resetChat (fun x => x) [] (App.ResetResponse true JUndefined)
              (lit "c1") (App.push_exchange (lit "Hello") w1) in
  App.chats (App.push_exchange (lit "Hello") w1) !! lit "c1"
  = Some (App.Chat (lit "Chat 1") [App.Exchange (lit "Hello") []]) /\
  App.chats w3 !! lit "c1" = Some (App.Chat (lit "Chat 1") []).
Proof.
  intros w w1 w3.
  destruct (conversation_store_counts (fun x => x) []) as (H1 & _ & _ & H4).
  destruct (H1 (lit "c1") JNull (JStr (lit "Chat 1")) (lit "Chat 1") w eq_refl
               ltac:(discriminate)) as (_ & _ & Hq).
  split; [exact (Hq (lit "Hello"))|].
  exact (proj1 (H4 JUndefined (lit "c1") (App.push_exchange (lit "Hello") w1)
                   _ (Hq (lit "Hello")))).
Defined.

(** C4 fails on the code.  In both clients the [break] at the [DONE]
    line leaves only the loop over the lines of the chunk at hand: a
    data line that follows in the same chunk is dropped, but one that
    comes in a later chunk is appended to the answer, to the raw text
    and rendered. *)
Theorem done_line_only_ends_its_chunk :
  let run body :=
    App.sendMessage (fun x => x) [] (Response true [] body)
      (loaded (fun x => x) (lit "c1") (lit "m1") (lit "Hello")) in
  let run_basic body :=
    Basic.sendMessage (Response true [] body)
      (Basic.World (JStr (lit "m1")) (Page (lit "Hello") [] [] [] [])) in
  App.messages <$> (App.chats (run late_body_one_chunk) !! lit "c1")
  = Some [App.Exchange (lit "Hello") (lit "one" ++ [chLF])] /\
  App.messages <$> (App.chats (run late_body) !! lit "c1")
  = Some [App.Exchange (lit "Hello") (lit "one" ++ [chLF] ++ lit "late" ++ [chLF])] /\
  last (chatWindow (App.ui (run late_body)))
  = Some (Streaming (lit "one" ++ [chLF] ++ lit "late" ++ [chLF]) false
                    (lit "one" ++ [chLF] ++ lit "late" ++ [chLF])) /\
  last (chatWindow (Basic.ui (run_basic late_body_one_chunk)))
  = Some (Streaming (lit "one" ++ [chLF]) false (lit "one" ++ [chLF])) /\
  last (chatWindow (Basic.ui (run_basic late_body)))
  = Some (Streaming (lit "one" ++ [chLF] ++ lit "late" ++ [chLF]) false
                    (lit "one" ++ [chLF] ++ lit "late" ++ [chLF])).
Proof. vm_compute. repeat split. Qed.

Lemma run_after_app ok (l t : list N) :
  Forall (fun c => ok c = true) l ->
  match t with [] => True | c :: _ => ok c = false end ->
  run ok (l ++ t) = l /\ after ok (l ++ t) = t.
Proof.
  intros Hl Ht. induction Hl as [|c l Hc _ IH]; cbn [app run after].
  - destruct t as [|c t]; [split; reflexivity|]. cbn [run after]. rewrite Ht.
    split; reflexivity.
  - simpl in Hc. rewrite Hc. destruct IH as [-> ->]. split; reflexivity.
Qed.

(** The list rule on a run of list lines: one list for each line. *)
Lemma item_loop items :
  Forall (Forall (fun c => is_dot c = true)) items ->
  forall fuel pre,
    at_bol pre = true ->
    length (join_lines (map (fun l => lit "- " ++ l) items)) < fuel ->
    replace_loop fuel re_item (wrap "<ul><li>" "</li></ul>") pre
      (join_lines (map (fun l => lit "- " ++ l) items))
    = join_lines (map (fun l => lit "<ul><li>" ++ l ++ lit "</li></ul>") items).
Proof.
  induction 1 as [|l ls Hl _ IH]; intros fuel pre Hb Hf.
  - destruct fuel as [|fuel]; [simpl in Hf; lia|].
    cbn [map join_lines replace_loop]. unfold re_item.
    rewrite match_at_line, Hb. reflexivity.
  - destruct fuel as [|fuel]; [lia|].
    cbn [map join_lines] in *.
    set (T := match map (fun l0 => lit "- " ++ l0) ls with
              | [] => []
              | _ :: _ => chLF :: join_lines (map (fun l0 => lit "- " ++ l0) ls)
              end).
    assert (Etext : match map (fun l0 => lit "- " ++ l0) ls with
                    | [] => lit "- " ++ l
                    | _ :: _ => (lit "- " ++ l) ++ chLF
                                :: join_lines (map (fun l0 => lit "- " ++ l0) ls)
                    end = lit "- " ++ l ++ T).
    { unfold T. destruct (map _ ls); [rewrite app_nil_r|rewrite <- app_assoc];
        reflexivity. }
    rewrite Etext in *. cbn [replace_loop]. unfold re_item.
    rewrite match_at_line, Hb, starts_with_app. cbn [andb].
    rewrite drop_app_length.
    assert (HT : match T with [] => True | c :: _ => is_dot c = false end).
    { unfold T. destruct (map _ ls); [exact I | reflexivity]. }
    destruct (run_after_app is_dot l T Hl HT) as [-> ->].
    cbn [m_rest m_pre m_caps]. rewrite wrap_capture.
    assert (Hlen : length T < length (lit "- " ++ l ++ T)).
    { rewrite !length_app. simpl. lia. }
    pose proof Hlen as Hlen'. apply Nat.ltb_lt in Hlen'. rewrite Hlen'.
    assert (Hnb : at_bol (rev l ++ rev (lit "- ") ++ pre) = false).
    { rewrite app_assoc, <- rev_app_distr. apply at_bol_rev_app.
      - discriminate.
      - apply Forall_app. split; [repeat constructor|].
        eapply Forall_impl; [exact Hl|]. intros c Hc. unfold is_dot in Hc.
        apply negb_true_iff in Hc. exact Hc. }
    unfold T in *. destruct ls as [|l2 ls'].
    + cbn [map] in *. destruct fuel as [|fuel];
        [exfalso; rewrite !length_app in Hf; simpl in Hf; lia|].
      cbn [replace_loop]. rewrite match_at_line, Hnb. cbn [andb].
      rewrite app_nil_r. reflexivity.
    + cbn [map] in *. destruct fuel as [|fuel];
        [exfalso; rewrite !length_app in Hf; simpl in Hf; lia|].
      cbn [replace_loop]. rewrite match_at_line, Hnb. cbn [andb].
      unfold re_item in IH.
      rewrite (IH fuel (chLF :: rev l ++ rev (lit "- ") ++ pre) eq_refl).
      * rewrite <- !app_assoc. reflexivity.
      * rewrite !length_app in Hf. cbn [length] in Hf.
        cbn [map join_lines]. simpl in Hf |- *. lia.
Qed.

Lemma rule_item_lines items :
  Forall (Forall (fun c => is_dot c = true)) items ->
  rule_item (join_lines (map (fun l => lit "- " ++ l) items))
  = join_lines (map (fun l => lit "<ul><li>" ++ l ++ lit "</li></ul>") items).
Proof.
  intros H. unfold rule_item, replace_all. apply item_loop; [exact H| reflexivity | lia].
Qed.

(** C3. [formatMarkdown] is the chain of its eight rules in the order
    of the source, each applied to the result of the one before:
    headings of level three, two and one, bold, italic, inline code,
    fenced blocks, list items.  The examples show the order at work: the
    longest heading prefix wins, bold is taken before italic, a rule sees
    the tags of an earlier one, inline code runs before the fenced rule
    (and takes its backticks), and each list line gets a list of its
    own, for every run of list lines. *)
Theorem formatMarkdown_rule_order :
  (forall text,
     formatMarkdown text
     = rule_item (rule_fence (rule_code (rule_italic (rule_bold
         (rule_h1 (rule_h2 (rule_h3 text)))))))) /\
  rule_h3 = replace_all re_h3 (wrap "<h3>" "</h3>") /\
  rule_h2 = replace_all re_h2 (wrap "<h2>" "</h2>") /\
  rule_h1 = replace_all re_h1 (wrap "<h1>" "</h1>") /\
  rule_bold = replace_all re_bold (wrap "<strong>" "</strong>") /\
  rule_italic = replace_all re_italic (wrap "<em>" "</em>") /\
  rule_code = replace_all re_code (wrap "<code>" "</code>") /\
  rule_fence = replace_all re_fence code_block /\
  rule_item = replace_all re_item (wrap "<ul><li>" "</li></ul>") /\
  (forall items,
     Forall (Forall (fun c => is_dot c = true)) items ->
     rule_item (join_lines (map (fun l => lit "- " ++ l) items))
     = join_lines (map (fun l => lit "<ul><li>" ++ l ++ lit "</li></ul>") items)) /\
  formatMarkdown (lit "### a" ++ [chLF] ++ lit "## b" ++ [chLF] ++ lit "# c")
  = lit "<h3>a</h3>" ++ [chLF] ++ lit "<h2>b</h2>" ++ [chLF] ++ lit "<h1>c</h1>" /\
  formatMarkdown (lit "**b** and *i*")
  = lit "<strong>b</strong> and <em>i</em>" /\
  rule_bold (rule_italic (lit "**b**")) = lit "<em></em>b<em></em>" /\
  formatMarkdown (lit "# *t* `c`") = lit "<h1><em>t</em> <code>c</code></h1>" /\
  formatMarkdown (lit "```print(1)```")
  = lit "<code></code><code>print(1)</code><code></code>" /\
  formatMarkdown (lit "- a" ++ [chLF] ++ lit "- b")
  = lit "<ul><li>a</li></ul>" ++ [chLF] ++ lit "<ul><li>b</li></ul>".
Proof.
  repeat split; try (vm_compute; reflexivity).
  exact rule_item_lines.
Qed.

Lemma formatMarkdown_rule_order_witness :
  rule_item (join_lines (map (fun l => lit "- " ++ l) [lit "a"; lit "b c"; []]))
  = join_lines (map (fun l => lit "<ul><li>" ++ l ++ lit "</li></ul>")
                    [lit "a"; lit "b c"; []]).
Proof.
  destruct formatMarkdown_rule_order as (_ & _ & _ & _ & _ & _ & _ & _ & _ & H & _).
  apply H. repeat constructor.
Defined.

Lemma match_at_newline pre rest :
  match_at re_newline pre rest
  = match rest with
    | c :: r =>
        if (c =? 13)%N then
          match r with
          | c2 :: r2 => if (c2 =? 10)%N then Some (MState (c2 :: c :: pre) r2 [])
                        else None
          | [] => None
          end
        else if (c =? 10)%N then Some (MState (c :: pre) r []) else None
    | [] => None
    end.
Proof.
  unfold match_at, re_newline. rewrite rmatch_seq.
  destruct rest as [|c r]; [reflexivity|].
  cbn [rmatch m_rest]. unfold chCR, chLF.
  destruct (c =? 13)%N eqn:E13.
  - rewrite filter_cons_True by (apply progressed_cons).
    rewrite filter_nil. cbn [app flat_map rmatch m_rest advance m_pre m_caps].
    apply N.eqb_eq in E13. subst c.
    destruct r as [|c2 r2]; [reflexivity|].
    destruct (c2 =? 10)%N; reflexivity.
  - rewrite filter_nil. cbn [app flat_map rmatch m_rest].
    destruct (c =? 10)%N; reflexivity.
Qed.

Lemma lines_from_nonempty seg s : lines_from seg s <> [].
Proof.
  revert seg. induction s as [|c s IH]; intros seg; simpl; [discriminate|].
  destruct (c =? 10)%N; [discriminate | apply IH].
Qed.

Lemma lines_breaks_from_nonempty seg s : lines_breaks_from seg s <> [].
Proof.
  revert seg. induction s as [|c s IH]; intros seg; simpl; [discriminate|].
  destruct (c =? 10)%N; [discriminate | apply IH].
Qed.

(** [split] with the separator of the multi-chat client. *)
Lemma split_loop_newline fuel seg pre rest :
  length rest < fuel ->
  (forall r, rest = 10%N :: r -> drop_cr seg = seg) ->
  split_loop fuel re_newline 0 seg pre rest = lines_from seg rest.
Proof.
  revert seg pre rest. induction fuel as [|fuel IH]; intros seg pre rest Hf Hseg;
    [lia|].
  cbn [split_loop]. destruct rest as [|c r]; [reflexivity|].
  rewrite match_at_newline. simpl in Hf. cbn [lines_from].
  destruct (c =? 13)%N eqn:E13.
  - apply N.eqb_eq in E13. subst c. cbn [N.eqb Pos.eqb].
    destruct r as [|c2 r2].
    + rewrite IH by (simpl; try lia; intros ? [=]). reflexivity.
    + cbn [lines_from]. destruct (c2 =? 10)%N eqn:E10.
      * cbn [m_rest m_pre m_caps length seq map app].
        replace (length r2 =? S (S (length r2))) with false
          by (symmetry; apply Nat.eqb_neq; lia).
        cbn [andb]. rewrite IH by (simpl in *; try lia; intros; reflexivity).
        reflexivity.
      * rewrite IH; [cbn [lines_from]; rewrite E10; reflexivity | simpl in *; lia|].
        intros r [= -> _]. discriminate.
  - destruct (c =? 10)%N eqn:E10.
    + cbn [m_rest m_pre m_caps length seq map app].
      replace (length r =? S (length r)) with false
        by (symmetry; apply Nat.eqb_neq; lia).
      cbn [andb]. rewrite IH by (try lia; intros; reflexivity).
      apply N.eqb_eq in E10. subst c. rewrite (Hseg r eq_refl). reflexivity.
    + apply IH; [lia|]. intros r' ->. cbn [drop_cr]. rewrite E13. reflexivity.
Qed.

Lemma split_newline s : split re_newline 0 s = lines_from [] s.
Proof.
  unfold split. destruct s as [|c s]; [reflexivity|].
  apply split_loop_newline; [simpl; lia | reflexivity].
Qed.

Lemma match_at_newline_captured pre rest :
  match_at re_newline_captured pre rest
  = match rest with
    | c :: r =>
        if (c =? 13)%N then
          match r with
          | c2 :: r2 =>
              if (c2 =? 10)%N
              then Some (MState (c2 :: c :: pre) r2 [(1, [c; c2])])
              else None
          | [] => None
          end
        else if (c =? 10)%N then Some (MState (c :: pre) r [(1, [c])])
        else None
    | [] => None
    end.
Proof.
  pose proof (match_at_newline pre rest) as H.
  unfold match_at, re_newline_captured in *. rewrite rmatch_group.
  destruct (rmatch re_newline (MState pre rest [])) as [|st' l];
    cbn [head map] in *.
  - destruct rest as [|c r]; [reflexivity|].
    destruct (c =? 13)%N.
    + destruct r as [|c2 r2]; [reflexivity|].
      destruct (c2 =? 10)%N; [discriminate | reflexivity].
    + destruct (c =? 10)%N; [discriminate | reflexivity].
  - destruct rest as [|c r]; [discriminate|].
    destruct (c =? 13)%N.
    + destruct r as [|c2 r2]; [discriminate|].
      destruct (c2 =? 10)%N; [|discriminate].
      injection H as ->. cbn [m_pre m_rest m_caps]. f_equal. f_equal.
      pose proof (consumed_app pre (c :: c2 :: r2) [] [c; c2] r2 []) as Hc.
      simpl in Hc. rewrite Hc. reflexivity.
    + destruct (c =? 10)%N; [|discriminate].
      injection H as ->. cbn [m_pre m_rest m_caps]. f_equal. f_equal.
      pose proof (consumed_app pre (c :: r) [] [c] r []) as Hc.
      simpl in Hc. rewrite Hc. reflexivity.
Qed.

(** [split] with the separator of the single-chat client. *)
Lemma split_loop_newline_captured fuel seg pre rest :
  length rest < fuel ->
  (forall r, rest = 10%N :: r -> drop_cr seg = seg) ->
  split_loop fuel re_newline_captured 1 seg pre rest
  = lines_breaks_from seg rest.
Proof.
  revert seg pre rest. induction fuel as [|fuel IH]; intros seg pre rest Hf Hseg;
    [lia|].
  cbn [split_loop]. destruct rest as [|c r]; [reflexivity|].
  rewrite match_at_newline_captured. simpl in Hf. cbn [lines_breaks_from].
  destruct (c =? 13)%N eqn:E13.
  - apply N.eqb_eq in E13. subst c. cbn [N.eqb Pos.eqb].
    destruct r as [|c2 r2].
    + rewrite IH by (simpl; try lia; intros ? [=]). reflexivity.
    + cbn [lines_breaks_from]. destruct (c2 =? 10)%N eqn:E10.
      * cbn [m_rest m_pre m_caps length seq map app capture Nat.eqb default].
        replace (length r2 =? S (S (length r2))) with false
          by (symmetry; apply Nat.eqb_neq; lia).
        cbn [andb]. rewrite IH by (simpl in *; try lia; intros; reflexivity).
        apply N.eqb_eq in E10. subst c2. reflexivity.
      * rewrite IH; [cbn [lines_breaks_from]; rewrite E10; reflexivity
                    | simpl in *; lia|].
        intros r [= -> _]. discriminate.
  - destruct (c =? 10)%N eqn:E10.
    + cbn [m_rest m_pre m_caps length seq map app capture Nat.eqb default].
      replace (length r =? S (length r)) with false
        by (symmetry; apply Nat.eqb_neq; lia).
      cbn [andb]. rewrite IH by (try lia; intros; reflexivity).
      apply N.eqb_eq in E10. subst c. pose proof (Hseg r eq_refl) as Hd.
      rewrite Hd. destruct seg as [|x seg']; [reflexivity|].
      cbn [drop_cr] in Hd. destruct (x =? 13)%N; [|reflexivity].
      exfalso. apply (f_equal length) in Hd. simpl in Hd. lia.
    + apply IH; [lia|]. intros r' ->. cbn [drop_cr]. rewrite E13. reflexivity.
Qed.

Lemma split_newline_captured s :
  split re_newline_captured 1 s = lines_breaks_from [] s.
Proof.
  unfold split. destruct s as [|c s]; [reflexivity|].
  apply split_loop_newline_captured; [simpl; lia | reflexivity].
Qed.

(** Dropping the blank elements, the line breaks kept by the capturing
    separator make no difference. *)
Lemma lines_breaks_filter seg s :
  filter (fun ln => truthy (JStr (trim ln)) = true)
         (removelast (lines_breaks_from seg s))
  = filter (fun ln => truthy (JStr (trim ln)) = true)
           (removelast (lines_from seg s))
  /\ last (lines_breaks_from seg s) = last (lines_from seg s).
Proof.
  revert seg. induction s as [|c s IH]; intros seg; cbn [lines_breaks_from lines_from].
  - split; reflexivity.
  - destruct (c =? 10)%N; [|apply IH].
    destruct (IH []) as [IH1 IH2].
    pose proof (lines_breaks_from_nonempty [] s) as N1.
    pose proof (lines_from_nonempty [] s) as N2.
    split.
    + destruct (lines_breaks_from [] s) as [|x1 l1] eqn:E1; [congruence|].
      destruct (lines_from [] s) as [|x2 l2] eqn:E2; [congruence|].
      cbn [removelast] in *.
      rewrite !filter_cons. rewrite IH1.
      assert (Hsep : forall sep, sep = [chCR; chLF] \/ sep = [chLF] ->
                truthy (JStr (trim sep)) = false).
      { intros sep [->| ->]; reflexivity. }
      destruct (decide (truthy (JStr (trim (rev (drop_cr seg)))) = true));
        (destruct (decide (truthy (JStr (trim match seg with
                     | [] => [chLF]
                     | x :: _ => if (x =? 13)%N then [chCR; chLF] else [chLF]
                     end)) = true)) as [Hd|Hd]; [|reflexivity]);
        exfalso; rewrite Hsep in Hd; try discriminate;
        (destruct seg as [|x seg']; [right; reflexivity|];
         destruct (x =? 13)%N; [left|right]; reflexivity).
    + destruct (lines_breaks_from [] s) as [|x1 l1] eqn:E1; [congruence|].
      destruct (lines_from [] s) as [|x2 l2] eqn:E2; [congruence|].
      rewrite !last_cons_cons. exact IH2.
Qed.

Lemma lines_from_app seg a b :
  lines_from seg (a ++ b)
  = removelast (lines_from seg a)
    ++ lines_from (rev (default [] (last (lines_from seg a)))) b.
Proof.
  revert seg. induction a as [|c a IH]; intros seg; cbn [app lines_from].
  - simpl. rewrite rev_involutive. reflexivity.
  - destruct (c =? 10)%N; [|apply IH].
    rewrite IH. pose proof (lines_from_nonempty [] a) as Hn.
    destruct (lines_from [] a) as [|x l]; [congruence|].
    cbn [removelast]. rewrite last_cons_cons. reflexivity.
Qed.

Lemma lines_from_no_break seg x :
  Forall (fun c => c <> 10%N) x -> lines_from seg x = [rev seg ++ x].
Proof.
  intros H. revert seg. induction H as [|c x Hc _ IH]; intros seg; cbn [lines_from].
  - rewrite app_nil_r. reflexivity.
  - apply N.eqb_neq in Hc. rewrite Hc, IH. simpl. rewrite <- app_assoc.
    reflexivity.
Qed.

Lemma lines_from_last_no_break seg s x :
  Forall (fun c => c <> 10%N) seg ->
  last (lines_from seg s) = Some x -> Forall (fun c => c <> 10%N) x.
Proof.
  revert seg. induction s as [|c s IH]; intros seg Hseg; cbn [lines_from].
  - intros [= <-]. apply Forall_rev. exact Hseg.
  - destruct (c =? 10)%N eqn:E.
    + pose proof (lines_from_nonempty [] s) as Hn.
      destruct (lines_from [] s) as [|y l] eqn:El; [congruence|].
      rewrite last_cons_cons, <- El. apply IH. constructor.
    + apply IH. constructor; [apply N.eqb_neq; exact E | exact Hseg].
Qed.

Lemma pending_line_no_break s : Forall (fun c => c <> 10%N) (pending_line s).
Proof.
  unfold pending_line. destruct (last (lines_from [] s)) as [x|] eqn:E.
  - apply (lines_from_last_no_break [] s x); [constructor | exact E].
  - constructor.
Qed.

(** Reading a text piece by piece: the complete lines of the whole are
    those of the first piece followed by those of the unfinished line
    with the second piece appended. *)
Lemma lines_from_stream T c :
  lines_from [] (T ++ c)
  = complete_lines T ++ lines_from [] (pending_line T ++ c).
Proof.
  rewrite lines_from_app. fold (complete_lines T). fold (pending_line T).
  f_equal. pose proof (pending_line_no_break T) as H.
  rewrite (lines_from_app [] (pending_line T) c).
  rewrite (lines_from_no_break [] _ H). reflexivity.
Qed.

Lemma removelast_app_nonempty {A : Type} (l1 l2 : list A) :
  l2 <> [] -> removelast (l1 ++ l2) = l1 ++ removelast l2.
Proof. intros H. apply removelast_app. exact H. Qed.

Lemma complete_lines_stream T c :
  complete_lines (T ++ c)
  = complete_lines T ++ complete_lines (pending_line T ++ c).
Proof.
  unfold complete_lines at 1. rewrite lines_from_stream.
  apply removelast_app_nonempty, lines_from_nonempty.
Qed.

Lemma pending_line_stream T c :
  pending_line (T ++ c) = pending_line (pending_line T ++ c).
Proof.
  unfold pending_line at 1. rewrite lines_from_stream.
  pose proof (lines_from_nonempty [] (pending_line T ++ c)) as Hn.
  unfold pending_line at 2.
  destruct (lines_from [] (pending_line T ++ c)) as [|x l] using rev_ind;
    [congruence|].
  rewrite app_assoc, !last_snoc. reflexivity.
Qed.

Lemma decode_app d a b :
  TextDecoder.decode d (a ++ b)
  = let '(d1, o1) := TextDecoder.decode d a in
    let '(d2, o2) := TextDecoder.decode d1 b in
    (d2, o1 ++ o2).
Proof.
  revert d. induction a as [|x a IH]; intros d; cbn [app TextDecoder.decode].
  - destruct (TextDecoder.decode d b). reflexivity.
  - destruct (TextDecoder.decode_byte d x) as [d1 o1]. rewrite IH.
    destruct (TextDecoder.decode d1 a) as [d2 o2].
    destruct (TextDecoder.decode d2 b) as [d3 o3].
    rewrite app_assoc. reflexivity.
Qed.

(** ** Well-formed event streams *)

Lemma settled_app l1 l2 : settled (l1 ++ l2) = true ->
  settled l1 = true /\ settled l2 = true.
Proof.
  induction l1 as [|x l1 IH]; [intros H; split; [reflexivity | exact H]|].
  cbn [app settled]. rewrite !andb_true_iff. intros [H1 H2].
  destruct (IH H2) as [H3 H4]. split; [|exact H4]. split; [|exact H3].
  destruct (is_done_line x); [|reflexivity].
  rewrite forallb_app in H1. apply andb_true_iff in H1. tauto.
Qed.

Lemma forallb_filter {A : Type} (p : A -> bool) (P : A -> Prop)
    `{!forall x, Decision (P x)} (l : list A) :
  forallb p l = true -> forallb p (filter P l) = true.
Proof.
  induction l as [|x l IH]; [reflexivity|]. cbn [forallb].
  rewrite andb_true_iff. intros [H1 H2]. rewrite filter_cons.
  destruct (decide (P x)); [|auto]. cbn [forallb]. rewrite H1. auto.
Qed.

Lemma settled_filter (P : jsstring -> Prop) `{!forall x, Decision (P x)} l :
  settled l = true -> settled (filter P l) = true.
Proof.
  induction l as [|x l IH]; [reflexivity|]. cbn [settled].
  rewrite andb_true_iff. intros [H1 H2]. rewrite filter_cons.
  destruct (decide (P x)); [|auto]. cbn [settled]. rewrite (IH H2), andb_true_r.
  destruct (is_done_line x); [|reflexivity]. apply forallb_filter. exact H1.
Qed.

(** A loop over settled lines whose body never throws does what a fold
    of the body does: the lines skipped after a [break] change
    nothing. *)
Lemma for_of_settled {S : Type} (body : jsstring -> S -> flow S)
    (P : S -> Prop) (lines : list jsstring) (s : S) :
  (forall x s, ignorable x = true -> body x s = Next s) ->
  (forall x s s', body x s = Break s' -> is_done_line x = true) ->
  (forall x s, P s -> match body x s with
                      | Next s' | Break s' => P s'
                      | Raise _ _ => False
                      end) ->
  P s -> settled lines = true ->
  let s' := foldl (fun s x => state_of (body x s)) s lines in
  P s' /\ (for_of body lines s = Next s' \/ for_of body lines s = Break s').
Proof.
  intros Hign Hbrk HP. revert s.
  induction lines as [|x l IH]; intros s Hs Hset; cbn [foldl for_of].
  - split; [exact Hs | left; reflexivity].
  - cbn [settled] in Hset. apply andb_true_iff in Hset. destruct Hset as [H1 H2].
    specialize (HP x s Hs). pose proof (Hbrk x s) as Hb.
    destruct (body x s) as [s1|s1|m s1]; cbn [state_of].
    + exact (IH s1 HP H2).
    + rewrite (Hb s1 eq_refl) in H1.
      assert (Hid : forall l s, forallb ignorable l = true ->
                foldl (fun s x => state_of (body x s)) s l = s).
      { clear -Hign. induction l as [|y l IH]; intros s H; [reflexivity|].
        cbn [forallb] in H. apply andb_true_iff in H. destruct H as [H1 H2].
        cbn [foldl]. rewrite (Hign y s H1). cbn [state_of]. apply IH. exact H2. }
      rewrite (Hid l s1 H1). split; [exact HP | right; reflexivity].
    + destruct HP.
Qed.

Lemma trim_start_nonblank s c :
  In c s -> is_space c = false -> trim_start s <> [].
Proof.
  induction s as [|x s IH]; intros Hin Hc; [destruct Hin|].
  cbn [trim_start]. destruct (is_space x) eqn:E; [|discriminate].
  destruct Hin as [->|Hin]; [congruence | exact (IH Hin Hc)].
Qed.

Lemma trim_start_incl s c : In c (trim_start s) -> In c s.
Proof.
  induction s as [|x s IH]; [intros []|].
  cbn [trim_start]. destruct (is_space x); [right; auto | auto].
Qed.

Lemma trim_start_keeps s c :
  In c s -> is_space c = false -> In c (trim_start s).
Proof.
  induction s as [|x s IH]; intros Hin Hc; [destruct Hin|].
  cbn [trim_start]. destruct (is_space x) eqn:E; [|exact Hin].
  destruct Hin as [->|Hin]; [congruence | exact (IH Hin Hc)].
Qed.

Lemma trim_nonblank s c :
  In c s -> is_space c = false -> truthy (JStr (trim s)) = true.
Proof.
  intros Hin Hc. unfold trim, trim_end.
  assert (H : trim_start (rev (trim_start s)) <> []).
  { apply (trim_start_nonblank _ c); [|exact Hc].
    apply in_rev. rewrite rev_involutive. apply trim_start_keeps; assumption. }
  destruct (trim_start (rev (trim_start s))) as [|x l] using rev_ind;
    [congruence|].
  rewrite rev_app_distr. reflexivity.
Qed.

Lemma data_line_nonblank p : truthy (JStr (trim (data_prefix ++ p))) = true.
Proof.
  apply (trim_nonblank _ 100%N); [left; reflexivity | reflexivity].
Qed.

Lemma replace_first_prefix pat rep s :
  starts_with pat s = true ->
  replace_first pat rep s = rep ++ drop (length pat) s.
Proof. intros H. destruct s; cbn [replace_first]; rewrite H; reflexivity. Qed.

Lemma data_line_payload p :
  trim (replace_first data_prefix [] (data_prefix ++ p)) = trim p.
Proof.
  rewrite replace_first_prefix by apply starts_with_app.
  rewrite drop_app_length. reflexivity.
Qed.

Lemma ignorable_not_done x : ignorable x = true -> is_done_line x = false.
Proof.
  unfold ignorable, is_done_line. intros H.
  destruct (truthy (JStr (trim x))); [|reflexivity].
  destruct (starts_with data_prefix x); [discriminate | reflexivity].
Qed.

Lemma well_formed_not_done l :
  well_formed l -> is_done_line (line_text l) = false.
Proof.
  destruct l as [p|s]; cbn [well_formed line_text].
  - intros H. unfold is_done_line.
    rewrite data_line_nonblank, starts_with_app, data_line_payload. simpl.
    unfold jsstring_eqb. apply bool_decide_eq_false. exact H.
  - apply ignorable_not_done.
Qed.

(** A well-formed stream is settled. *)
Lemma settled_stream body done tail :
  Forall well_formed body -> forallb ignorable tail = true ->
  settled (map line_text body ++ done :: tail) = true.
Proof.
  intros Hb Ht. induction Hb as [|l body Hl _ IH]; cbn [map app settled].
  - rewrite Ht. destruct (is_done_line done); cbn [andb].
    + clear -Ht. induction tail as [|x tail IH]; [reflexivity|].
      cbn [forallb settled] in *. apply andb_true_iff in Ht. destruct Ht as [H1 H2].
      rewrite (ignorable_not_done x H1), (IH H2). reflexivity.
    + clear -Ht. induction tail as [|x tail IH]; [reflexivity|].
      cbn [forallb settled] in *. apply andb_true_iff in Ht. destruct Ht as [H1 H2].
      rewrite (ignorable_not_done x H1), (IH H2). reflexivity.
  - rewrite (well_formed_not_done l Hl), IH. reflexivity.
Qed.

Section AppStream.

Variable marked_parse : jsstring -> jsstring.
Variable type_error_message : jsstring.
Variable chatIndex : Z.
Variable h : nat.

Local Abbreviation on_line :=
  (App.on_line marked_parse type_error_message chatIndex h h).
Local Abbreviation data_step := (data_step marked_parse chatIndex h).
Local Abbreviation feed :=
  (feed marked_parse type_error_message chatIndex h).

Lemma on_line_ignorable x s : ignorable x = true -> on_line x s = Next s.
Proof.
  unfold ignorable, App.on_line. intros H. destruct s as [raw w].
  destruct (truthy (JStr (trim x))); [|reflexivity]. cbn [negb orb] in *.
  apply negb_true_iff in H. rewrite H. reflexivity.
Qed.

Lemma on_line_break x s s' : on_line x s = Break s' -> is_done_line x = true.
Proof.
  unfold is_done_line, App.on_line. destruct s as [raw w].
  destruct (truthy (JStr (trim x))); [|discriminate]. cbn [negb].
  destruct (starts_with data_prefix x); [|discriminate].
  destruct (jsstring_eqb _ DONE); [reflexivity|].
  destruct (App.current_answer _ _); discriminate.
Qed.

Lemma current_answer_append text w a :
  App.current_answer chatIndex w = Some a ->
  App.current_answer chatIndex (App.append_answer chatIndex text w)
  = Some (a ++ text).
Proof.
  unfold App.current_answer, App.append_answer. intros H.
  destruct (App.chats w !! App.currentChatId w) as [c|] eqn:Ec; [|discriminate].
  cbn in H. destruct (App.at_index (App.messages c) chatIndex) as [e|] eqn:Ee;
    [|discriminate].
  cbn in H. injection H as <-. cbn.
  rewrite lookup_insert_eq. cbn. unfold App.at_index in *.
  destruct (chatIndex <? 0)%Z; [discriminate|].
  rewrite list_lookup_insert_eq by (apply lookup_lt_Some in Ee; exact Ee).
  reflexivity.
Qed.

Lemma on_line_data p raw w a :
  trim p <> DONE ->
  App.current_answer chatIndex w = Some a ->
  on_line (data_prefix ++ p) (raw, w)
  = Next (raw ++ trim p ++ [chLF],
          data_step (raw ++ trim p ++ [chLF]) (trim p ++ [chLF]) w).
Proof.
  intros Hp Ha. unfold App.on_line, data_step.
  rewrite data_line_nonblank, starts_with_app, data_line_payload. cbn [negb].
  unfold jsstring_eqb. rewrite bool_decide_eq_false_2 by exact Hp.
  set (w1 := App.set_ui _ w).
  assert (H1 : App.current_answer chatIndex w1 = Some a) by exact Ha.
  rewrite (current_answer_append _ w1 a H1). reflexivity.
Qed.

Lemma data_step_answer raw t w a :
  App.current_answer chatIndex w = Some a ->
  App.current_answer chatIndex (data_step raw t w) = Some (a ++ t).
Proof.
  intros Ha. unfold data_step.
  set (w1 := App.set_ui _ w).
  assert (H1 : App.current_answer chatIndex w1 = Some a) by exact Ha.
  rewrite (current_answer_append t w1 a H1).
  exact (current_answer_append t w1 a H1).
Qed.

Lemma data_step_window raw t w a :
  App.current_answer chatIndex w = Some a ->
  chatWindow (App.ui (data_step raw t w))
  = alter (fun n => set_html (marked_parse (a ++ t)) (set_raw raw n)) h
          (chatWindow (App.ui w)).
Proof.
  intros Ha. unfold data_step.
  set (w1 := App.set_ui _ w).
  assert (H1 : App.current_answer chatIndex w1 = Some a) by exact Ha.
  rewrite (current_answer_append t w1 a H1). cbn.
  assert (Hu : App.ui (App.append_answer chatIndex t w1) = App.ui w1).
  { unfold App.append_answer. destruct (App.chats w1 !! App.currentChatId w1);
      [|reflexivity]. destruct (App.at_index _ _); reflexivity. }
  rewrite Hu. cbn. rewrite list_alter_alter_eq. reflexivity.
Qed.

Lemma on_line_safe x raw w :
  is_Some (App.current_answer chatIndex w) ->
  match on_line x (raw, w) with
  | Next (_, w') | Break (_, w') => is_Some (App.current_answer chatIndex w')
  | Raise _ _ => False
  end.
Proof.
  intros [a Ha]. unfold App.on_line.
  destruct (negb (truthy (JStr (trim x)))); [eauto|].
  destruct (starts_with data_prefix x); [|eauto].
  destruct (jsstring_eqb _ DONE); [exists a; exact Ha|].
  set (w1 := App.set_ui _ w).
  assert (H1 : App.current_answer chatIndex w1 = Some a) by exact Ha.
  rewrite (current_answer_append _ w1 a H1). eexists.
  exact (current_answer_append _ w1 a H1).
Qed.

Lemma pop_lines buffer :
  pop (lines_from [] buffer) = (complete_lines buffer, pending_line buffer).
Proof. reflexivity. Qed.

Lemma on_chunk_settled value l w :
  is_Some (App.current_answer chatIndex w) ->
  settled (complete_lines
             (App.partialChunk l
              ++ snd (TextDecoder.decode (App.decoder l) value))) = true ->
  let d' := fst (TextDecoder.decode (App.decoder l) value) in
  let buffer := App.partialChunk l
                ++ snd (TextDecoder.decode (App.decoder l) value) in
  let s' := foldl (fun s x => feed x s) (App.rawText l, w)
                  (complete_lines buffer) in
  App.on_chunk marked_parse type_error_message chatIndex h h value l w
  = Next (App.Locals d' (pending_line buffer) (fst s'), snd s')
  /\ is_Some (App.current_answer chatIndex (snd s')).
Proof.
  intros Hv Hs. unfold App.on_chunk.
  destruct (TextDecoder.decode (App.decoder l) value) as [d chunk].
  cbn [fst snd] in *. rewrite split_newline, pop_lines.
  destruct (for_of_settled on_line
              (fun s => is_Some (App.current_answer chatIndex (snd s)))
              (complete_lines (App.partialChunk l ++ chunk)) (App.rawText l, w))
    as [HP Hf].
  - apply on_line_ignorable.
  - apply on_line_break.
  - intros x [raw w0] H0. cbn [snd] in H0.
    pose proof (on_line_safe x raw w0 H0) as H1.
    destruct (on_line x (raw, w0)) as [[r1 w1]|[r1 w1]|m [r1 w1]]; exact H1.
  - exact Hv.
  - exact Hs.
  - fold (feed) in Hf.
    change (fun s x => state_of (on_line x s)) with (fun s x => feed x s) in *.
    split; [|exact HP].
    destruct (foldl (fun s x => feed x s) (App.rawText l, w)
                (complete_lines (App.partialChunk l ++ chunk))) as [raw' w'].
    destruct Hf as [-> | ->]; reflexivity.
Qed.

Lemma complete_lines_no_break x :
  Forall (fun c => c <> 10%N) x -> complete_lines x = [] /\ pending_line x = x.
Proof.
  intros H. unfold complete_lines, pending_line.
  rewrite (lines_from_no_break [] x H). split; reflexivity.
Qed.

Lemma read_loop_settled chunks l w :
  is_Some (App.current_answer chatIndex w) ->
  Forall (fun c => c <> 10%N) (App.partialChunk l) ->
  settled (complete_lines
             (App.partialChunk l
              ++ snd (TextDecoder.decode (App.decoder l) (concat chunks))))
  = true ->
  let d' := fst (TextDecoder.decode (App.decoder l) (concat chunks)) in
  let buffer := App.partialChunk l
                ++ snd (TextDecoder.decode (App.decoder l) (concat chunks)) in
  let s' := foldl (fun s x => feed x s) (App.rawText l, w)
                  (complete_lines buffer) in
  App.read_loop marked_parse type_error_message chatIndex h h
    (map Chunk chunks) l w
  = Normal (App.Locals d' (pending_line buffer) (fst s'), snd s').
Proof.
  revert l w. induction chunks as [|c cs IH]; intros l w Hv Hp Hs.
  - cbn [concat TextDecoder.decode fst snd map App.read_loop] in *.
    rewrite app_nil_r in *.
    destruct (complete_lines_no_break _ Hp) as [-> ->]. destruct l; reflexivity.
  - cbn [concat map App.read_loop] in *. rewrite decode_app in Hs |- *.
    pose proof (on_chunk_settled c l w Hv) as Hc.
    destruct (TextDecoder.decode (App.decoder l) c) as [d1 o1] eqn:E1.
    destruct (TextDecoder.decode d1 (concat cs)) as [d2 o2] eqn:E2.
    cbn [fst snd] in *.
    rewrite app_assoc, (complete_lines_stream (App.partialChunk l ++ o1) o2) in Hs.
    apply settled_app in Hs. destruct Hs as [Hs1 Hs2].
    destruct (Hc Hs1) as [Hc1 Hv1]. clear Hc.
    rewrite Hc1.
    rewrite (app_assoc (App.partialChunk l) o1 o2).
    rewrite (complete_lines_stream (App.partialChunk l ++ o1) o2),
      (pending_line_stream (App.partialChunk l ++ o1) o2), foldl_app.
    destruct (foldl (fun s x => feed x s) (App.rawText l, w)
                (complete_lines (App.partialChunk l ++ o1))) as [r1 w1].
    cbn [fst snd] in *.
    pose proof (IH (App.Locals d1 (pending_line (App.partialChunk l ++ o1)) r1)
                   w1 Hv1 (pending_line_no_break _)) as IH'.
    cbn [App.decoder App.partialChunk App.rawText] in IH'.
    rewrite E2 in IH'. cbn [fst snd] in IH'. exact (IH' Hs2).
Qed.

Lemma alter_again (H1 H2 R1 R2 : jsstring) (cw : list node) :
  alter (fun n => set_html H2 (set_raw R2 n)) h
        (alter (fun n => set_html H1 (set_raw R1 n)) h cw)
  = alter (fun n => set_html H2 (set_raw R2 n)) h cw.
Proof.
  rewrite list_alter_alter_eq. apply list_alter_ext; [|reflexivity].
  intros n _. destruct n; reflexivity.
Qed.

(** The fold over the lines before the [DONE] line. *)
Lemma fold_body body raw w a :
  Forall well_formed body ->
  App.current_answer chatIndex w = Some a ->
  let s' := foldl (fun s x => feed x s) (raw, w) (map line_text body) in
  let text := payload_text (payloads body) in
  fst s' = raw ++ text /\
  App.current_answer chatIndex (snd s') = Some (a ++ text) /\
  chatWindow (App.ui (snd s'))
  = match payloads body with
    | [] => chatWindow (App.ui w)
    | _ :: _ =>
        alter (fun n => set_html (marked_parse (a ++ text))
                                 (set_raw (raw ++ text) n)) h
              (chatWindow (App.ui w))
    end.
Proof.
  intros Hb. revert raw w a.
  induction Hb as [|l body Hl _ IH]; intros raw w a Ha; cbn [map foldl].
  - cbn. rewrite !app_nil_r. auto.
  - destruct l as [p|s]; cbn [line_text well_formed payloads] in *.
    + assert (Hf : feed (data_prefix ++ p) (raw, w)
                   = (raw ++ trim p ++ [chLF],
                      data_step (raw ++ trim p ++ [chLF]) (trim p ++ [chLF]) w)).
      { unfold feed. rewrite (on_line_data p raw w a Hl Ha). reflexivity. }
      rewrite !Hf.
      pose proof (data_step_answer (raw ++ trim p ++ [chLF]) (trim p ++ [chLF])
                    w a Ha) as Ha1.
      pose proof (data_step_window (raw ++ trim p ++ [chLF]) (trim p ++ [chLF])
                    w a Ha) as Hw1.
      destruct (IH (raw ++ trim p ++ [chLF]) _ _ Ha1) as (I1 & I2 & I3).
      cbv zeta. unfold payload_text in *. cbn [flat_map].
      split; [|split].
      * rewrite I1, <- !app_assoc. reflexivity.
      * rewrite I2, <- !app_assoc. reflexivity.
      * rewrite I3, Hw1. destruct (payloads body) as [|q qs].
        -- cbn [flat_map]. rewrite !app_nil_r. reflexivity.
        -- rewrite alter_again, <- !app_assoc. reflexivity.
    + assert (Hf : feed s (raw, w) = (raw, w)).
      { unfold feed. rewrite (on_line_ignorable s (raw, w) Hl). reflexivity. }
      rewrite !Hf. exact (IH raw w a Ha).
Qed.

Lemma fold_ignorable tail s :
  forallb ignorable tail = true -> foldl (fun s x => feed x s) s tail = s.
Proof.
  revert s. induction tail as [|x tail IH]; intros s H; [reflexivity|].
  cbn [forallb] in H. apply andb_true_iff in H. destruct H as [H1 H2].
  cbn [foldl]. unfold feed at 2. rewrite (on_line_ignorable x s H1).
  cbn [state_of]. exact (IH s H2).
Qed.

Lemma on_line_done d raw w :
  trim d = DONE ->
  on_line (data_prefix ++ d) (raw, w)
  = Break (raw, App.set_ui (set_chatWindow (remove_cursor (chatWindow (App.ui w)))
                                           (App.ui w)) w).
Proof.
  intros Hd. unfold App.on_line.
  rewrite data_line_nonblank, starts_with_app, data_line_payload, Hd.
  reflexivity.
Qed.

(** The loop on a well-formed stream, however it is cut into chunks. *)
Lemma read_loop_stream chunks body d tail w a :
  complete_lines (snd (TextDecoder.decode TextDecoder.create (concat chunks)))
  = map line_text body ++ (data_prefix ++ d) :: tail ->
  Forall well_formed body -> trim d = DONE ->
  forallb ignorable tail = true ->
  App.current_answer chatIndex w = Some a ->
  exists l' w',
    App.read_loop marked_parse type_error_message chatIndex h h
      (map Chunk chunks) (App.Locals TextDecoder.create [] []) w
    = Normal (l', w') /\
    App.rawText l' = payload_text (payloads body) /\
    App.current_answer chatIndex w' = Some (a ++ payload_text (payloads body)) /\
    chatWindow (App.ui w')
    = remove_cursor
        match payloads body with
        | [] => chatWindow (App.ui w)
        | _ :: _ =>
            alter (fun n => set_html (marked_parse (a ++ payload_text (payloads body)))
                                     (set_raw (payload_text (payloads body)) n)) h
                  (chatWindow (App.ui w))
        end.
Proof.
  intros Ht Hb Hd Hign Ha.
  pose proof (read_loop_settled chunks (App.Locals TextDecoder.create [] []) w
                (ex_intro _ a Ha) (List.Forall_nil _)) as H.
  cbn [App.partialChunk App.decoder App.rawText app] in H.
  rewrite Ht in H. specialize (H (settled_stream body _ tail Hb Hign)).
  rewrite foldl_app in H. cbn [foldl] in H.
  destruct (fold_body body [] w a Hb Ha) as (F1 & F2 & F3).
  destruct (foldl (fun s x => feed x s) ([], w) (map line_text body))
    as [r1 w1]. cbn [fst snd] in F1, F2, F3.
  assert (Hf : feed (data_prefix ++ d) (r1, w1)
               = (r1, App.set_ui (set_chatWindow
                                    (remove_cursor (chatWindow (App.ui w1)))
                                    (App.ui w1)) w1)).
  { unfold feed. rewrite (on_line_done d r1 w1 Hd). reflexivity. }
  rewrite Hf, (fold_ignorable tail _ Hign) in H. cbn [fst snd] in H.
  eexists _, _. split; [exact H|]. cbn [App.rawText].
  split; [exact F1|]. split; [exact F2|]. cbn. rewrite F3.
  destruct (payloads body); reflexivity.
Qed.

End AppStream.

Lemma foldl_filter_noop {A S : Type} (f : S -> A -> S) (P : A -> Prop)
    `{!forall x, Decision (P x)} (l : list A) (s : S) :
  (forall x s, ~ P x -> f s x = s) ->
  foldl f s (filter P l) = foldl f s l.
Proof.
  intros Hnoop. revert s. induction l as [|x l IH]; intros s; [reflexivity|].
  rewrite filter_cons. destruct (decide (P x)) as [Hx|Hx]; cbn [foldl].
  - apply IH.
  - rewrite (Hnoop x s Hx). apply IH.
Qed.

Lemma data_prefix_nonblank x :
  starts_with data_prefix x = true -> truthy (JStr (trim x)) = true.
Proof.
  intros H. apply starts_with_spec in H. destruct H as [p ->].
  apply data_line_nonblank.
Qed.

Section BasicStream.

Variable h : nat.

Local Abbreviation on_line := (Basic.on_line h h).
Local Abbreviation basic_feed := (basic_feed h).

Lemma basic_on_line_ignorable x s : ignorable x = true -> on_line x s = Next s.
Proof.
  unfold ignorable, Basic.on_line. intros H. destruct s as [raw p].
  destruct (starts_with data_prefix x) eqn:E; [|reflexivity].
  rewrite (data_prefix_nonblank x E) in H. discriminate.
Qed.

Lemma basic_on_line_break x s s' :
  on_line x s = Break s' -> is_done_line x = true.
Proof.
  unfold is_done_line, Basic.on_line. destruct s as [raw p].
  destruct (starts_with data_prefix x) eqn:E; [|discriminate].
  rewrite (data_prefix_nonblank x E).
  destruct (jsstring_eqb _ DONE); [reflexivity | discriminate].
Qed.

Lemma basic_on_line_total x s :
  match on_line x s with
  | Next _ | Break _ => True
  | Raise _ _ => False
  end.
Proof.
  unfold Basic.on_line. destruct s as [raw p].
  destruct (starts_with data_prefix x); [|exact I].
  destruct (jsstring_eqb _ DONE); exact I.
Qed.

Lemma basic_on_chunk_settled value l p :
  settled (complete_lines
             (Basic.partialChunk l
              ++ snd (TextDecoder.decode (Basic.decoder l) value))) = true ->
  let d' := fst (TextDecoder.decode (Basic.decoder l) value) in
  let buffer := Basic.partialChunk l
                ++ snd (TextDecoder.decode (Basic.decoder l) value) in
  let s' := foldl (fun s x => basic_feed x s) (Basic.rawText l, p)
                  (complete_lines buffer) in
  Basic.on_chunk h h value l p
  = Next (Basic.Locals d' (pending_line buffer) (fst s'), snd s').
Proof.
  intros Hs. unfold Basic.on_chunk.
  destruct (TextDecoder.decode (Basic.decoder l) value) as [d chunk].
  cbn [fst snd] in *. rewrite split_newline_captured. unfold pop.
  destruct (lines_breaks_filter [] (Basic.partialChunk l ++ chunk)) as [Hf Hl].
  rewrite Hf, Hl. fold (complete_lines (Basic.partialChunk l ++ chunk)).
  fold (pending_line (Basic.partialChunk l ++ chunk)).
  destruct (for_of_settled on_line (fun _ => True)
              (filter (fun ln => truthy (JStr (trim ln)) = true)
                      (complete_lines (Basic.partialChunk l ++ chunk)))
              (Basic.rawText l, p)) as [_ Hfo].
  - apply basic_on_line_ignorable.
  - apply basic_on_line_break.
  - intros x s _. pose proof (basic_on_line_total x s) as H.
    destruct (on_line x s); exact H.
  - exact I.
  - apply settled_filter. exact Hs.
  - change (fun s x => state_of (on_line x s))
      with (fun s x => basic_feed x s) in Hfo.
    rewrite foldl_filter_noop in Hfo.
    + destruct (foldl (fun s x => basic_feed x s) (Basic.rawText l, p)
                  (complete_lines (Basic.partialChunk l ++ chunk))) as [raw' p'].
      destruct Hfo as [-> | ->]; reflexivity.
    + intros x s Hx. unfold basic_feed.
      rewrite basic_on_line_ignorable; [reflexivity|].
      unfold ignorable. destruct (truthy (JStr (trim x))); [congruence|].
      reflexivity.
Qed.

Lemma basic_read_loop_settled chunks l p :
  Forall (fun c => c <> 10%N) (Basic.partialChunk l) ->
  settled (complete_lines
             (Basic.partialChunk l
              ++ snd (TextDecoder.decode (Basic.decoder l) (concat chunks))))
  = true ->
  let d' := fst (TextDecoder.decode (Basic.decoder l) (concat chunks)) in
  let buffer := Basic.partialChunk l
                ++ snd (TextDecoder.decode (Basic.decoder l) (concat chunks)) in
  let s' := foldl (fun s x => basic_feed x s) (Basic.rawText l, p)
                  (complete_lines buffer) in
  Basic.read_loop h h (map Chunk chunks) l p
  = Normal (Basic.Locals d' (pending_line buffer) (fst s'), snd s').
Proof.
  revert l p. induction chunks as [|c cs IH]; intros l p Hp Hs.
  - cbn [concat TextDecoder.decode fst snd map Basic.read_loop] in *.
    rewrite app_nil_r in *.
    destruct (complete_lines_no_break _ Hp) as [-> ->]. destruct l; reflexivity.
  - cbn [concat map Basic.read_loop] in *. rewrite decode_app in Hs |- *.
    pose proof (basic_on_chunk_settled c l p) as Hc.
    destruct (TextDecoder.decode (Basic.decoder l) c) as [d1 o1] eqn:E1.
    destruct (TextDecoder.decode d1 (concat cs)) as [d2 o2] eqn:E2.
    cbn [fst snd] in *.
    rewrite app_assoc, (complete_lines_stream (Basic.partialChunk l ++ o1) o2) in Hs.
    apply settled_app in Hs. destruct Hs as [Hs1 Hs2].
    rewrite (Hc Hs1). clear Hc.
    rewrite (app_assoc (Basic.partialChunk l) o1 o2).
    rewrite (complete_lines_stream (Basic.partialChunk l ++ o1) o2),
      (pending_line_stream (Basic.partialChunk l ++ o1) o2), foldl_app.
    destruct (foldl (fun s x => basic_feed x s) (Basic.rawText l, p)
                (complete_lines (Basic.partialChunk l ++ o1))) as [r1 p1].
    cbn [fst snd] in *.
    pose proof (IH (Basic.Locals d1 (pending_line (Basic.partialChunk l ++ o1)) r1)
                   p1 (pending_line_no_break _)) as IH'.
    cbn [Basic.decoder Basic.partialChunk Basic.rawText] in IH'.
    rewrite E2 in IH'. cbn [fst snd] in IH'. exact (IH' Hs2).
Qed.

Lemma basic_feed_data p0 raw p :
  trim p0 <> DONE ->
  basic_feed (data_prefix ++ p0) (raw, p)
  = (raw ++ trim p0 ++ [chLF],
     set_chatWindow (alter (basic_show (raw ++ trim p0 ++ [chLF])) h (chatWindow p)) p).
Proof.
  intros Hp. unfold basic_feed, Basic.on_line.
  rewrite starts_with_app, data_line_payload.
  unfold jsstring_eqb. rewrite bool_decide_eq_false_2 by exact Hp.
  cbn [state_of]. f_equal. destruct p. unfold set_chatWindow.
  cbn [chatWindow userInput alerts requests console].
  rewrite list_alter_alter_eq. reflexivity.
Qed.

Lemma basic_show_again r1 r2 (cw : list node) :
  alter (basic_show r2) h (alter (basic_show r1) h cw) = alter (basic_show r2) h cw.
Proof.
  rewrite list_alter_alter_eq. apply list_alter_ext; [|reflexivity].
  intros n _. destruct n; reflexivity.
Qed.

Lemma basic_fold_body body raw p :
  Forall well_formed body ->
  foldl (fun s x => basic_feed x s) (raw, p) (map line_text body)
  = (raw ++ payload_text (payloads body),
     match payloads body with
     | [] => p
     | _ :: _ =>
         set_chatWindow
           (alter (basic_show (raw ++ payload_text (payloads body))) h
                  (chatWindow p)) p
     end).
Proof.
  intros Hb. revert raw p.
  induction Hb as [|l body Hl _ IH]; intros raw p; cbn [map foldl].
  - cbn. rewrite app_nil_r. reflexivity.
  - destruct l as [p0|s]; cbn [line_text well_formed payloads] in *.
    + rewrite (basic_feed_data p0 raw p Hl), IH.
      unfold payload_text. cbn [flat_map]. rewrite <- !app_assoc. f_equal.
      destruct (payloads body) as [|q qs].
      * cbn [flat_map]. rewrite !app_nil_r. reflexivity.
      * destruct p. unfold set_chatWindow.
        cbn [chatWindow userInput alerts requests console].
        rewrite basic_show_again. reflexivity.
    + assert (Hf : basic_feed s (raw, p) = (raw, p)).
      { unfold basic_feed. rewrite (basic_on_line_ignorable s (raw, p) Hl).
        reflexivity. }
      rewrite Hf. apply IH.
Qed.

Lemma basic_fold_ignorable tail s :
  forallb ignorable tail = true -> foldl (fun s x => basic_feed x s) s tail = s.
Proof.
  revert s. induction tail as [|x tail IH]; intros s H; [reflexivity|].
  cbn [forallb] in H. apply andb_true_iff in H. destruct H as [H1 H2].
  cbn [foldl]. unfold basic_feed at 2. rewrite (basic_on_line_ignorable x s H1).
  cbn [state_of]. exact (IH s H2).
Qed.

Lemma basic_read_loop_stream chunks body d tail p :
  complete_lines (snd (TextDecoder.decode TextDecoder.create (concat chunks)))
  = map line_text body ++ (data_prefix ++ d) :: tail ->
  Forall well_formed body -> trim d = DONE ->
  forallb ignorable tail = true ->
  exists l',
    Basic.read_loop h h (map Chunk chunks)
      (Basic.Locals TextDecoder.create [] []) p
    = Normal (l', match payloads body with
                  | [] => p
                  | _ :: _ =>
                      set_chatWindow
                        (alter (basic_show (payload_text (payloads body))) h
                               (chatWindow p)) p
                  end) /\
    Basic.rawText l' = payload_text (payloads body).
Proof.
  intros Ht Hb Hd Hign.
  pose proof (basic_read_loop_settled chunks
                (Basic.Locals TextDecoder.create [] []) p (List.Forall_nil _)) as H.
  cbn [Basic.partialChunk Basic.decoder Basic.rawText app] in H.
  rewrite Ht in H. specialize (H (settled_stream body _ tail Hb Hign)).
  rewrite foldl_app in H. cbn [foldl] in H.
  rewrite (basic_fold_body body [] p Hb) in H. cbn [app] in H.
  assert (Hf : forall s, basic_feed (data_prefix ++ d) s = s).
  { intros [r1 p1]. unfold basic_feed, Basic.on_line.
    rewrite starts_with_app, data_line_payload, Hd. reflexivity. }
  rewrite Hf, (basic_fold_ignorable tail _ Hign) in H. cbn [fst snd] in H.
  eexists. split; [exact H | reflexivity].
Qed.

End BasicStream.




(** C5, as stated, fails: for the stream of the scenario the stored
    answer of the multi-chat client and the content shown by the
    single-chat client are not the text "Hi there". *)
Lemma scenario_answer_is_not_hi_there :
  ~ (App.answer <$>
       (App.chats
          (App.sendMessage (fun x => x) [] (Response true [] scenario_body)
             (loaded (fun x => x) (lit "c1") (lit "m1") (lit "Hello")))
          !! lit "c1" ≫= fun c => last (App.messages c))
     = Some (lit "Hi there")) /\
  ~ (get_html <$>
       last (chatWindow
               (Basic.ui
                  (Basic.sendMessage (Response true [] scenario_body)
                     (Basic.World (JStr (lit "m1"))
                                  (Page (lit "Hello") [] [] [] [])))))
     = Some (lit "Hi there")).
Proof. split; intros H; vm_compute in H; discriminate H. Qed.

Lemma remove_cursor_clean ns :
  Forall (fun n => has_cursor n = false) ns -> remove_cursor ns = ns.
Proof.
  induction 1 as [|n ns Hn _ IH]; [reflexivity|].
  destruct n as [cls body|html [|] raw]; cbn [remove_cursor];
    [rewrite IH; reflexivity | discriminate | rewrite IH; reflexivity].
Qed.

Lemma remove_cursor_app_clean ns ms :
  Forall (fun n => has_cursor n = false) ns ->
  remove_cursor (ns ++ ms) = ns ++ remove_cursor ms.
Proof.
  induction 1 as [|n ns Hn _ IH]; [reflexivity|].
  destruct n as [cls body|html [|] raw]; cbn [remove_cursor app];
    [rewrite IH; reflexivity | discriminate | rewrite IH; reflexivity].
Qed.

Lemma at_index_last {A : Type} (l : list A) (x : A) :
  App.at_index (l ++ [x]) (Z.of_nat (length (l ++ [x])) - 1) = Some x.
Proof.
  unfold App.at_index. rewrite length_app. cbn [length].
  replace (Z.of_nat (length l + 1) - 1)%Z with (Z.of_nat (length l)) by lia.
  replace (Z.of_nat (length l) <? 0)%Z with false
    by (symmetry; apply Z.ltb_ge; lia).
  rewrite Nat2Z.id. apply list_lookup_middle. reflexivity.
Qed.

Lemma scenario_lines :
  complete_lines (snd (TextDecoder.decode TextDecoder.create
                         (concat scenario_chunks)))
  = map line_text [Data (lit "Hi"); Other []; Data (lit " there"); Other []]
    ++ (data_prefix ++ lit "[DONE]") :: [[]].
Proof. vm_compute. reflexivity. Qed.

Lemma scenario_well_formed :
  Forall well_formed [Data (lit "Hi"); Other []; Data (lit " there"); Other []].
Proof. repeat constructor; vm_compute; discriminate. Qed.

Lemma scenario_payload_text :
  payload_text (payloads [Data (lit "Hi"); Other []; Data (lit " there"); Other []])
  = scenario_answer.
Proof. vm_compute. reflexivity. Qed.

Lemma sending_window marked_parse w :
  chatWindow (App.ui (sending marked_parse w))
  = chatWindow (App.ui w)
    ++ [Message (lit "message user") (Text (trim (userInput (App.ui w))));
        Streaming [] true []].
Proof.
  unfold sending, createAssistantMessageElements, App.addMessageToChat,
    appendChild. cbn [fst App.ui App.set_ui chatWindow set_chatWindow
                      set_userInput fetch App.push_exchange App.set_chats].
  rewrite <- app_assoc. reflexivity.
Qed.

Lemma basic_sendMessage_unfold reply b :
  truthy (JStr (trim (userInput (Basic.ui b)))) = true ->
  truthy (Basic.selectedModel b) = true ->
  Basic.sendMessage reply b
  = match match reply with
          | Rejected m => Thrown m (basic_sending b)
          | Response false statusText _ => Thrown statusText (basic_sending b)
          | Response true _ body =>
              Basic.processStreamResponse body
                (S (length (chatWindow (Basic.ui b))))
                (S (length (chatWindow (Basic.ui b)))) (basic_sending b)
          end with
    | Normal p' => Basic.World (Basic.selectedModel b) p'
    | Thrown m p' =>
        Basic.World (Basic.selectedModel b) (Basic.handleStreamError m p')
    end.
Proof.
  intros Hp Hm. unfold Basic.sendMessage. rewrite Hp, Hm.
  cbn [negb orb]. cbv iota.
  unfold createAssistantMessageElements, basic_sending.
  cbv beta iota zeta.
  assert (Hlen : length (chatWindow
                   (set_userInput []
                      (Basic.addMessageToChat (lit "user")
                         (trim (userInput (Basic.ui b))) false (Basic.ui b))))
                 = S (length (chatWindow (Basic.ui b)))).
  { unfold Basic.addMessageToChat, appendChild.
    cbn [set_userInput chatWindow set_chatWindow].
    rewrite length_app. cbn [length]. lia. }
  rewrite Hlen. reflexivity.
Qed.

Lemma basic_sending_window b :
  chatWindow (basic_sending b)
  = chatWindow (Basic.ui b)
    ++ [Message (lit "message user ")
          (Html (formatMarkdown
                   (escapeHtml (JStr (trim (userInput (Basic.ui b)))))));
        Streaming [] true []].
Proof.
  unfold basic_sending, Basic.addMessageToChat, appendChild.
  cbn [fetch chatWindow set_chatWindow set_userInput].
  rewrite <- app_assoc. reflexivity.
Qed.

Lemma scenario_rendered :
  formatMarkdown (escapeHtml (JStr scenario_answer)) = scenario_answer.
Proof. vm_compute. reflexivity. Qed.

(** C5, amended. For the stream of the scenario, sent in answer to a
    prompt with a model selected and no cursor left over in the chat
    window, the answer stored and shown is "Hi", a line feed, "there"
    and a line feed (each payload trimmed and followed by a line feed),
    and the streaming cursor is gone.  The multi-chat client shows what
    [marked.parse] makes of the answer, the single-chat client the answer
    itself.  In the multi-chat client the cursor is looked up by its
    class in the whole document, among markup that was not escaped: the
    statement is for a chat window, and an answer as [marked.parse]
    returns it, whose tags carry no attributes, so that the cursor is
    the only element of class streaming. *)
Theorem scenario_streamed_answer
    (marked_parse : jsstring -> jsstring) (type_error_message : jsstring)
    (statusText : jsstring) (w : App.world) (b : Basic.world) :
  (truthy (JStr (trim (userInput (App.ui w)))) = true ->
   truthy (App.selectedModel w) = true ->
   Forall (fun n => has_cursor n = false) (chatWindow (App.ui w)) ->
   forallb plain_node (chatWindow (App.ui w)) = true ->
   bare_markup (marked_parse scenario_answer) = true ->
   let prompt := trim (userInput (App.ui w)) in
   let w' := App.sendMessage marked_parse type_error_message
               (Response true statusText scenario_body) w in
   (exists c', App.chats w' !! App.currentChatId w = Some c' /\
               last (App.messages c') = Some (App.Exchange prompt scenario_answer)) /\
   chatWindow (App.ui w')
   = chatWindow (App.ui w)
     ++ [Message (lit "message user") (Text prompt);
         Streaming (marked_parse scenario_answer) false scenario_answer]) /\
  (truthy (JStr (trim (userInput (Basic.ui b)))) = true ->
   truthy (Basic.selectedModel b) = true ->
   Forall (fun n => has_cursor n = false) (chatWindow (Basic.ui b)) ->
   let prompt := trim (userInput (Basic.ui b)) in
   let b' := Basic.sendMessage (Response true statusText scenario_body) b in
   chatWindow (Basic.ui b')
   = chatWindow (Basic.ui b)
     ++ [Message (lit "message user ")
                 (Html (formatMarkdown (escapeHtml (JStr prompt))));
         Streaming scenario_answer false scenario_answer]).
Proof.
  split.
  - intros Hp Hm Hcw _ _ prompt w'. subst w'.
    rewrite (sendMessage_unfold marked_parse type_error_message _ w Hp Hm).
    unfold App.processStreamResponse.
    change (App.currentChatId (sending marked_parse w)) with (App.currentChatId w).
    change (App.chats (sending marked_parse w))
      with (App.chats (App.push_exchange prompt w)).
    rewrite push_exchange_current.
    set (c0 := default (App.Chat (lit "Unnamed Chat") [])
                       (App.chats w !! App.currentChatId w)).
    cbn [App.messages].
    set (chatIndex := (Z.of_nat (length (App.messages c0 ++ [App.Exchange prompt []]))
                       - 1)%Z).
    assert (Ha : App.current_answer chatIndex (sending marked_parse w) = Some []).
    { unfold App.current_answer.
      change (App.currentChatId (sending marked_parse w))
        with (App.currentChatId w).
      change (App.chats (sending marked_parse w))
        with (App.chats (App.push_exchange prompt w)).
      rewrite push_exchange_current. fold c0. cbn [mbind option_bind App.messages].
      unfold chatIndex. rewrite at_index_last. reflexivity. }
    destruct (read_loop_stream marked_parse type_error_message chatIndex
                (stream_handle w) scenario_chunks _ _ _ (sending marked_parse w) []
                scenario_lines scenario_well_formed eq_refl eq_refl Ha)
      as (l' & w2 & Hr & _ & Hans & Hwin).
    fold scenario_body in Hr.
    pose proof (frame_read_loop marked_parse type_error_message chatIndex
                  (stream_handle w) (stream_handle w) scenario_body
                  (App.Locals TextDecoder.create [] []) (sending marked_parse w))
      as F.
    rewrite Hr in F |- *. clear Hr.
    rewrite scenario_payload_text in Hans, Hwin. cbn [app] in Hans.
    cbn [App.set_ui App.ui App.chats set_chatWindow chatWindow].
    assert (Hwin' : chatWindow (App.ui w2)
                    = chatWindow (App.ui w)
                      ++ [Message (lit "message user") (Text prompt);
                          Streaming (marked_parse scenario_answer) false
                                    scenario_answer]).
    { rewrite Hwin. unfold scenario_answer at 1. cbn [app lit payloads].
      change (match _ with [] => _ | _ :: _ => ?x end) with x.
      rewrite sending_window. unfold stream_handle.
      replace (S (length (chatWindow (App.ui w))))
        with (length (chatWindow (App.ui w)) + 1) by lia.
      rewrite alter_app_r. cbn [alter list_alter set_html set_raw].
      rewrite (remove_cursor_app_clean _ _ Hcw). reflexivity. }
    split.
    + destruct F as (F1 & _ & F3 & _).
      specialize (F3 (App.currentChatId w)).
      change (App.chats (sending marked_parse w))
        with (App.chats (App.push_exchange prompt w)) in F3.
      rewrite push_exchange_current in F3. fold c0 in F3.
      unfold App.current_answer in Hans. rewrite F1 in Hans.
      change (App.currentChatId (sending marked_parse w))
        with (App.currentChatId w) in Hans.
      destruct (App.chats w2 !! App.currentChatId w) as [c2|]; [|discriminate].
      exists c2. split; [reflexivity|].
      cbn [mbind option_bind fmap option_fmap option_map] in Hans, F3.
      injection F3 as _ Hq.
      destruct (App.at_index (App.messages c2) chatIndex) as [e2|] eqn:Ee;
        [|discriminate].
      cbn [mbind option_bind] in Hans. injection Hans as Hans.
      assert (Hlen : length (App.messages c2)
                     = length (App.messages c0 ++ [App.Exchange prompt []])).
      { rewrite <- (length_fmap App.question (App.messages c2)), Hq.
        apply length_fmap. }
      unfold App.at_index, chatIndex in Ee. rewrite <- Hlen in Ee.
      destruct (Z.of_nat (length (App.messages c2)) - 1 <? 0)%Z; [discriminate|].
      replace (Z.to_nat (Z.of_nat (length (App.messages c2)) - 1))
        with (pred (length (App.messages c2))) in Ee by lia.
      rewrite last_lookup, Ee. f_equal.
      assert (Hqe : (App.question <$> App.messages c2)
                      !! pred (length (App.messages c2))
                    = Some (App.question e2)).
      { rewrite list_lookup_fmap, Ee. reflexivity. }
      rewrite Hq, Hlen, fmap_app, length_app in Hqe. cbn [length fmap list_fmap] in Hqe.
      replace (pred (length (App.messages c0) + 1))
        with (length (App.question <$> App.messages c0) + 0)
        in Hqe by (rewrite length_fmap; lia).
      rewrite lookup_app_r in Hqe by lia.
      replace (length (App.question <$> App.messages c0) + 0
               - length (App.question <$> App.messages c0)) with 0 in Hqe by lia.
      cbn in Hqe. injection Hqe as Hqe.
      destruct e2 as [q2 a2]. cbn in *. subst. reflexivity.
    + rewrite Hwin'. apply remove_cursor_clean.
      apply Forall_app. split; [exact Hcw|]. repeat constructor.
  - intros Hp Hm Hcw prompt b'. subst b'.
    rewrite (basic_sendMessage_unfold _ b Hp Hm).
    unfold Basic.processStreamResponse.
    destruct (basic_read_loop_stream (S (length (chatWindow (Basic.ui b))))
                scenario_chunks _ _ _ (basic_sending b)
                scenario_lines scenario_well_formed eq_refl eq_refl)
      as (l' & Hr & _).
    fold scenario_body in Hr. rewrite Hr. clear Hr.
    rewrite scenario_payload_text. cbn [payloads].
    cbn [Basic.ui chatWindow set_chatWindow].
    rewrite basic_sending_window.
    replace (S (length (chatWindow (Basic.ui b))))
      with (length (chatWindow (Basic.ui b)) + 1) by lia.
    rewrite alter_app_r. cbn [alter list_alter].
    unfold basic_show. rewrite scenario_rendered. cbn [set_html set_raw].
    rewrite (remove_cursor_app_clean _ _ Hcw). reflexivity.
Qed.

Lemma scenario_streamed_answer_witness :
  let marked_parse := fun x => lit "<p>" ++ x ++ lit "</p>" in
  let earlier := [Message (lit "message user") (Text (lit "Hey"));
                  Message (lit "message assistant")
                          (Html (marked_parse (lit "Hello!")))] in
  let w' := App.sendMessage marked_parse [] (Response true [] scenario_body)
              (App.World
                 (<[lit "c1" := App.Chat (lit "Chat 1")
                                  [App.Exchange (lit "Hey") (lit "Hello!")]]> ∅)
                 (lit "c1") (JStr (lit "m1"))
                 (Page (lit "How are you?") earlier [] [] [])) in
  chatWindow (App.ui w')
  = earlier
    ++ [Message (lit "message user") (Text (lit "How are you?"));
        Streaming (marked_parse scenario_answer) false scenario_answer].
Proof.
  pose proof (scenario_streamed_answer
                (fun x => lit "<p>" ++ x ++ lit "</p>") [] []
                (App.World
                   (<[lit "c1" := App.Chat (lit "Chat 1")
                                    [App.Exchange (lit "Hey") (lit "Hello!")]]> ∅)
                   (lit "c1") (JStr (lit "m1"))
                   (Page (lit "How are you?")
                      [Message (lit "message user") (Text (lit "Hey"));
                       Message (lit "message assistant")
                               (Html (lit "<p>" ++ lit "Hello!" ++ lit "</p>"))]
                      [] [] []))
                (Basic.World (JStr (lit "m1")) (Page (lit "Hello") [] [] [] [])))
    as [H _].
  refine (proj2 (H eq_refl eq_refl _ eq_refl eq_refl)).
  repeat constructor.
Defined.

(** * Further properties of the two clients *)

(** ** The escape function on its own *)

Ltac eval_lit H :=
  repeat match type of H with
         | context [lit ?k] =>
             let v := eval vm_compute in (lit k) in change (lit k) with v in H
         end.

Lemma escape_unit_cases c :
  (is_special c = false /\ escape_unit c = [c]) \/
  (c = 38%N /\ escape_unit c = lit "&amp;") \/
  (c = 60%N /\ escape_unit c = lit "&lt;") \/
  (c = 62%N /\ escape_unit c = lit "&gt;") \/
  (c = 34%N /\ escape_unit c = lit "&quot;") \/
  (c = 39%N /\ escape_unit c = lit "&#039;").
Proof.
  unfold escape_unit, is_special.
  destruct (c =? 38)%N eqn:E1; [apply N.eqb_eq in E1; auto|].
  destruct (c =? 60)%N eqn:E2; [apply N.eqb_eq in E2; auto 10|].
  destruct (c =? 62)%N eqn:E3; [apply N.eqb_eq in E3; auto 10|].
  destruct (c =? 34)%N eqn:E4; [apply N.eqb_eq in E4; auto 10|].
  destruct (c =? 39)%N eqn:E5; [apply N.eqb_eq in E5; auto 10|].
  left. split; reflexivity.
Qed.

Lemma escape_units_injective s t :
  flat_map escape_unit s = flat_map escape_unit t -> s = t.
Proof.
  revert t. induction s as [|c s IH]; intros [|d t] H; cbn [flat_map] in H.
  - reflexivity.
  - exfalso. destruct (escape_unit_cases d) as [[_ E]|[[_ E]|[[_ E]|[[_ E]|[[_ E]|[_ E]]]]]];
      rewrite E in H; discriminate.
  - exfalso. destruct (escape_unit_cases c) as [[_ E]|[[_ E]|[[_ E]|[[_ E]|[[_ E]|[_ E]]]]]];
      rewrite E in H; discriminate.
  - destruct (escape_unit_cases c) as [[Pc Ec]|[[Pc Ec]|[[Pc Ec]|[[Pc Ec]|[[Pc Ec]|[Pc Ec]]]]]];
    destruct (escape_unit_cases d) as [[Pd Ed]|[[Pd Ed]|[[Pd Ed]|[[Pd Ed]|[[Pd Ed]|[Pd Ed]]]]]];
      rewrite Ec, Ed in H; subst; eval_lit H; cbn [app] in H;
      try discriminate H;
      try (injection H as H; f_equal; apply IH; exact H);
      try (injection H as -> H; f_equal; apply IH; exact H);
      try (injection H as -> H; discriminate Pc);
      try (injection H as <- H; discriminate Pd).
Qed.

Lemma escape_units_length s : length s <= length (flat_map escape_unit s).
Proof.
  induction s as [|c s IH]; [reflexivity|]. cbn [flat_map]. rewrite length_app.
  destruct (escape_unit_cases c) as [[_ E]|[[_ E]|[[_ E]|[[_ E]|[[_ E]|[_ E]]]]]];
    rewrite E; simpl; lia.
Qed.

Lemma escape_units_fixed s :
  flat_map escape_unit s = s <-> (forall c, In c s -> is_special c = false).
Proof.
  induction s as [|c s IH]; [split; [intros _ c []|reflexivity]|].
  cbn [flat_map]. pose proof (escape_units_length s) as L. split.
  - intros H.
    destruct (escape_unit_cases c) as [[Pc Ec]|[[Pc Ec]|[[Pc Ec]|[[Pc Ec]|[[Pc Ec]|[Pc Ec]]]]]];
      rewrite Ec in H; subst; try discriminate.
    + injection H as H. intros x [<-|Hx]; [exact Pc|]. apply IH; assumption.
    + exfalso. injection H as H. apply (f_equal (@length N)) in H.
      simpl in H. lia.
  - intros H.
    destruct (escape_unit_cases c) as [[Pc Ec]|[[Pc Ec]|[[Pc Ec]|[[Pc Ec]|[[Pc Ec]|[Pc Ec]]]]]];
      try (subst c; specialize (H _ (or_introl eq_refl)); discriminate H).
    rewrite Ec. cbn [app]. f_equal. apply IH. intros x Hx. apply H. right. exact Hx.
Qed.

Lemma app_escapeHtml_string s : App.escapeHtml s = flat_map escape_unit s.
Proof.
  rewrite <- escapeHtml_string. unfold App.escapeHtml, escapeHtml.
  cbv zeta. destruct (replace_all re_special entity_of s); reflexivity.
Qed.

(** X1. [escapeHtml] loses nothing: two texts with the same escaped form
    are the same text. *)
Theorem escapeHtml_injective (s t : jsstring) :
  escapeHtml (JStr s) = escapeHtml (JStr t) -> s = t.
Proof.
  rewrite !escapeHtml_string. apply escape_units_injective.
Qed.

Lemma escapeHtml_injective_witness :
  escapeHtml (JStr (lit "a<b")) = escapeHtml (JStr (lit "a<b")) /\
  lit "a<b" = lit "a<b".
Proof.
  split; [reflexivity|].
  apply (escapeHtml_injective (lit "a<b") (lit "a<b")). reflexivity.
Defined.

(** X2. The two scripts escape a string in the same way, and the result
    holds no angle bracket, no double quote and no apostrophe: it can
    stand in element content and inside a quoted attribute. *)
Theorem escapeHtml_clients_agree (s : jsstring) :
  App.escapeHtml s = escapeHtml (JStr s) /\
  Forall (fun c => c <> 60%N /\ c <> 62%N /\ c <> 34%N /\ c <> 39%N)
         (App.escapeHtml s).
Proof.
  rewrite app_escapeHtml_string, escapeHtml_string. split; [reflexivity|].
  induction s as [|c s IH]; [constructor|]. cbn [flat_map].
  apply Forall_app. split; [|exact IH].
  destruct (escape_unit_cases c) as [[Pc Ec]|[[Pc Ec]|[[Pc Ec]|[[Pc Ec]|[[Pc Ec]|[Pc Ec]]]]]];
    rewrite Ec.
  - constructor; [|constructor]. unfold is_special in Pc.
    repeat (apply orb_false_iff in Pc; destruct Pc as [Pc ?]).
    repeat match goal with E : (_ =? _)%N = false |- _ =>
      apply N.eqb_neq in E end. auto.
  - repeat constructor; discriminate.
  - repeat constructor; discriminate.
  - repeat constructor; discriminate.
  - repeat constructor; discriminate.
  - repeat constructor; discriminate.
Qed.

(** X3. Escaping is not idempotent: escaping an escaped text again
    changes it exactly when the text holds one of the five special
    characters, and a text without them is its own escaped form. *)
Theorem escapeHtml_twice (s : jsstring) :
  (escapeHtml (JStr (escapeHtml (JStr s))) = escapeHtml (JStr s)
   <-> forall c, In c s -> is_special c = false) /\
  (escapeHtml (JStr s) = s <-> forall c, In c s -> is_special c = false).
Proof.
  rewrite !escapeHtml_string. split; [|apply escape_units_fixed]. split.
  - intros H. apply escape_units_fixed, escape_units_injective. exact H.
  - intros H. apply escape_units_fixed in H. rewrite !H. reflexivity.
Qed.

(** ** The formatter on single lines *)

(** On a quiet text each rule of the formatter is the identity. *)
Lemma rules_quiet t :
  quiet true t = true ->
  rule_h3 t = t /\ rule_h2 t = t /\ rule_h1 t = t /\ rule_bold t = t /\
  rule_italic t = t /\ rule_code t = t /\ rule_fence t = t /\ rule_item t = t.
Proof.
  intros Hq. repeat split; apply replace_all_id; intros a b E.
  - apply (quiet_no_heading "### " (lit "## ") t a b eq_refl Hq E).
  - apply (quiet_no_heading "## " (lit "# ") t a b eq_refl Hq E).
  - apply (quiet_no_heading "# " (lit " ") t a b eq_refl Hq E).
  - apply (quiet_no_delim "**" "**" rdot _ _ 42%N (lit "*") t a b
             rmatch_rdot eq_refl (or_introl eq_refl) Hq E).
  - apply (quiet_no_delim "*" "*" rdot _ _ 42%N [] t a b
             rmatch_rdot eq_refl (or_introl eq_refl) Hq E).
  - apply (quiet_no_delim "`" "`" _ _ _ 96%N [] t a b
             rmatch_dot_or_lf eq_refl (or_intror eq_refl) Hq E).
  - apply (quiet_no_delim "```" "```" _ _ _ 96%N (lit "``") t a b
             rmatch_any eq_refl (or_intror eq_refl) Hq E).
  - apply (quiet_no_item t a b Hq E).
Qed.

Lemma plain_char_spec c :
  plain_char c = true -> is_dot c = true /\ c <> 42%N /\ c <> 96%N.
Proof.
  unfold plain_char. rewrite !andb_true_iff, !negb_true_iff.
  intros [[H1 H2] H3]. apply N.eqb_neq in H2, H3. auto.
Qed.

Lemma plain_is_dot t :
  Forall (fun c => plain_char c = true) t -> Forall (fun c => is_dot c = true) t.
Proof.
  apply List.Forall_impl. intros c H. apply plain_char_spec in H. tauto.
Qed.

(** A text of plain characters is quiet unless it starts a line with a
    hash or a dash. *)
Lemma quiet_plain bol s :
  Forall (fun c => plain_char c = true) s ->
  (bol = true -> match s with
                 | c :: _ => c <> 35%N /\ c <> 45%N
                 | [] => True
                 end) ->
  quiet bol s = true.
Proof.
  intros Hs. revert bol. induction Hs as [|c s Hc Hs IH]; intros bol Hb;
    [reflexivity|].
  cbn [quiet]. destruct (plain_char_spec c Hc) as (D & N1 & N2).
  apply N.eqb_neq in N1, N2. rewrite N1, N2. cbn [negb andb].
  rewrite IH.
  - rewrite andb_true_r. destruct bol; [|reflexivity].
    destruct (Hb eq_refl) as [H1 H2]. apply N.eqb_neq in H1. rewrite H1.
    rewrite starts_with_dash. apply N.eqb_neq in H2. rewrite H2. reflexivity.
  - unfold is_dot in D. apply negb_true_iff in D. rewrite D. discriminate.
Qed.

Lemma at_bol_inside a :
  a <> [] -> Forall (fun c => is_dot c = true) a -> at_bol (rev a) = false.
Proof.
  intros Ha H. rewrite <- (app_nil_r (rev a)). apply at_bol_rev_app; [exact Ha|].
  eapply Forall_impl; [exact H|]. intros c Hc. unfold is_dot in Hc.
  apply negb_true_iff in Hc. exact Hc.
Qed.

(** A pattern that matches at the start of the text and nowhere in what
    follows the match. *)
Lemma replace_all_head r f s st :
  match_at r [] s = Some st ->
  length (m_rest st) < length s ->
  (forall a b, m_rest st = a ++ b -> match_at r (rev a ++ m_pre st) b = None) ->
  replace_all r f s = f (consumed (MState [] s []) st) (m_caps st) ++ m_rest st.
Proof.
  intros Hm Hl Hn. unfold replace_all. cbn [replace_loop]. rewrite Hm.
  apply Nat.ltb_lt in Hl. rewrite Hl. f_equal.
  apply replace_loop_id. exact Hn.
Qed.

Lemma all_dot_run s :
  Forall (fun c => is_dot c = true) s -> run is_dot s = s /\ after is_dot s = [].
Proof.
  intros H. pose proof (run_after_app is_dot s [] H I) as R.
  rewrite app_nil_r in R. exact R.
Qed.

(** A heading rule on a text that is a single line: only the start of
    the text can match. *)
Lemma heading_rule_line (open otag ctag : string) c k s :
  lit open = c :: k ->
  Forall (fun c => is_dot c = true) s ->
  replace_all (RSeq (RBol true) (RSeq (rlit open)
                 (RGroup 1 (RSeq (RStar true rdot) (REol true)))))
              (wrap otag ctag) s
  = if starts_with (lit open) s
    then lit otag ++ drop (length (lit open)) s ++ lit ctag
    else s.
Proof.
  intros Ho Hs. destruct (starts_with (lit open) s) eqn:E.
  - pose proof E as E'. apply starts_with_spec in E'. destruct E' as [t ->].
    rewrite drop_app_length.
    assert (Ht : Forall (fun c => is_dot c = true) t).
    { apply Forall_app in Hs. tauto. }
    destruct (all_dot_run t Ht) as [R A].
    assert (Hm : match_at (RSeq (RBol true) (RSeq (rlit open)
                            (RGroup 1 (RSeq (RStar true rdot) (REol true)))))
                   [] (lit open ++ t)
                 = Some (MState (rev t ++ rev (lit open) ++ []) [] [(1, t)])).
    { rewrite match_at_heading. cbn [at_bol andb]. rewrite E.
      rewrite drop_app_length, R, A. reflexivity. }
    erewrite replace_all_head; [| exact Hm | |].
    + cbn [m_caps m_rest]. rewrite wrap_capture, app_nil_r. reflexivity.
    + cbn [m_rest]. rewrite length_app, Ho. simpl. lia.
    + cbn [m_rest]. intros a b Hab. symmetry in Hab.
      apply app_eq_nil in Hab. destruct Hab as [-> ->].
      rewrite match_at_heading, Ho. cbn [starts_with].
      rewrite andb_false_r. reflexivity.
  - apply replace_all_id. intros a b ->. rewrite match_at_heading.
    destruct a as [|x a].
    + cbn [rev app] in *. rewrite E, andb_false_r. reflexivity.
    + rewrite at_bol_inside; [reflexivity | discriminate |].
      apply Forall_app in Hs. tauto.
Qed.

Lemma rule_item_line s :
  Forall (fun c => is_dot c = true) s ->
  starts_with (lit "- ") s = false -> rule_item s = s.
Proof.
  intros Hs E. apply replace_all_id. intros a b ->. unfold re_item.
  rewrite match_at_line. destruct a as [|x a].
  - cbn [rev app] in *. rewrite E, andb_false_r. reflexivity.
  - rewrite at_bol_inside; [reflexivity | discriminate |].
    apply Forall_app in Hs. tauto.
Qed.

Lemma find_close_unfold ok close s :
  find_close ok close s
  = if starts_with close s then Some ([], drop (length close) s)
    else match s with
         | c :: s' =>
             if ok c then
               match find_close ok close s' with
               | Some (body, rest) => Some (c :: body, rest)
               | None => None
               end
             else None
         | [] => None
         end.
Proof. destruct s; reflexivity. Qed.

(** The closing text after a body that cannot start it. *)
Lemma find_close_plain ok d k t rest :
  Forall (fun c => ok c = true /\ c <> d) t ->
  find_close ok (d :: k) (t ++ (d :: k) ++ rest) = Some (t, rest).
Proof.
  induction 1 as [|c t [Hc Hd] _ IH].
  - rewrite find_close_unfold. cbn [app].
    change (d :: k ++ rest) with ((d :: k) ++ rest).
    rewrite starts_with_app, drop_app_length. reflexivity.
  - rewrite find_close_unfold. cbn [app starts_with].
    replace (d =? c)%N with false by (symmetry; apply N.eqb_neq; congruence).
    cbn [andb]. rewrite Hc. cbn [app] in IH. rewrite IH. reflexivity.
Qed.

Lemma find_close_none ok d k t :
  Forall (fun c => c <> d) t -> find_close ok (d :: k) t = None.
Proof.
  induction 1 as [|c t Hc _ IH]; [reflexivity|].
  cbn [find_close starts_with].
  replace (d =? c)%N with false by (symmetry; apply N.eqb_neq; congruence).
  cbn [andb]. rewrite IH. destruct (ok c); reflexivity.
Qed.

(** A pattern with an opening delimiter cannot match where the text
    does not start with the first character of the delimiter. *)
Lemma delim_no_match (open close : string) X ok g d k pre b :
  (forall st, rmatch X st = unit_body ok g st) ->
  lit open = d :: k ->
  match b with [] => True | c :: _ => c <> d end ->
  match_at (RSeq (rlit open) (RSeq (RGroup 1 (RStar false X)) (rlit close)))
           pre b = None.
Proof.
  intros HX Ho Hb. rewrite (match_at_delim open close X ok g _ _ HX), Ho.
  destruct b as [|c b]; [reflexivity|]. cbn [starts_with].
  replace (d =? c)%N with false by (symmetry; apply N.eqb_neq; congruence).
  reflexivity.
Qed.

Lemma suffix_head {A : Type} (P : A -> Prop) (t a b : list A) :
  Forall P t -> t = a ++ b ->
  match b with [] => True | c :: _ => P c end.
Proof.
  intros H ->. apply Forall_app in H. destruct H as [_ H].
  destruct b; [exact I|]. inversion H; assumption.
Qed.

(** A delimiter rule on a text that does not hold the first character
    of its delimiter. *)
Lemma delim_rule_absent (open close : string) X ok g d k f s :
  (forall st, rmatch X st = unit_body ok g st) ->
  lit open = d :: k ->
  Forall (fun c => c <> d) s ->
  replace_all (RSeq (rlit open) (RSeq (RGroup 1 (RStar false X)) (rlit close)))
              f s = s.
Proof.
  intros HX Ho Hs. apply replace_all_id. intros a b E.
  apply (delim_no_match open close X ok g d k _ _ HX Ho).
  exact (suffix_head _ s a b Hs E).
Qed.

(** A delimiter rule on [open body close rest], where the body does not
    hold the first character of the closing delimiter and the rest not
    that of the opening one. *)
Lemma delim_rule_span (open close otag ctag : string) X ok g d k d' k' body rest :
  (forall st, rmatch X st = unit_body ok g st) ->
  lit open = d :: k -> lit close = d' :: k' ->
  Forall (fun c => ok c = true /\ c <> d') body ->
  Forall (fun c => c <> d) rest ->
  replace_all (RSeq (rlit open) (RSeq (RGroup 1 (RStar false X)) (rlit close)))
              (wrap otag ctag) (lit open ++ body ++ lit close ++ rest)
  = lit otag ++ body ++ lit ctag ++ rest.
Proof.
  intros HX Ho Hc Hb Hr.
  assert (Hm : match_at (RSeq (rlit open) (RSeq (RGroup 1 (RStar false X))
                                                   (rlit close)))
                 [] (lit open ++ body ++ lit close ++ rest)
               = Some (MState (rev (lit close) ++ rev body ++ rev (lit open) ++ [])
                              rest ((1, body) :: caps_after g [] body))).
  { rewrite (match_at_delim open close X ok g _ _ HX), starts_with_app,
      drop_app_length, Hc, (find_close_plain ok d' k' body rest Hb).
    reflexivity. }
  erewrite replace_all_head; [| exact Hm | |].
  - cbn [m_caps m_rest]. rewrite wrap_capture, <- !app_assoc. reflexivity.
  - cbn [m_rest]. rewrite !length_app, Ho. simpl. lia.
  - cbn [m_rest m_pre]. intros a b E.
    apply (delim_no_match open close X ok g d k _ _ HX Ho).
    exact (suffix_head _ rest a b Hr E).
Qed.

Lemma plain_not (d : N) t :
  d = 42%N \/ d = 96%N ->
  Forall (fun c => plain_char c = true) t -> Forall (fun c => c <> d) t.
Proof.
  intros Hd. apply List.Forall_impl. intros c Hc.
  apply plain_char_spec in Hc. destruct Hd; subst; tauto.
Qed.

Lemma plain_body (ok : N -> bool) (d : N) t :
  (forall c, is_dot c = true -> ok c = true) ->
  d = 42%N \/ d = 96%N ->
  Forall (fun c => plain_char c = true) t ->
  Forall (fun c => ok c = true /\ c <> d) t.
Proof.
  intros Hok Hd. apply List.Forall_impl. intros c Hc.
  apply plain_char_spec in Hc. destruct Hc as (D & N1 & N2).
  split; [apply Hok; exact D|]. destruct Hd; subst; assumption.
Qed.

Lemma plain_tagged (otag ctag : string) t :
  forallb plain_char (lit otag) = true ->
  forallb plain_char (lit ctag) = true ->
  Forall (fun c => plain_char c = true) t ->
  Forall (fun c => plain_char c = true) (lit otag ++ t ++ lit ctag).
Proof.
  intros Ho Hc Ht. apply Forall_app. split; [apply forallb_Forall; exact Ho|].
  apply Forall_app. split; [exact Ht | apply forallb_Forall; exact Hc].
Qed.

(** What the rules after the one that matched do to its result. *)
Lemma quiet_tagged (otag ctag : string) c k t :
  lit otag = c :: k -> c <> 35%N -> c <> 45%N ->
  forallb plain_char (lit otag) = true ->
  forallb plain_char (lit ctag) = true ->
  Forall (fun c => plain_char c = true) t ->
  quiet true (lit otag ++ t ++ lit ctag) = true.
Proof.
  intros Ho H1 H2 Po Pc Ht. apply quiet_plain.
  - apply plain_tagged; assumption.
  - intros _. rewrite Ho. cbn [app]. auto.
Qed.

(** The loop does not depend on its fuel once there is enough of it. *)
Lemma replace_loop_fuel r f fuel1 :
  forall fuel2 pre rest,
    length rest < fuel1 -> length rest < fuel2 ->
    replace_loop fuel1 r f pre rest = replace_loop fuel2 r f pre rest.
Proof.
  induction fuel1 as [|f1 IH]; intros fuel2 pre rest H1 H2; [lia|].
  destruct fuel2 as [|f2]; [lia|]. cbn [replace_loop].
  destruct (match_at r pre rest) as [st'|].
  - destruct (length (m_rest st') <? length rest) eqn:E.
    + apply Nat.ltb_lt in E. f_equal. apply IH; lia.
    + destruct rest as [|c rest']; [reflexivity|]. f_equal. f_equal.
      apply IH; simpl in *; lia.
  - destruct rest as [|c rest']; [reflexivity|]. f_equal.
    apply IH; simpl in *; lia.
Qed.

Lemma replace_all_from r f s : replace_all r f s = replace_from r f [] s.
Proof. reflexivity. Qed.

Lemma replace_loop_none r f fuel pre c rest :
  match_at r pre (c :: rest) = None ->
  replace_loop (S fuel) r f pre (c :: rest)
  = c :: replace_loop fuel r f (c :: pre) rest.
Proof. intros H. cbn [replace_loop]. rewrite H. reflexivity. Qed.

Lemma replace_from_none r f pre c rest :
  match_at r pre (c :: rest) = None ->
  replace_from r f pre (c :: rest) = c :: replace_from r f (c :: pre) rest.
Proof.
  intros H. unfold replace_from. cbn [length].
  rewrite (replace_loop_none r f _ pre c rest H). reflexivity.
Qed.

Lemma replace_loop_some r f fuel pre rest st :
  match_at r pre rest = Some st ->
  length (m_rest st) < length rest ->
  replace_loop (S fuel) r f pre rest
  = f (consumed (MState pre rest []) st) (m_caps st)
    ++ replace_loop fuel r f (m_pre st) (m_rest st).
Proof.
  intros H L. cbn [replace_loop]. rewrite H.
  apply Nat.ltb_lt in L. rewrite L. reflexivity.
Qed.

Lemma replace_from_some r f pre rest st :
  match_at r pre rest = Some st ->
  length (m_rest st) < length rest ->
  replace_from r f pre rest
  = f (consumed (MState pre rest []) st) (m_caps st)
    ++ replace_from r f (m_pre st) (m_rest st).
Proof.
  intros H L. unfold replace_from.
  rewrite (replace_loop_some r f _ pre rest st H L). f_equal.
  apply replace_loop_fuel; lia.
Qed.



Lemma replace_from_id r f pre rest :
  (forall a b, rest = a ++ b -> match_at r (rev a ++ pre) b = None) ->
  replace_from r f pre rest = rest.
Proof. apply replace_loop_id. Qed.

Lemma replace_from_skip r f p :
  forall pre rest,
    (forall a b, p = a ++ b -> b <> [] ->
                 match_at r (rev a ++ pre) (b ++ rest) = None) ->
    replace_from r f pre (p ++ rest) = p ++ replace_from r f (rev p ++ pre) rest.
Proof.
  induction p as [|c p IH]; intros pre rest H; [reflexivity|].
  cbn [app]. rewrite replace_from_none.
  - f_equal. rewrite IH.
    + cbn [rev]. rewrite <- app_assoc. reflexivity.
    + intros a b E Hb. specialize (H (c :: a) b). cbn [rev app] in H.
      rewrite <- app_assoc in H. apply H; [rewrite E; reflexivity | exact Hb].
  - apply (H [] (c :: p) eq_refl). discriminate.
Qed.

Section Delimited.

Variables (open close otag ctag : string) (X : re) (ok : N -> bool).
Variable g : N -> list (nat * jsstring) -> list (nat * jsstring).
Variables (d d' : N) (k k' : jsstring).
Hypothesis body_unit : forall st, rmatch X st = unit_body ok g st.
Hypothesis open_head : lit open = d :: k.
Hypothesis close_head : lit close = d' :: k'.

Local Abbreviation R :=
  (RSeq (rlit open) (RSeq (RGroup 1 (RStar false X)) (rlit close))).

Lemma delim_skip f p pre rest :
  Forall (fun c => c <> d) p ->
  replace_from R f pre (p ++ rest) = p ++ replace_from R f (rev p ++ pre) rest.
Proof.
  intros Hp. apply replace_from_skip. intros a b E Hb.
  apply (delim_no_match open close X ok g d k _ _ body_unit open_head).
  pose proof (suffix_head _ p a b Hp E) as Hh.
  destruct b as [|c b]; [congruence | exact Hh].
Qed.

Lemma delim_rest f pre rest :
  Forall (fun c => c <> d) rest -> replace_from R f pre rest = rest.
Proof.
  intros Hr. apply replace_from_id. intros a b E.
  apply (delim_no_match open close X ok g d k _ _ body_unit open_head).
  exact (suffix_head _ rest a b Hr E).
Qed.

Lemma delim_match pre body rest :
  Forall (fun c => ok c = true /\ c <> d') body ->
  match_at R pre (lit open ++ body ++ lit close ++ rest)
  = Some (MState (rev (lit close) ++ rev body ++ rev (lit open) ++ pre)
                 rest ((1, body) :: caps_after g [] body)).
Proof.
  intros Hb.
  rewrite (match_at_delim open close X ok g _ _ body_unit), starts_with_app,
    drop_app_length, close_head, (find_close_plain ok d' k' body rest Hb).
  reflexivity.
Qed.

(** The rule on a line with one delimited span. *)
Lemma delim_rule_inline p body rest :
  Forall (fun c => c <> d) p ->
  Forall (fun c => ok c = true /\ c <> d') body ->
  Forall (fun c => c <> d) rest ->
  replace_all R (wrap otag ctag) (p ++ lit open ++ body ++ lit close ++ rest)
  = p ++ lit otag ++ body ++ lit ctag ++ rest.
Proof.
  intros Hp Hb Hr. rewrite replace_all_from, (delim_skip _ p [] _ Hp).
  f_equal. rewrite (replace_from_some _ _ _ _ _ (delim_match _ body rest Hb)).
  - cbn [m_caps m_pre m_rest]. rewrite wrap_capture, (delim_rest _ _ rest Hr).
    rewrite <- !app_assoc. reflexivity.
  - cbn [m_rest]. rewrite !length_app, open_head. simpl. lia.
Qed.

End Delimited.

Lemma starts_with_other (open : string) c k s :
  lit open = c :: k ->
  match s with x :: _ => x <> c | [] => True end ->
  starts_with (lit open) s = false.
Proof.
  intros -> H. destruct s as [|x s]; [reflexivity|]. cbn [starts_with].
  replace (c =? x)%N with false by (symmetry; apply N.eqb_neq; congruence).
  reflexivity.
Qed.

(** The heading rules and the list rule leave a line of running text
    alone. *)
Lemma line_rules_inline s :
  Forall (fun c => is_dot c = true) s -> inline_start s ->
  rule_h3 s = s /\ rule_h2 s = s /\ rule_h1 s = s /\ rule_item s = s.
Proof.
  intros Hs Hi.
  assert (H35 : match s with x :: _ => x <> 35%N | [] => True end).
  { destruct s; [exact I|]. destruct Hi. assumption. }
  assert (H45 : match s with x :: _ => x <> 45%N | [] => True end).
  { destruct s; [exact I|]. destruct Hi. assumption. }
  repeat split.
  - unfold rule_h3, re_h3.
    rewrite (heading_rule_line "### " "<h3>" "</h3>" 35%N (lit "## ") s eq_refl Hs).
    rewrite (starts_with_other "### " 35%N (lit "## ") s eq_refl H35). reflexivity.
  - unfold rule_h2, re_h2.
    rewrite (heading_rule_line "## " "<h2>" "</h2>" 35%N (lit "# ") s eq_refl Hs).
    rewrite (starts_with_other "## " 35%N (lit "# ") s eq_refl H35). reflexivity.
  - unfold rule_h1, re_h1.
    rewrite (heading_rule_line "# " "<h1>" "</h1>" 35%N (lit " ") s eq_refl Hs).
    rewrite (starts_with_other "# " 35%N (lit " ") s eq_refl H35). reflexivity.
  - apply rule_item_line; [exact Hs|].
    apply (starts_with_other "- " 45%N (lit " ") s eq_refl H45).
Qed.

Lemma inline_start_app p q :
  inline_start p -> (p = [] -> inline_start q) -> inline_start (p ++ q).
Proof. destruct p; [intros _ H; apply H; reflexivity | intros H _; exact H]. Qed.

Lemma plain_lit (k : string) :
  forallb plain_char (lit k) = true ->
  Forall (fun c => plain_char c = true) (lit k).
Proof. apply forallb_Forall. Qed.

Lemma rule_bold_inline p t post :
  Forall (fun c => plain_char c = true) p ->
  Forall (fun c => plain_char c = true) t ->
  Forall (fun c => plain_char c = true) post ->
  rule_bold (p ++ lit "**" ++ t ++ lit "**" ++ post)
  = p ++ lit "<strong>" ++ t ++ lit "</strong>" ++ post.
Proof.
  intros Hp Ht Hq. unfold rule_bold, re_bold.
  apply (delim_rule_inline "**" "**" "<strong>" "</strong>" rdot is_dot
           (fun _ caps => caps) 42%N 42%N (lit "*") (lit "*")
           rmatch_rdot eq_refl eq_refl).
  - apply plain_not; auto.
  - apply plain_body; auto.
  - apply plain_not; auto.
Qed.

Lemma rule_italic_inline p t post :
  Forall (fun c => plain_char c = true) p ->
  Forall (fun c => plain_char c = true) t ->
  Forall (fun c => plain_char c = true) post ->
  rule_italic (p ++ lit "*" ++ t ++ lit "*" ++ post)
  = p ++ lit "<em>" ++ t ++ lit "</em>" ++ post.
Proof.
  intros Hp Ht Hq. unfold rule_italic, re_italic.
  apply (delim_rule_inline "*" "*" "<em>" "</em>" rdot is_dot
           (fun _ caps => caps) 42%N 42%N [] []
           rmatch_rdot eq_refl eq_refl).
  - apply plain_not; auto.
  - apply plain_body; auto.
  - apply plain_not; auto.
Qed.

Lemma rule_code_inline p t post :
  Forall (fun c => plain_char c = true) p ->
  Forall (fun c => plain_char c = true) t ->
  Forall (fun c => plain_char c = true) post ->
  rule_code (p ++ lit "`" ++ t ++ lit "`" ++ post)
  = p ++ lit "<code>" ++ t ++ lit "</code>" ++ post.
Proof.
  intros Hp Ht Hq. unfold rule_code, re_code.
  apply (delim_rule_inline "`" "`" "<code>" "</code>" _ is_dot_or_lf
           _ 96%N 96%N [] [] rmatch_dot_or_lf eq_refl eq_refl).
  - apply plain_not; auto.
  - apply plain_body; auto. intros c Hc. unfold is_dot_or_lf. rewrite Hc.
    reflexivity.
  - apply plain_not; auto.
Qed.

Lemma bold_match_delim pre rest :
  match_at re_bold pre rest
  = if starts_with (lit "**") rest then
      match find_close is_dot (lit "**") (drop 2 rest) with
      | Some (body, rest') =>
          Some (MState (rev (lit "**") ++ rev body ++ rev (lit "**") ++ pre)
                       rest' ((1, body) :: caps_after (fun _ caps => caps) [] body))
      | None => None
      end
    else None.
Proof.
  unfold re_bold.
  exact (match_at_delim "**" "**" rdot is_dot (fun _ caps => caps) pre rest
           rmatch_rdot).
Qed.

(** Single stars are no bold markers. *)
Lemma rule_bold_single_stars p t post :
  Forall (fun c => plain_char c = true) p ->
  Forall (fun c => plain_char c = true) t ->
  Forall (fun c => plain_char c = true) post ->
  rule_bold (p ++ lit "*" ++ t ++ lit "*" ++ post)
  = p ++ lit "*" ++ t ++ lit "*" ++ post.
Proof.
  intros Hp Ht Hq. unfold rule_bold.
  pose proof (plain_not 42%N p (or_introl eq_refl) Hp) as Np.
  pose proof (plain_not 42%N t (or_introl eq_refl) Ht) as Nt.
  pose proof (plain_not 42%N post (or_introl eq_refl) Hq) as Nq.
  rewrite replace_all_from.
  unfold re_bold at 1.
  rewrite (delim_skip "**" "**" rdot is_dot (fun _ caps => caps) 42%N (lit "*")
             rmatch_rdot eq_refl _ p [] _ Np).
  fold re_bold. f_equal.
  change (lit "*" ++ t ++ lit "*" ++ post) with (42%N :: t ++ lit "*" ++ post).
  rewrite replace_from_none.
  2:{ rewrite bold_match_delim. destruct t as [|c t'].
      - cbn [app]. change (lit "*" ++ post) with (42%N :: post).
        change (starts_with (lit "**") (42%N :: 42%N :: post)) with true.
        cbv iota. cbn [drop].
        change (lit "**") with [42%N; 42%N]. rewrite drop_0.
        rewrite (find_close_none is_dot 42%N [42%N] post Nq). reflexivity.
      - inversion Nt as [|? ? Hc _]; subst.
        change (lit "**") with [42%N; 42%N]. cbn [app starts_with].
        replace (42 =? c)%N with false
          by (symmetry; apply N.eqb_neq; congruence).
        reflexivity. }
  f_equal. unfold re_bold at 1.
  rewrite (delim_skip "**" "**" rdot is_dot (fun _ caps => caps) 42%N (lit "*")
             rmatch_rdot eq_refl _ t _ _ Nt).
  fold re_bold. f_equal.
  change (lit "*" ++ post) with (42%N :: post).
  rewrite replace_from_none.
  2:{ rewrite bold_match_delim. change (lit "**") with [42%N; 42%N].
      destruct post as [|c q]; [reflexivity|].
      inversion Nq as [|? ? Hc _]; subst. cbn [starts_with].
      replace (42 =? c)%N with false
        by (symmetry; apply N.eqb_neq; congruence).
      reflexivity. }
  f_equal. unfold re_bold.
  apply (delim_rest "**" "**" rdot is_dot (fun _ caps => caps) 42%N (lit "*")
           rmatch_rdot eq_refl _ _ post Nq).
Qed.

(** A bold marker that is not closed is no bold marker. *)
Lemma rule_bold_unclosed p t :
  Forall (fun c => plain_char c = true) p ->
  Forall (fun c => plain_char c = true) t ->
  rule_bold (p ++ lit "**" ++ t) = p ++ lit "**" ++ t.
Proof.
  intros Hp Ht. unfold rule_bold.
  pose proof (plain_not 42%N p (or_introl eq_refl) Hp) as Np.
  pose proof (plain_not 42%N t (or_introl eq_refl) Ht) as Nt.
  rewrite replace_all_from.
  unfold re_bold at 1.
  rewrite (delim_skip "**" "**" rdot is_dot (fun _ caps => caps) 42%N (lit "*")
             rmatch_rdot eq_refl _ p [] _ Np).
  fold re_bold. f_equal.
  change (lit "**" ++ t) with (42%N :: 42%N :: t).
  rewrite replace_from_none.
  2:{ rewrite bold_match_delim.
      change (starts_with (lit "**") (42%N :: 42%N :: t)) with true.
      cbv iota. cbn [drop]. change (lit "**") with [42%N; 42%N]. rewrite drop_0.
      rewrite (find_close_none is_dot 42%N [42%N] t Nt). reflexivity. }
  f_equal. rewrite replace_from_none.
  2:{ rewrite bold_match_delim. change (lit "**") with [42%N; 42%N].
      destruct t as [|c q]; [reflexivity|].
      inversion Nt as [|? ? Hc _]; subst. cbn [starts_with].
      replace (42 =? c)%N with false
        by (symmetry; apply N.eqb_neq; congruence).
      reflexivity. }
  f_equal. unfold re_bold.
  apply (delim_rest "**" "**" rdot is_dot (fun _ caps => caps) 42%N (lit "*")
           rmatch_rdot eq_refl _ _ t Nt).
Qed.

Lemma rule_absent_star s :
  Forall (fun c => c <> 42%N) s -> rule_bold s = s /\ rule_italic s = s.
Proof.
  intros Hs. split.
  - apply (delim_rule_absent "**" "**" rdot is_dot (fun _ caps => caps) 42%N
             (lit "*") _ s rmatch_rdot eq_refl Hs).
  - apply (delim_rule_absent "*" "*" rdot is_dot (fun _ caps => caps) 42%N
             [] _ s rmatch_rdot eq_refl Hs).
Qed.

(** The rules from [k] on leave a quiet text alone. *)
Lemma formatMarkdown_from_bold o :
  quiet true o = true ->
  rule_item (rule_fence (rule_code (rule_italic o))) = o.
Proof.
  intros Hq. destruct (rules_quiet o Hq) as (_ & _ & _ & _ & Qi & Qc & Qf & Qt).
  rewrite Qi, Qc, Qf, Qt. reflexivity.
Qed.

Lemma quiet_inline (otag ctag : string) c k p t post :
  lit otag = c :: k -> c <> 35%N -> c <> 45%N ->
  forallb plain_char (lit otag) = true ->
  forallb plain_char (lit ctag) = true ->
  Forall (fun c => plain_char c = true) p ->
  Forall (fun c => plain_char c = true) t ->
  Forall (fun c => plain_char c = true) post ->
  inline_start p ->
  quiet true (p ++ lit otag ++ t ++ lit ctag ++ post) = true.
Proof.
  intros Ho H1 H2 Po Pc Hp Ht Hq Hi. apply quiet_plain.
  - repeat (apply Forall_app; split); auto using plain_lit.
  - intros _. change (inline_start (p ++ lit otag ++ t ++ lit ctag ++ post)).
    apply inline_start_app; [exact Hi|]. intros _. rewrite Ho. cbn. auto.
Qed.

Lemma plain_markers p (m1 m2 : string) t post :
  Forall (fun c => is_dot c = true) (lit m1) ->
  Forall (fun c => is_dot c = true) (lit m2) ->
  Forall (fun c => plain_char c = true) p ->
  Forall (fun c => plain_char c = true) t ->
  Forall (fun c => plain_char c = true) post ->
  Forall (fun c => is_dot c = true) (p ++ lit m1 ++ t ++ lit m2 ++ post).
Proof.
  intros H1 H2 Hp Ht Hq.
  repeat (apply Forall_app; split); auto using plain_is_dot.
Qed.

Lemma inline_start_marker p (m : string) c k rest :
  lit m = c :: k -> c <> 35%N -> c <> 45%N ->
  inline_start p -> inline_start (p ++ lit m ++ rest).
Proof.
  intros Hm H1 H2 Hi. apply inline_start_app; [exact Hi|]. intros _.
  rewrite Hm. cbn. auto.
Qed.

(** X4. The rule for fenced code blocks never fires: the rule for
    inline code, which runs before it, leaves no three backticks in a
    row.  So [formatMarkdown] is the chain of the other seven rules, and
    the block with the Copy Code button is never produced, although the
    fenced rule on its own would produce it. *)
Theorem formatMarkdown_fence_rule_dead :
  (forall text,
     formatMarkdown text
     = rule_item (rule_code (rule_italic (rule_bold
         (rule_h1 (rule_h2 (rule_h3 text))))))) /\
  (forall text, rule_fence (rule_code text) = rule_code text) /\
  rule_fence (lit "```x```") <> lit "```x```" /\
  formatMarkdown (lit "```x```") = rule_code (lit "```x```").
Proof.
  split; [|split; [exact rule_fence_after_code|split]].
  - intros text. unfold formatMarkdown. cbv zeta.
    rewrite rule_fence_after_code. reflexivity.
  - vm_compute. discriminate.
  - vm_compute. reflexivity.
Qed.

(** X5. A text that is one heading line, with a title of running text
    (no line terminator, star or backtick), becomes the heading element
    of its level; a hash that no blank follows starts no heading. *)
Theorem formatMarkdown_heading_line (t : jsstring) :
  Forall (fun c => plain_char c = true) t ->
  formatMarkdown (lit "### " ++ t) = lit "<h3>" ++ t ++ lit "</h3>" /\
  formatMarkdown (lit "## " ++ t) = lit "<h2>" ++ t ++ lit "</h2>" /\
  formatMarkdown (lit "# " ++ t) = lit "<h1>" ++ t ++ lit "</h1>" /\
  (starts_with (lit " ") t = false -> starts_with (lit "#") t = false ->
   formatMarkdown (lit "#" ++ t) = lit "#" ++ t).
Proof.
  intros Ht. pose proof (plain_is_dot t Ht) as Dt.
  assert (Q : forall (otag ctag : string) c k,
             lit otag = c :: k -> c <> 35%N -> c <> 45%N ->
             forallb plain_char (lit otag) = true ->
             forallb plain_char (lit ctag) = true ->
             quiet true (lit otag ++ t ++ lit ctag) = true).
  { intros otag ctag c k H1 H2 H3 H4 H5.
    apply (quiet_tagged otag ctag c k t); assumption. }
  assert (D : forall (m : string),
             forallb is_dot (lit m) = true ->
             Forall (fun c => is_dot c = true) (lit m ++ t)).
  { intros m Hm. apply Forall_app. split; [|exact Dt].
    apply forallb_Forall. exact Hm. }
  split; [|split; [|split]].
  - unfold formatMarkdown. cbv zeta. unfold rule_h3 at 1, re_h3.
    rewrite (heading_rule_line "### " "<h3>" "</h3>" 35%N (lit "## ")
               _ eq_refl (D "### "%string eq_refl)).
    rewrite starts_with_app, drop_app_length.
    pose proof (Q "<h3>"%string "</h3>"%string 60%N (lit "h3>") eq_refl
                  ltac:(discriminate) ltac:(discriminate) eq_refl eq_refl) as Hq.
    destruct (rules_quiet _ Hq) as (_ & Q2 & Q1 & Qb & Qi & Qc & Qf & Qt).
    rewrite Q2, Q1, Qb, Qi, Qc, Qf, Qt. reflexivity.
  - unfold formatMarkdown. cbv zeta. unfold rule_h3 at 1, re_h3.
    rewrite (heading_rule_line "### " "<h3>" "</h3>" 35%N (lit "## ")
               _ eq_refl (D "## "%string eq_refl)).
    change (starts_with (lit "### ") (lit "## " ++ t)) with false. cbv iota.
    unfold rule_h2 at 1, re_h2.
    rewrite (heading_rule_line "## " "<h2>" "</h2>" 35%N (lit "# ")
               _ eq_refl (D "## "%string eq_refl)).
    rewrite starts_with_app, drop_app_length.
    pose proof (Q "<h2>"%string "</h2>"%string 60%N (lit "h2>") eq_refl
                  ltac:(discriminate) ltac:(discriminate) eq_refl eq_refl) as Hq.
    destruct (rules_quiet _ Hq) as (_ & _ & Q1 & Qb & Qi & Qc & Qf & Qt).
    rewrite Q1, Qb, Qi, Qc, Qf, Qt. reflexivity.
  - unfold formatMarkdown. cbv zeta. unfold rule_h3 at 1, re_h3.
    rewrite (heading_rule_line "### " "<h3>" "</h3>" 35%N (lit "## ")
               _ eq_refl (D "# "%string eq_refl)).
    change (starts_with (lit "### ") (lit "# " ++ t)) with false. cbv iota.
    unfold rule_h2 at 1, re_h2.
    rewrite (heading_rule_line "## " "<h2>" "</h2>" 35%N (lit "# ")
               _ eq_refl (D "# "%string eq_refl)).
    change (starts_with (lit "## ") (lit "# " ++ t)) with false. cbv iota.
    unfold rule_h1 at 1, re_h1.
    rewrite (heading_rule_line "# " "<h1>" "</h1>" 35%N (lit " ")
               _ eq_refl (D "# "%string eq_refl)).
    rewrite starts_with_app, drop_app_length.
    pose proof (Q "<h1>"%string "</h1>"%string 60%N (lit "h1>") eq_refl
                  ltac:(discriminate) ltac:(discriminate) eq_refl eq_refl) as Hq.
    destruct (rules_quiet _ Hq) as (_ & _ & _ & Qb & Qi & Qc & Qf & Qt).
    rewrite Qb, Qi, Qc, Qf, Qt. reflexivity.
  - intros Hb Hh. unfold formatMarkdown. cbv zeta.
    assert (Hc : match t with
                 | c :: _ => (35 =? c)%N = false
                 | [] => True
                 end).
    { destruct t as [|c t']; [exact I|].
      change (starts_with (lit "#") (c :: t')) with ((35 =? c)%N && true) in Hh.
      rewrite andb_true_r in Hh. exact Hh. }
    assert (E3 : starts_with (lit "### ") (lit "#" ++ t) = false).
    { destruct t as [|c t']; [reflexivity|].
      change (starts_with (lit "### ") (lit "#" ++ c :: t'))
        with (true && ((35 =? c)%N && starts_with (lit "# ") t')).
      rewrite Hc. reflexivity. }
    assert (E2 : starts_with (lit "## ") (lit "#" ++ t) = false).
    { destruct t as [|c t']; [reflexivity|].
      change (starts_with (lit "## ") (lit "#" ++ c :: t'))
        with (true && ((35 =? c)%N && starts_with (lit " ") t')).
      rewrite Hc. reflexivity. }
    assert (E1 : starts_with (lit "# ") (lit "#" ++ t) = false) by exact Hb.
    unfold rule_h3 at 1, re_h3.
    rewrite (heading_rule_line "### " "<h3>" "</h3>" 35%N (lit "## ")
               _ eq_refl (D "#"%string eq_refl)), E3.
    unfold rule_h2 at 1, re_h2.
    rewrite (heading_rule_line "## " "<h2>" "</h2>" 35%N (lit "# ")
               _ eq_refl (D "#"%string eq_refl)), E2.
    unfold rule_h1 at 1, re_h1.
    rewrite (heading_rule_line "# " "<h1>" "</h1>" 35%N (lit " ")
               _ eq_refl (D "#"%string eq_refl)), E1.
    assert (N42 : Forall (fun c => c <> 42%N) (lit "#" ++ t)).
    { apply Forall_app. split; [repeat constructor; discriminate|].
      apply plain_not; auto. }
    assert (N96 : Forall (fun c => c <> 96%N) (lit "#" ++ t)).
    { apply Forall_app. split; [repeat constructor; discriminate|].
      apply plain_not; auto. }
    destruct (rule_absent_star _ N42) as [-> ->].
    assert (Hcode : rule_code (lit "#" ++ t) = lit "#" ++ t).
    { apply (delim_rule_absent "`" "`" _ is_dot_or_lf _ 96%N [] _ _
               rmatch_dot_or_lf eq_refl N96). }
    rewrite Hcode.
    assert (Hf : rule_fence (lit "#" ++ t) = lit "#" ++ t).
    { apply (delim_rule_absent "```" "```" _ _ _ 96%N (lit "``") _ _
               rmatch_any eq_refl N96). }
    rewrite Hf. apply rule_item_line; [apply (D "#"%string eq_refl)|].
    reflexivity.
Qed.

Lemma formatMarkdown_heading_line_witness :
  formatMarkdown (lit "## Results & <notes>")
  = lit "<h2>Results & <notes></h2>".
Proof.
  apply (formatMarkdown_heading_line (lit "Results & <notes>")).
  apply forallb_Forall. reflexivity.
Defined.

(** X6. Inside a line of running text that does not start like a
    heading or a list item, one pair of double stars, of single stars or
    of backticks around running text becomes a [strong], [em] or [code]
    element, and the text around it is kept.  A pair of stars that is
    never closed becomes an empty [em] element. *)
Theorem formatMarkdown_inline_span (p t post : jsstring) :
  Forall (fun c => plain_char c = true) p ->
  Forall (fun c => plain_char c = true) t ->
  Forall (fun c => plain_char c = true) post ->
  inline_start p ->
  formatMarkdown (p ++ lit "**" ++ t ++ lit "**" ++ post)
  = p ++ lit "<strong>" ++ t ++ lit "</strong>" ++ post /\
  formatMarkdown (p ++ lit "*" ++ t ++ lit "*" ++ post)
  = p ++ lit "<em>" ++ t ++ lit "</em>" ++ post /\
  formatMarkdown (p ++ lit "`" ++ t ++ lit "`" ++ post)
  = p ++ lit "<code>" ++ t ++ lit "</code>" ++ post /\
  formatMarkdown (p ++ lit "**" ++ t) = p ++ lit "<em></em>" ++ t.
Proof.
  intros Hp Ht Hq Hi.
  assert (L : forall (m1 m2 : string) c k x y,
             forallb is_dot (lit m1) = true -> forallb is_dot (lit m2) = true ->
             lit m1 = c :: k -> c <> 35%N -> c <> 45%N ->
             Forall (fun c => plain_char c = true) x ->
             Forall (fun c => plain_char c = true) y ->
             let s := p ++ lit m1 ++ x ++ lit m2 ++ y in
             rule_h3 s = s /\ rule_h2 s = s /\ rule_h1 s = s /\ rule_item s = s).
  { intros m1 m2 c k x y D1 D2 Hm H1 H2 Hx Hy s. apply line_rules_inline.
    - apply plain_markers; auto; apply forallb_Forall; assumption.
    - apply (inline_start_marker p m1 c k _ Hm H1 H2 Hi). }
  split; [|split; [|split]].
  - destruct (L "**"%string "**"%string 42%N (lit "*") t post eq_refl eq_refl
                eq_refl ltac:(discriminate) ltac:(discriminate) Ht Hq)
      as (E3 & E2 & E1 & _).
    unfold formatMarkdown. cbv zeta. rewrite E3, E2, E1.
    rewrite (rule_bold_inline p t post Hp Ht Hq).
    apply formatMarkdown_from_bold.
    apply (quiet_inline "<strong>" "</strong>" 60%N (lit "strong>"));
      auto; discriminate.
  - destruct (L "*"%string "*"%string 42%N [] t post eq_refl eq_refl
                eq_refl ltac:(discriminate) ltac:(discriminate) Ht Hq)
      as (E3 & E2 & E1 & _).
    unfold formatMarkdown. cbv zeta. rewrite E3, E2, E1.
    rewrite (rule_bold_single_stars p t post Hp Ht Hq).
    rewrite (rule_italic_inline p t post Hp Ht Hq).
    assert (Hqi : quiet true (p ++ lit "<em>" ++ t ++ lit "</em>" ++ post) = true).
    { apply (quiet_inline "<em>" "</em>" 60%N (lit "em>")); auto; discriminate. }
    destruct (rules_quiet _ Hqi) as (_ & _ & _ & _ & _ & Qc & Qf & Qt).
    rewrite Qc, Qf, Qt. reflexivity.
  - destruct (L "`"%string "`"%string 96%N [] t post eq_refl eq_refl
                eq_refl ltac:(discriminate) ltac:(discriminate) Ht Hq)
      as (E3 & E2 & E1 & _).
    unfold formatMarkdown. cbv zeta. rewrite E3, E2, E1.
    assert (N42 : Forall (fun c => c <> 42%N)
                    (p ++ lit "`" ++ t ++ lit "`" ++ post)).
    { repeat (apply Forall_app; split);
        try (apply plain_not; auto; fail); repeat constructor; discriminate. }
    destruct (rule_absent_star _ N42) as [-> ->].
    rewrite (rule_code_inline p t post Hp Ht Hq).
    assert (Hqi : quiet true (p ++ lit "<code>" ++ t ++ lit "</code>" ++ post)
                  = true).
    { apply (quiet_inline "<code>" "</code>" 60%N (lit "code>")); auto;
        discriminate. }
    destruct (rules_quiet _ Hqi) as (_ & _ & _ & _ & _ & _ & Qf & Qt).
    rewrite Qf, Qt. reflexivity.
  - destruct (line_rules_inline (p ++ lit "**" ++ t)) as (E3 & E2 & E1 & _).
    { repeat (apply Forall_app; split); auto using plain_is_dot.
      apply forallb_Forall. reflexivity. }
    { apply (inline_start_marker p "**" 42%N (lit "*") t eq_refl);
        [discriminate | discriminate | exact Hi]. }
    unfold formatMarkdown. cbv zeta. rewrite E3, E2, E1.
    rewrite (rule_bold_unclosed p t Hp Ht).
    change (p ++ lit "**" ++ t) with (p ++ lit "*" ++ [] ++ lit "*" ++ t).
    rewrite (rule_italic_inline p [] t Hp (List.Forall_nil _) Ht).
    assert (Hqi : quiet true (p ++ lit "<em>" ++ [] ++ lit "</em>" ++ t) = true).
    { apply (quiet_inline "<em>" "</em>" 60%N (lit "em>")); auto; discriminate. }
    destruct (rules_quiet _ Hqi) as (_ & _ & _ & _ & _ & Qc & Qf & Qt).
    rewrite Qc, Qf, Qt. reflexivity.
Qed.

Lemma formatMarkdown_inline_span_witness :
  formatMarkdown (lit "use " ++ lit "`" ++ lit "x + y" ++ lit "`" ++ lit " here")
  = lit "use " ++ lit "<code>" ++ lit "x + y" ++ lit "</code>" ++ lit " here".
Proof.
  apply (formatMarkdown_inline_span (lit "use ") (lit "x + y") (lit " here"));
    try (apply forallb_Forall; reflexivity).
  split; discriminate.
Defined.

(** ** The single-chat client on any stream *)

Lemma basic_page_snoc h raw d p :
  basic_page h (raw ++ d ++ [chLF]) p
  = set_chatWindow (alter (basic_show (raw ++ d ++ [chLF])) h (chatWindow p)) p.
Proof.
  unfold basic_page. destruct (raw ++ d ++ [chLF]) eqn:E; [|reflexivity].
  exfalso. apply app_eq_nil in E. destruct E as [_ E].
  apply app_eq_nil in E. destruct E as [_ E]. discriminate.
Qed.

Lemma basic_page_fields h raw p :
  userInput (basic_page h raw p) = userInput p /\
  alerts (basic_page h raw p) = alerts p /\
  requests (basic_page h raw p) = requests p /\
  console (basic_page h raw p) = console p.
Proof. destruct raw; repeat split. Qed.

Lemma basic_on_line_page h x raw p0 :
  Basic.on_line h h x (raw, basic_page h raw p0)
  = flow_map (fun r => (r, basic_page h r p0)) (line_raw x raw).
Proof.
  unfold Basic.on_line, line_raw. cbv zeta.
  destruct (starts_with data_prefix x); [|reflexivity].
  destruct (jsstring_eqb _ DONE); [reflexivity|].
  cbn [flow_map]. f_equal. f_equal.
  rewrite basic_page_snoc.
  set (raw' := raw ++ trim (replace_first data_prefix [] x) ++ [chLF]).
  destruct raw as [|c r]; cbn [basic_page].
  - destruct p0 as [u cw al rq co]. unfold set_chatWindow.
    cbn [chatWindow userInput alerts requests console].
    rewrite list_alter_alter_eq. reflexivity.
  - destruct p0 as [u cw al rq co]. unfold set_chatWindow.
    cbn [chatWindow userInput alerts requests console].
    rewrite !list_alter_alter_eq. f_equal.
    apply list_alter_ext; [|reflexivity]. intros n _. destruct n; reflexivity.
Qed.

Lemma basic_for_of_page h lines raw p0 :
  for_of (Basic.on_line h h) lines (raw, basic_page h raw p0)
  = flow_map (fun r => (r, basic_page h r p0)) (for_of line_raw lines raw).
Proof.
  revert raw. induction lines as [|x lines IH]; intros raw; cbn [for_of].
  - reflexivity.
  - rewrite basic_on_line_page.
    destruct (line_raw x raw) as [r1|r1|m r1]; cbn [flow_map];
      [apply IH | reflexivity | reflexivity].
Qed.

Lemma line_raw_blank x raw :
  truthy (JStr (trim x)) <> true -> line_raw x raw = Next raw.
Proof.
  intros H. unfold line_raw.
  destruct (starts_with data_prefix x) eqn:E; [|reflexivity].
  rewrite (data_prefix_nonblank x E) in H. congruence.
Qed.

(** The blank lines that the single-chat client filters out would have
    been passed over. *)
Lemma for_of_line_raw_filter lines raw :
  for_of line_raw (filter (fun ln => truthy (JStr (trim ln)) = true) lines) raw
  = for_of line_raw lines raw.
Proof.
  revert raw. induction lines as [|x lines IH]; intros raw; [reflexivity|].
  rewrite filter_cons. destruct (decide (truthy (JStr (trim x)) = true)) as [H|H];
    cbn [for_of].
  - destruct (line_raw x raw); [apply IH | reflexivity | reflexivity].
  - rewrite (line_raw_blank x raw H). apply IH.
Qed.

Lemma line_raw_total x raw :
  match line_raw x raw with Raise _ _ => False | _ => True end.
Proof.
  unfold line_raw. destruct (starts_with data_prefix x); [|exact I].
  cbv zeta. destruct (jsstring_eqb _ DONE); exact I.
Qed.

Lemma for_of_line_raw lines raw :
  for_of line_raw lines raw = Next (lines_raw lines raw) \/
  for_of line_raw lines raw = Break (lines_raw lines raw).
Proof.
  unfold lines_raw. revert raw.
  induction lines as [|x lines IH]; intros raw; cbn [for_of]; [left; reflexivity|].
  pose proof (line_raw_total x raw) as T.
  destruct (line_raw x raw) as [r|r|m r];
    [apply IH | right; reflexivity | destruct T].
Qed.

(** One turn of the loop: the locals after it, and the page. *)
Lemma basic_on_chunk_page h value l p0 :
  let buffer := Basic.partialChunk l
                ++ snd (TextDecoder.decode (Basic.decoder l) value) in
  let raw' := lines_raw (complete_lines buffer) (Basic.rawText l) in
  Basic.on_chunk h h value l (basic_page h (Basic.rawText l) p0)
  = Next (Basic.Locals (fst (TextDecoder.decode (Basic.decoder l) value))
                       (pending_line buffer) raw',
          basic_page h raw' p0).
Proof.
  unfold Basic.on_chunk.
  destruct (TextDecoder.decode (Basic.decoder l) value) as [d chunk].
  cbn [fst snd]. rewrite split_newline_captured. unfold pop.
  destruct (lines_breaks_filter [] (Basic.partialChunk l ++ chunk)) as [Hf Hl].
  rewrite Hf, Hl. fold (complete_lines (Basic.partialChunk l ++ chunk)).
  fold (pending_line (Basic.partialChunk l ++ chunk)).
  rewrite basic_for_of_page, for_of_line_raw_filter.
  destruct (for_of_line_raw (complete_lines (Basic.partialChunk l ++ chunk))
              (Basic.rawText l)) as [-> | ->]; reflexivity.
Qed.

(** The loop over chunks that are all delivered. *)
Lemma basic_read_loop_chunks h chunks :
  forall l p0,
    Basic.read_loop h h (map Chunk chunks) l (basic_page h (Basic.rawText l) p0)
    = let '(d', partial', raw') :=
        receive chunks (Basic.decoder l) (Basic.partialChunk l)
                (Basic.rawText l) in
      Normal (Basic.Locals d' partial' raw', basic_page h raw' p0).
Proof.
  induction chunks as [|c cs IH]; intros l p0; cbn [map Basic.read_loop receive].
  - destruct l; reflexivity.
  - rewrite basic_on_chunk_page. cbv zeta.
    destruct (TextDecoder.decode (Basic.decoder l) c) as [d1 o1].
    cbn [fst snd].
    pose proof (IH (Basic.Locals d1 (pending_line (Basic.partialChunk l ++ o1))
                      (lines_raw (complete_lines (Basic.partialChunk l ++ o1))
                                 (Basic.rawText l))) p0) as IH'.
    cbn [Basic.decoder Basic.partialChunk Basic.rawText] in IH'.
    exact IH'.
Qed.


(** The loop on any body: the page is that of the raw text accumulated,
    whether the loop ends or a read fails. *)
Lemma basic_read_loop_page h body :
  forall l p0,
    match Basic.read_loop h h body l (basic_page h (Basic.rawText l) p0) with
    | Normal (l', p') | Thrown _ (l', p') =>
        p' = basic_page h (Basic.rawText l') p0
    end.
Proof.
  induction body as [|ev body IH]; intros l p0; cbn [Basic.read_loop].
  - reflexivity.
  - destruct ev as [value|m]; [|reflexivity].
    rewrite basic_on_chunk_page. cbv zeta.
    apply (IH (Basic.Locals (fst (TextDecoder.decode (Basic.decoder l) value))
                 (pending_line
                    (Basic.partialChunk l
                     ++ snd (TextDecoder.decode (Basic.decoder l) value)))
                 (lines_raw
                    (complete_lines
                       (Basic.partialChunk l
                        ++ snd (TextDecoder.decode (Basic.decoder l) value)))
                    (Basic.rawText l))) p0).
Qed.

Lemma format_empty : formatMarkdown (escapeHtml (JStr [])) = [].
Proof. vm_compute. reflexivity. Qed.

(** The chat window while the answer is streamed. *)
Lemma basic_page_window b raw :
  chatWindow (basic_page (S (length (chatWindow (Basic.ui b)))) raw
                         (basic_sending b))
  = chatWindow (Basic.ui b)
    ++ [basic_user_message (trim (userInput (Basic.ui b)));
        basic_streaming raw].
Proof.
  unfold basic_streaming. destruct raw as [|c r]; cbn [basic_page].
  - rewrite basic_sending_window, format_empty. reflexivity.
  - cbn [chatWindow set_chatWindow]. rewrite basic_sending_window.
    replace (S (length (chatWindow (Basic.ui b))))
      with (length (chatWindow (Basic.ui b)) + 1) by lia.
    rewrite alter_app_r. reflexivity.
Qed.

Lemma basic_sending_fields b :
  userInput (basic_sending b) = [] /\
  alerts (basic_sending b) = alerts (Basic.ui b) /\
  requests (basic_sending b)
  = requests (Basic.ui b)
    ++ [StreamChat (trim (userInput (Basic.ui b))) (Basic.selectedModel b) None] /\
  console (basic_sending b) = console (Basic.ui b).
Proof. repeat split. Qed.

(** The world that the single-chat client is left in after a request
    that was sent, given the chat window and the console. *)
Lemma basic_world_eq b cw co (p : page) :
  chatWindow p = cw -> console p = co ->
  userInput p = [] -> alerts p = alerts (Basic.ui b) ->
  requests p
  = requests (Basic.ui b)
    ++ [StreamChat (trim (userInput (Basic.ui b))) (Basic.selectedModel b) None] ->
  Basic.World (Basic.selectedModel b) p
  = Basic.World (Basic.selectedModel b)
      (Page [] cw (alerts (Basic.ui b))
            (requests (Basic.ui b)
             ++ [StreamChat (trim (userInput (Basic.ui b)))
                            (Basic.selectedModel b) None])
            co).
Proof.
  destruct p as [u cw' al rq co']. cbn. intros -> -> -> -> ->. reflexivity.
Qed.

(** [sendMessage] of the single-chat client when the body is delivered
    completely. *)
Lemma basic_sendMessage_chunks st chunks b :
  truthy (JStr (trim (userInput (Basic.ui b)))) = true ->
  truthy (Basic.selectedModel b) = true ->
  Basic.sendMessage (Response true st (map Chunk chunks)) b
  = Basic.World (Basic.selectedModel b)
      (Page []
         (remove_cursor
            (chatWindow (Basic.ui b)
             ++ [basic_user_message (trim (userInput (Basic.ui b)));
                 basic_streaming (received chunks)]))
         (alerts (Basic.ui b))
         (requests (Basic.ui b)
          ++ [StreamChat (trim (userInput (Basic.ui b)))
                         (Basic.selectedModel b) None])
         (console (Basic.ui b))).
Proof.
  intros Hp Hm. rewrite (basic_sendMessage_unfold _ b Hp Hm).
  unfold Basic.processStreamResponse.
  pose proof (basic_read_loop_chunks (S (length (chatWindow (Basic.ui b))))
                chunks (Basic.Locals TextDecoder.create [] [])
                (basic_sending b)) as H.
  cbn [Basic.rawText Basic.decoder Basic.partialChunk basic_page] in H.
  rewrite H. unfold received.
  destruct (receive chunks TextDecoder.create [] []) as [[d' partial'] raw'].
  cbn [snd].
  destruct (basic_page_fields (S (length (chatWindow (Basic.ui b)))) raw'
              (basic_sending b)) as (F1 & F2 & F3 & F4).
  apply basic_world_eq.
  - cbn [chatWindow set_chatWindow]. rewrite basic_page_window. reflexivity.
  - exact F4.
  - exact F1.
  - exact F2.
  - exact F3.
Qed.


Lemma remove_cursor_app_dirty ns ms :
  existsb has_cursor ns = true ->
  remove_cursor (ns ++ ms) = remove_cursor ns ++ ms.
Proof.
  induction ns as [|n ns IH]; [discriminate|].
  destruct n as [cls body|html [|] raw]; cbn [existsb has_cursor orb app remove_cursor].
  - intros H. rewrite (IH H). reflexivity.
  - reflexivity.
  - intros H. rewrite (IH H). reflexivity.
Qed.

Lemma existsb_false_Forall {A : Type} (p : A -> bool) (l : list A) :
  existsb p l = false -> Forall (fun x => p x = false) l.
Proof.
  induction l as [|x l IH]; [constructor|]. cbn [existsb].
  intros H. apply orb_false_iff in H. destruct H as [H1 H2].
  constructor; auto.
Qed.

(** Which cursor goes when the first one of the document is removed:
    that of the new element only if no earlier element has one. *)
Lemma last_remove_cursor old cls body html raw :
  last (remove_cursor (old ++ [Message cls body; Streaming html true raw]))
  = Some (Streaming html (existsb has_cursor old) raw).
Proof.
  destruct (existsb has_cursor old) eqn:E.
  - rewrite (remove_cursor_app_dirty old _ E).
    rewrite (app_assoc _ [Message cls body] [Streaming html true raw]).
    apply last_snoc.
  - rewrite (remove_cursor_app_clean old _ (existsb_false_Forall _ _ E)).
    cbn [remove_cursor].
    rewrite (app_assoc _ [Message cls body] [Streaming html false raw]).
    apply last_snoc.
Qed.

(** X7. [selectModel] stores the model and reports it in a system
    message that is escaped but not formatted.  A send that follows
    with a prompt that is not blank makes exactly one request, for that
    model, and shows no alert; but after [selectModel] with an empty
    name the send is refused with the alert. *)
Theorem selectModel_then_send (m : jsstring) (reply : fetch_result)
    (w : Basic.world) :
  let w1 := Basic.selectModel m w in
  let prompt := trim (userInput (Basic.ui w)) in
  Basic.selectedModel w1 = JStr m /\
  chatWindow (Basic.ui w1)
  = chatWindow (Basic.ui w)
    ++ [Message (lit "message assistant system")
                (Html (escapeHtml (JStr (lit "Model selected: " ++ m))))] /\
  (truthy (JStr prompt) = true -> m <> [] ->
   requests (Basic.ui (Basic.sendMessage reply w1))
   = requests (Basic.ui w) ++ [StreamChat prompt (JStr m) None] /\
   alerts (Basic.ui (Basic.sendMessage reply w1)) = alerts (Basic.ui w)) /\
  (m = [] ->
   Basic.sendMessage reply w1
   = Basic.World (JStr [])
       (alert (lit "Please select a model first") (Basic.ui w1))).
Proof.
  intros w1 prompt. split; [reflexivity|]. split; [reflexivity|]. split.
  - intros Hp Hm.
    assert (Hp1 : truthy (JStr (trim (userInput (Basic.ui w1)))) = true)
      by exact Hp.
    assert (Hm1 : truthy (Basic.selectedModel w1) = true).
    { destruct m; [congruence | reflexivity]. }
    assert (R : forall r : completion page,
               match r with Normal p | Thrown _ p =>
                 requests p = requests (basic_sending w1) /\
                 alerts p = alerts (basic_sending w1) end ->
               requests (Basic.ui match r with
                                  | Normal p' => Basic.World (JStr m) p'
                                  | Thrown e p' =>
                                      Basic.World (JStr m)
                                        (Basic.handleStreamError e p')
                                  end)
               = requests (basic_sending w1) /\
               alerts (Basic.ui match r with
                                | Normal p' => Basic.World (JStr m) p'
                                | Thrown e p' =>
                                    Basic.World (JStr m)
                                      (Basic.handleStreamError e p')
                                end)
               = alerts (basic_sending w1)).
    { intros [p|e p] H; exact H. }
    rewrite (basic_sendMessage_unfold reply w1 Hp1 Hm1).
    change (Basic.selectedModel w1) with (JStr m).
    apply R. destruct reply as [e|[|] st body]; try (split; reflexivity).
    unfold Basic.processStreamResponse.
    pose proof (basic_read_loop_page (S (length (chatWindow (Basic.ui w1)))) body
                  (Basic.Locals TextDecoder.create [] []) (basic_sending w1)) as H.
    cbn [Basic.rawText basic_page] in H.
    destruct (Basic.read_loop _ _ body _ (basic_sending w1))
      as [[l' p']|e [l' p']]; subst p';
      destruct (basic_page_fields (S (length (chatWindow (Basic.ui w1))))
                  (Basic.rawText l') (basic_sending w1)) as (_ & F2 & F3 & _);
      split; assumption.
  - intros ->. unfold Basic.sendMessage.
    change (Basic.selectedModel w1) with (JStr []).
    cbn [truthy negb]. rewrite orb_true_r. reflexivity.
Qed.

Lemma selectModel_then_send_witness :
  requests (Basic.ui (Basic.sendMessage (Rejected (lit "offline"))
                        (Basic.selectModel (lit "m1")
                           (Basic.World JNull (Page (lit "Hello") [] [] [] [])))))
  = [StreamChat (lit "Hello") (JStr (lit "m1")) None].
Proof.
  destruct (selectModel_then_send (lit "m1") (Rejected (lit "offline"))
              (Basic.World JNull (Page (lit "Hello") [] [] [] [])))
    as (_ & _ & H & _).
  refine (proj1 (H eq_refl _)). intros E. vm_compute in E. discriminate E.
Defined.

(** X8. When the response is ok and its body is delivered completely,
    whatever bytes it holds, the single-chat client reports no error:
    nothing goes to the console, no alert is shown, one request was made
    and the input box is empty.  The chat window is the earlier one with
    the user message and the streaming element added and the first
    cursor of the document removed; the raw text of the element is what
    the loop accumulated and its markup is the formatted, escaped form
    of that text. *)
Theorem basic_sendMessage_delivered (st : jsstring)
    (chunks : list (list Byte.byte)) (b : Basic.world) :
  truthy (JStr (trim (userInput (Basic.ui b)))) = true ->
  truthy (Basic.selectedModel b) = true ->
  let prompt := trim (userInput (Basic.ui b)) in
  Basic.sendMessage (Response true st (map Chunk chunks)) b
  = Basic.World (Basic.selectedModel b)
      (Page []
         (remove_cursor
            (chatWindow (Basic.ui b)
             ++ [Message (lit "message user ")
                         (Html (formatMarkdown (escapeHtml (JStr prompt))));
                 Streaming (formatMarkdown (escapeHtml (JStr (received chunks))))
                           true (received chunks)]))
         (alerts (Basic.ui b))
         (requests (Basic.ui b)
          ++ [StreamChat prompt (Basic.selectedModel b) None])
         (console (Basic.ui b))).
Proof.
  intros Hp Hm prompt. exact (basic_sendMessage_chunks st chunks b Hp Hm).
Qed.

Lemma basic_sendMessage_delivered_witness :
  Basic.sendMessage (Response true [] (map Chunk cut_chunks))
    (Basic.World (JStr (lit "m1")) (Page (lit "Hello") [] [] [] []))
  = Basic.World (JStr (lit "m1"))
      (Page []
         (remove_cursor
            ([] ++ [Message (lit "message user ")
                      (Html (formatMarkdown (escapeHtml (JStr (lit "Hello")))));
                    Streaming
                      (formatMarkdown
                         (escapeHtml (JStr (received cut_chunks))))
                      true (received cut_chunks)]))
         [] ([] ++ [StreamChat (lit "Hello") (JStr (lit "m1")) None]) []).
Proof.
  apply (basic_sendMessage_delivered [] cut_chunks
           (Basic.World (JStr (lit "m1")) (Page (lit "Hello") [] [] [] [])));
    reflexivity.
Defined.



(** X10. The cursor that a finished stream removes is the first one of
    the document, not the one of its own message: if an earlier message
    still shows a cursor (as after a failed request), the new message
    keeps its cursor after its stream has ended. *)
Theorem basic_stream_removes_first_cursor (st : jsstring)
    (chunks : list (list Byte.byte)) (b : Basic.world) :
  truthy (JStr (trim (userInput (Basic.ui b)))) = true ->
  truthy (Basic.selectedModel b) = true ->
  let b' := Basic.sendMessage (Response true st (map Chunk chunks)) b in
  last (chatWindow (Basic.ui b'))
  = Some (Streaming (formatMarkdown (escapeHtml (JStr (received chunks))))
                    (existsb has_cursor (chatWindow (Basic.ui b)))
                    (received chunks)).
Proof.
  intros Hp Hm b'. subst b'. rewrite (basic_sendMessage_chunks st chunks b Hp Hm).
  cbn [Basic.ui chatWindow].
  unfold basic_user_message, basic_streaming. apply last_remove_cursor.
Qed.

Lemma basic_stream_removes_first_cursor_witness :
  last (chatWindow (Basic.ui (Basic.sendMessage
                                (Response true [] (map Chunk scenario_chunks))
                                (Basic.World (JStr (lit "m1"))
                                   (Page (lit "again") [Streaming [] true []]
                                         [] [] [])))))
  = Some (Streaming (formatMarkdown
                       (escapeHtml (JStr (received scenario_chunks))))
                    true (received scenario_chunks)).
Proof.
  apply (basic_stream_removes_first_cursor [] scenario_chunks
           (Basic.World (JStr (lit "m1"))
              (Page (lit "again") [Streaming [] true []] [] [] [])));
    reflexivity.
Defined.

(** ** Line feeds and the decoder *)

Lemma lead_ok (b : Byte.byte) :
  decoder_ok (fst (TextDecoder.utf8_lead (Byte.to_N b))) = true /\
  (b <> Byte.x0a ->
   no_line_feed (snd (TextDecoder.utf8_lead (Byte.to_N b))) = true).
Proof.
  destruct b; (split; [vm_compute; reflexivity|]);
    intros H; try (vm_compute; reflexivity); congruence.
Qed.

Lemma lor_shift_not_small cp y :
  cp <> 0%N ->
  N.lor (N.shiftl cp 6) y <> 0%N /\ N.lor (N.shiftl cp 6) y <> 10%N.
Proof.
  intros Hc. split.
  - intros H. apply N.lor_eq_0_iff in H. destruct H as [H _].
    apply N.shiftl_eq_0_iff in H. contradiction.
  - intros H. apply (f_equal (fun x => N.testbit x (N.log2 cp + 6))) in H.
    rewrite N.lor_spec, N.shiftl_spec_high in H by lia.
    replace (N.log2 cp + 6 - 6)%N with (N.log2 cp) in H by lia.
    rewrite (N.bit_log2 cp Hc) in H. cbn [orb] in H.
    rewrite (N.bits_above_log2 10) in H; [discriminate|].
    change (N.log2 10) with 3%N. lia.
Qed.

Lemma continuation_low (b : Byte.byte) :
  (144 <= Byte.to_N b)%N -> (Byte.to_N b <= 191)%N ->
  N.land (Byte.to_N b) 63 <> 0%N /\ N.land (Byte.to_N b) 63 <> 10%N.
Proof.
  destruct b; intros H1 H2;
    try (split; vm_compute; discriminate);
    exfalso; first [ revert H1; vm_compute; intros H; apply H; reflexivity
                   | revert H2; vm_compute; intros H; apply H; reflexivity ].
Qed.

Lemma byte_not_lf (b : Byte.byte) : (128 <= Byte.to_N b)%N -> b <> Byte.x0a.
Proof. intros H ->. revert H. vm_compute. intros H. apply H. reflexivity. Qed.

(** One byte keeps the decoder in such a state, and a byte other than
    0x0A gives no line feed. *)
Lemma utf8_byte_ok u (b : Byte.byte) :
  decoder_ok u = true ->
  decoder_ok (fst (TextDecoder.utf8_byte u (Byte.to_N b))) = true /\
  (b <> Byte.x0a ->
   no_line_feed (snd (TextDecoder.utf8_byte u (Byte.to_N b))) = true).
Proof.
  intros Hu. unfold TextDecoder.utf8_byte.
  destruct (TextDecoder.u_needed u =? 0)%N eqn:En; [apply lead_ok|].
  unfold decoder_ok in Hu. rewrite En in Hu. cbn [orb] in Hu.
  apply andb_true_iff in Hu. destruct Hu as [Hb Hc].
  apply andb_true_iff in Hb. destruct Hb as [Hlo Hup].
  apply N.leb_le in Hlo, Hup.
  destruct ((Byte.to_N b <? TextDecoder.u_lower u)%N
            || (TextDecoder.u_upper u <? Byte.to_N b)%N) eqn:Er.
  - destruct (lead_ok b) as [L1 L2].
    destruct (TextDecoder.utf8_lead (Byte.to_N b)) as [st' out].
    cbn [fst snd] in *. split; [exact L1|]. intros Hn.
    cbn [no_line_feed forallb]. exact (L2 Hn).
  - apply orb_false_iff in Er. destruct Er as [R1 R2].
    apply N.ltb_ge in R1, R2.
    set (cp := N.lor (N.shiftl (TextDecoder.u_cp u) 6) (N.land (Byte.to_N b) 63)).
    assert (Hcp : cp <> 0%N /\ cp <> 10%N).
    { unfold cp. destruct (TextDecoder.u_cp u =? 0)%N eqn:E0.
      - apply N.eqb_eq in E0. rewrite E0. cbn [negb orb] in Hc.
        apply N.leb_le in Hc. rewrite N.shiftl_0_l, N.lor_0_l.
        apply continuation_low; lia.
      - apply N.eqb_neq in E0. apply lor_shift_not_small. exact E0. }
    destruct Hcp as [C0 C10].
    destruct (TextDecoder.u_seen u + 1 =? TextDecoder.u_needed u)%N.
    + cbn [fst snd]. split; [reflexivity|]. intros _.
      cbn [no_line_feed forallb]. apply N.eqb_neq in C10. rewrite C10.
      reflexivity.
    + cbn [fst snd]. split; [|reflexivity].
      unfold decoder_ok.
      cbn [TextDecoder.u_lower TextDecoder.u_upper TextDecoder.u_needed
           TextDecoder.u_cp].
      apply N.eqb_neq in C0. fold cp. rewrite C0. rewrite orb_true_r.
      reflexivity.
Qed.

Lemma utf16_no_lf cp :
  (cp =? 10)%N = false -> no_line_feed (TextDecoder.utf16 cp) = true.
Proof.
  intros H. unfold TextDecoder.utf16.
  destruct (cp <=? 65535)%N; cbn [no_line_feed forallb].
  - rewrite H. reflexivity.
  - replace (55296 + N.shiftr (cp - 65536) 10 =? 10)%N with false
      by (symmetry; apply N.eqb_neq; lia).
    replace (56320 + N.land (cp - 65536) 1023 =? 10)%N with false
      by (symmetry; apply N.eqb_neq; lia).
    reflexivity.
Qed.

Lemma no_line_feed_app a b :
  no_line_feed (a ++ b) = no_line_feed a && no_line_feed b.
Proof. apply forallb_app. Qed.

Lemma emit_all_no_lf seen cps :
  no_line_feed cps = true ->
  no_line_feed (snd (TextDecoder.emit_all seen cps)) = true.
Proof.
  revert seen. induction cps as [|cp cps IH]; intros seen H; [reflexivity|].
  cbn [no_line_feed forallb] in H. apply andb_true_iff in H.
  destruct H as [H1 H2]. apply negb_true_iff in H1.
  cbn [TextDecoder.emit_all]. unfold TextDecoder.emit.
  specialize (IH true H2).
  destruct (negb seen && (cp =? 65279)%N);
    destruct (TextDecoder.emit_all true cps) as [s2 o2]; cbn [snd] in *.
  - exact IH.
  - rewrite no_line_feed_app, (utf16_no_lf cp H1), IH. reflexivity.
Qed.

Lemma decode_byte_ok d (b : Byte.byte) :
  decoder_ok (TextDecoder.d_utf8 d) = true ->
  decoder_ok (TextDecoder.d_utf8 (fst (TextDecoder.decode_byte d b))) = true /\
  (b <> Byte.x0a ->
   no_line_feed (snd (TextDecoder.decode_byte d b)) = true).
Proof.
  intros Hd. unfold TextDecoder.decode_byte.
  destruct (utf8_byte_ok (TextDecoder.d_utf8 d) b Hd) as [U1 U2].
  destruct (TextDecoder.utf8_byte (TextDecoder.d_utf8 d) (Byte.to_N b))
    as [u cps]. cbn [fst snd] in *.
  pose proof (emit_all_no_lf (TextDecoder.d_bom_seen d) cps) as E.
  destruct (TextDecoder.emit_all (TextDecoder.d_bom_seen d) cps) as [seen out].
  cbn [fst snd TextDecoder.d_utf8] in *. split; [exact U1|].
  intros Hn. apply E, U2, Hn.
Qed.

(** Decoding keeps the decoder in such a state; bytes without 0x0A
    decode to a text without line feed, whatever sequence the chunk
    before left unfinished. *)
Lemma decode_ok bytes :
  forall d,
    decoder_ok (TextDecoder.d_utf8 d) = true ->
    decoder_ok (TextDecoder.d_utf8 (fst (TextDecoder.decode d bytes))) = true /\
    (Forall (fun b => b <> Byte.x0a) bytes ->
     no_line_feed (snd (TextDecoder.decode d bytes)) = true).
Proof.
  induction bytes as [|b bytes IH]; intros d Hd; cbn [TextDecoder.decode].
  - split; [exact Hd | reflexivity].
  - destruct (decode_byte_ok d b Hd) as [B1 B2].
    destruct (TextDecoder.decode_byte d b) as [d1 o1]. cbn [fst snd] in *.
    destruct (IH d1 B1) as [I1 I2].
    destruct (TextDecoder.decode d1 bytes) as [d2 o2]. cbn [fst snd] in *.
    split; [exact I1|]. intros H. inversion H as [|? ? Hb Hbs]; subst.
    rewrite no_line_feed_app, (B2 Hb), (I2 Hbs). reflexivity.
Qed.

Lemma no_line_feed_Forall s :
  no_line_feed s = true -> Forall (fun c => c <> 10%N) s.
Proof.
  intros H. apply forallb_Forall in H. eapply Forall_impl; [exact H|].
  intros c Hc. apply negb_true_iff, N.eqb_neq in Hc. exact Hc.
Qed.

(** ** The multi-chat client on any stream *)

Lemma remove_cursor_cons n ns :
  remove_cursor (n :: ns)
  = if has_cursor n then uncursor n :: ns else n :: remove_cursor ns.
Proof. destruct n as [cls body|html [|] raw]; reflexivity. Qed.

(** Writing into an element and removing the first cursor commute. *)
Lemma remove_cursor_alter (f : node -> node) h ns :
  (forall n, f (uncursor n) = uncursor (f n)) ->
  (forall n, has_cursor (f n) = has_cursor n) ->
  remove_cursor (alter f h ns) = alter f h (remove_cursor ns).
Proof.
  intros Hu Hc. revert h. induction ns as [|n ns IH]; intros h; [reflexivity|].
  destruct h as [|h]; cbn [alter list_alter]; rewrite !remove_cursor_cons.
  - rewrite Hc. destruct (has_cursor n); cbn [alter list_alter];
      [rewrite Hu|]; reflexivity.
  - destruct (has_cursor n); cbn [alter list_alter]; [reflexivity|].
    f_equal. apply IH.
Qed.

Lemma iter_remove_cursor_alter (f : node -> node) h k ns :
  (forall n, f (uncursor n) = uncursor (f n)) ->
  (forall n, has_cursor (f n) = has_cursor n) ->
  Nat.iter k remove_cursor (alter f h ns)
  = alter f h (Nat.iter k remove_cursor ns).
Proof.
  intros Hu Hc. induction k as [|k IH]; [reflexivity|].
  rewrite !Nat.iter_succ, IH. apply remove_cursor_alter; assumption.
Qed.

Lemma set_raw_uncursor v n : set_raw v (uncursor n) = uncursor (set_raw v n).
Proof. destruct n; reflexivity. Qed.

Lemma set_html_uncursor v n : set_html v (uncursor n) = uncursor (set_html v n).
Proof. destruct n; reflexivity. Qed.

Lemma set_raw_cursor v n : has_cursor (set_raw v n) = has_cursor n.
Proof. destruct n; reflexivity. Qed.

Lemma set_html_cursor v n : has_cursor (set_html v n) = has_cursor n.
Proof. destruct n; reflexivity. Qed.

Section AppAnyStream.

Variable marked_parse : jsstring -> jsstring.
Variable type_error_message : jsstring.
Variable n h : nat.
Variable a0 : jsstring.
Variable w0 : App.world.
Variable c0 : App.chat.
Variable e0 : App.exchange.

Hypothesis current_chat : App.chats w0 !! App.currentChatId w0 = Some c0.
Hypothesis current_exchange : App.messages c0 !! n = Some e0.
Hypothesis current_text : App.answer e0 = a0.

Local Abbreviation chatIndex := (Z.of_nat n).
Local Abbreviation state := (app_state marked_parse n h a0 w0).
Local Abbreviation on_line :=
  (App.on_line marked_parse type_error_message chatIndex h h).

Lemma at_index_nat {A : Type} (l : list A) : App.at_index l chatIndex = l !! n.
Proof.
  unfold App.at_index.
  replace (Z.of_nat n <? 0)%Z with false by (symmetry; apply Z.ltb_ge; lia).
  rewrite Nat2Z.id. reflexivity.
Qed.

Lemma with_answer_lookup a :
  with_answer n a w0 !! App.currentChatId w0
  = Some (App.Chat (App.name c0)
            (alter (App.set_answer a) n (App.messages c0))).
Proof.
  unfold with_answer. rewrite lookup_alter_eq, current_chat. reflexivity.
Qed.

Lemma with_answer_start : with_answer n a0 w0 = App.chats w0.
Proof.
  unfold with_answer. apply map_eq. intros id.
  destruct (decide (id = App.currentChatId w0)) as [->|Hne].
  - rewrite lookup_alter_eq, current_chat. cbn. f_equal.
    destruct c0 as [nm msgs]. unfold App.set_messages. cbn in *. f_equal.
    apply list_eq. intros i. rewrite list_lookup_alter.
    case_decide; [|reflexivity]. subst i. rewrite current_exchange. cbn.
    destruct e0 as [q a]. cbn in *. subst a. reflexivity.
  - rewrite lookup_alter_ne by congruence. reflexivity.
Qed.

Lemma state_start : state 0 [] = w0.
Proof.
  unfold app_state. rewrite app_nil_r, with_answer_start.
  change (Nat.iter 0 remove_cursor) with (fun x : list node => x).
  cbn [app_show].
  rewrite list_alter_id by reflexivity.
  destruct w0 as [cs cur sm [u cw al rq co]]. reflexivity.
Qed.

Lemma state_answer k raw :
  App.current_answer chatIndex (state k raw) = Some (a0 ++ raw).
Proof.
  unfold App.current_answer, app_state. cbn [App.chats App.currentChatId].
  rewrite with_answer_lookup. cbn. rewrite at_index_nat, list_lookup_alter_eq.
  rewrite current_exchange. reflexivity.
Qed.

Lemma with_answer_append a text ui' :
  App.chats (App.append_answer chatIndex text
               (App.World (with_answer n a w0) (App.currentChatId w0)
                          (App.selectedModel w0) ui'))
  = with_answer n (a ++ text) w0 /\
  App.ui (App.append_answer chatIndex text
            (App.World (with_answer n a w0) (App.currentChatId w0)
                       (App.selectedModel w0) ui')) = ui' /\
  App.currentChatId (App.append_answer chatIndex text
            (App.World (with_answer n a w0) (App.currentChatId w0)
                       (App.selectedModel w0) ui')) = App.currentChatId w0 /\
  App.selectedModel (App.append_answer chatIndex text
            (App.World (with_answer n a w0) (App.currentChatId w0)
                       (App.selectedModel w0) ui')) = App.selectedModel w0.
Proof.
  unfold App.append_answer. cbn [App.chats App.currentChatId].
  rewrite with_answer_lookup. cbn [App.messages].
  rewrite at_index_nat, list_lookup_alter_eq, current_exchange. cbn [fmap option_fmap option_map].
  cbn [App.set_chats App.chats App.ui App.currentChatId App.selectedModel].
  split; [|repeat split]. rewrite Nat2Z.id.
  unfold with_answer. apply map_eq. intros id.
  destruct (decide (id = App.currentChatId w0)) as [->|Hne].
  - rewrite lookup_insert_eq, lookup_alter_eq, current_chat. cbn. f_equal.
    unfold App.set_messages. cbn. f_equal.
    apply list_eq. intros i. rewrite list_lookup_insert, !list_lookup_alter.
    rewrite length_alter.
    destruct (decide (i = n)) as [->|Hi].
    + rewrite decide_True
        by (split; [reflexivity | apply lookup_lt_Some in current_exchange; lia]).
      rewrite decide_True by reflexivity.
      rewrite current_exchange. reflexivity.
    + rewrite decide_False by (intros [? _]; congruence).
      rewrite decide_False by congruence. rewrite decide_False by congruence.
      reflexivity.
  - rewrite lookup_insert_ne, !lookup_alter_ne by congruence. reflexivity.
Qed.


Lemma app_show_uncursor raw x :
  app_show marked_parse a0 raw (uncursor x)
  = uncursor (app_show marked_parse a0 raw x).
Proof. destruct raw; [reflexivity|]. destruct x; reflexivity. Qed.

Lemma app_show_cursor raw x :
  has_cursor (app_show marked_parse a0 raw x) = has_cursor x.
Proof. destruct raw; [reflexivity|]. destruct x; reflexivity. Qed.

Lemma state_show k raw raw' (cw : list node) :
  raw' <> [] ->
  alter (set_html (marked_parse (a0 ++ raw'))) h
    (alter (set_raw raw') h
       (Nat.iter k remove_cursor (alter (app_show marked_parse a0 raw) h cw)))
  = Nat.iter k remove_cursor (alter (app_show marked_parse a0 raw') h cw).
Proof.
  intros Hne.
  rewrite !(iter_remove_cursor_alter _ h k cw)
    by (intros; first [apply app_show_uncursor | apply app_show_cursor]).
  rewrite !list_alter_alter_eq. apply list_alter_ext; [|reflexivity].
  intros x _. destruct raw' as [|c r]; [congruence|].
  cbn [app_show]. destruct raw; destruct x; reflexivity.
Qed.

(** One line: the state after it is again of that form. *)
Lemma on_line_state x k raw :
  exists k',
    on_line x (raw, state k raw)
    = flow_map (fun r => (r, state k' r)) (line_raw x raw).
Proof.
  unfold App.on_line, line_raw. cbv zeta.
  destruct (truthy (JStr (trim x))) eqn:Et; cbn [negb].
  2:{ destruct (starts_with data_prefix x) eqn:E.
      - rewrite (data_prefix_nonblank x E) in Et. discriminate.
      - exists k. reflexivity. }
  destruct (starts_with data_prefix x); [|exists k; reflexivity].
  destruct (jsstring_eqb _ DONE).
  - exists (S k). reflexivity.
  - set (text := trim (replace_first data_prefix [] x) ++ [chLF]).
    set (raw' := raw ++ text).
    set (ui1 := set_chatWindow
                  (alter (set_raw raw') h (chatWindow (App.ui (state k raw))))
                  (App.ui (state k raw))).
    change (App.set_ui ui1 (state k raw))
      with (App.World (with_answer n (a0 ++ raw) w0) (App.currentChatId w0)
                      (App.selectedModel w0) ui1).
    destruct (with_answer_append (a0 ++ raw) text ui1) as (A1 & A2 & A3 & A4).
    assert (Hans : App.current_answer chatIndex
                     (App.append_answer chatIndex text
                        (App.World (with_answer n (a0 ++ raw) w0)
                           (App.currentChatId w0) (App.selectedModel w0) ui1))
                   = Some ((a0 ++ raw) ++ text)).
    { apply current_answer_append. exact (state_answer k raw). }
    rewrite Hans.
    destruct (App.append_answer chatIndex text _) as [cs cur sm ui2].
    cbn [App.chats App.ui App.currentChatId App.selectedModel] in A1, A2, A3, A4.
    subst cs ui2 cur sm.
    exists k. cbn [flow_map]. f_equal. f_equal.
    unfold app_state, App.set_ui.
    cbn [App.chats App.ui App.currentChatId App.selectedModel].
    f_equal.
    + unfold raw'. rewrite <- !app_assoc. reflexivity.
    + unfold ui1, set_chatWindow, app_state.
      cbn [App.ui chatWindow userInput alerts requests console].
      f_equal. rewrite <- app_assoc. fold raw'.
      apply state_show. unfold raw', text. intros E.
      apply app_eq_nil in E. destruct E as [_ E].
      apply app_eq_nil in E. destruct E as [_ E]. discriminate.
Qed.

Lemma for_of_state lines :
  forall k raw, exists k',
    for_of on_line lines (raw, state k raw)
    = flow_map (fun r => (r, state k' r)) (for_of line_raw lines raw).
Proof.
  induction lines as [|x lines IH]; intros k raw; cbn [for_of];
    [exists k; reflexivity|].
  destruct (on_line_state x k raw) as (k1 & ->).
  destruct (line_raw x raw) as [r1|r1|m r1]; cbn [flow_map].
  - apply IH.
  - exists k1. reflexivity.
  - exists k1. reflexivity.
Qed.

Lemma on_chunk_state value l k :
  let buffer := App.partialChunk l
                ++ snd (TextDecoder.decode (App.decoder l) value) in
  let raw' := lines_raw (complete_lines buffer) (App.rawText l) in
  exists k',
    App.on_chunk marked_parse type_error_message chatIndex h h value l
      (state k (App.rawText l))
    = Next (App.Locals (fst (TextDecoder.decode (App.decoder l) value))
                       (pending_line buffer) raw',
            state k' raw').
Proof.
  unfold App.on_chunk.
  destruct (TextDecoder.decode (App.decoder l) value) as [d chunk].
  cbn [fst snd]. rewrite split_newline, pop_lines.
  destruct (for_of_state (complete_lines (App.partialChunk l ++ chunk)) k
              (App.rawText l)) as (k' & ->).
  exists k'.
  destruct (for_of_line_raw (complete_lines (App.partialChunk l ++ chunk))
              (App.rawText l)) as [-> | ->]; reflexivity.
Qed.



(** The loop on any body: the state it leaves is of that form. *)
Lemma read_loop_state body :
  forall l k,
    match App.read_loop marked_parse type_error_message chatIndex h h body l
            (state k (App.rawText l)) with
    | Normal (l', w') | Thrown _ (l', w') =>
        exists k', w' = state k' (App.rawText l')
    end.
Proof.
  induction body as [|ev body IH]; intros l k; cbn [App.read_loop].
  - eauto.
  - destruct ev as [value|m]; [|eauto].
    destruct (on_chunk_state value l k) as (k1 & ->).
    apply (IH (App.Locals (fst (TextDecoder.decode (App.decoder l) value))
                 (pending_line
                    (App.partialChunk l
                     ++ snd (TextDecoder.decode (App.decoder l) value)))
                 (lines_raw
                    (complete_lines
                       (App.partialChunk l
                        ++ snd (TextDecoder.decode (App.decoder l) value)))
                    (App.rawText l))) k1).
Qed.

End AppAnyStream.

Section AppSend.

Variable marked_parse : jsstring -> jsstring.
Variable type_error_message : jsstring.
Variable w : App.world.

Local Abbreviation sending := (sending marked_parse w).
Local Abbreviation prompt := (trim (userInput (App.ui w))).
Local Abbreviation n := (length (App.messages (sending_chat w))).
Local Abbreviation h := (stream_handle w).
Local Abbreviation state := (app_state marked_parse n h [] sending).

Lemma sending_lookup :
  App.chats sending !! App.currentChatId sending
  = Some (App.Chat (App.name (sending_chat w))
                   (App.messages (sending_chat w) ++ [App.Exchange prompt []])).
Proof. exact (push_exchange_current prompt w). Qed.

Lemma sending_exchange :
  (App.messages (sending_chat w) ++ [App.Exchange prompt []]) !! n
  = Some (App.Exchange prompt []).
Proof. apply list_lookup_middle. reflexivity. Qed.

Lemma sending_start : state 0 [] = sending.
Proof.
  exact (state_start marked_parse n h [] sending _ _
           sending_lookup sending_exchange eq_refl).
Qed.

Lemma sent_store_eq a : with_answer n a sending = sent_store a w.
Proof.
  unfold with_answer, sent_store. apply map_eq. intros id.
  change (App.currentChatId sending) with (App.currentChatId w).
  destruct (decide (id = App.currentChatId w)) as [->|Hne].
  - rewrite lookup_alter_eq, lookup_insert_eq.
    pose proof sending_lookup as L.
    change (App.currentChatId sending) with (App.currentChatId w) in L.
    rewrite L. cbn. f_equal. unfold App.set_messages. cbn. f_equal.
    replace n with (n + 0) by lia. rewrite alter_app_r. reflexivity.
  - rewrite lookup_alter_ne, lookup_insert_ne by congruence.
    change (App.chats sending) with (App.chats (App.push_exchange prompt w)).
    apply push_exchange_other. exact Hne.
Qed.

Lemma state_window k raw :
  chatWindow (App.ui (state k raw))
  = Nat.iter k remove_cursor
      (chatWindow (App.ui w)
       ++ [app_user_message prompt; app_streaming marked_parse raw]).
Proof.
  unfold app_state. cbn [App.ui chatWindow set_chatWindow]. f_equal.
  rewrite sending_window. unfold stream_handle.
  replace (S (length (chatWindow (App.ui w))))
    with (length (chatWindow (App.ui w)) + 1) by lia.
  rewrite alter_app_r. destruct raw; reflexivity.
Qed.

Lemma state_fields k raw :
  App.chats (state k raw) = sent_store raw w /\
  App.currentChatId (state k raw) = App.currentChatId w /\
  App.selectedModel (state k raw) = App.selectedModel w /\
  userInput (App.ui (state k raw)) = [] /\
  alerts (App.ui (state k raw)) = alerts (App.ui w) /\
  requests (App.ui (state k raw)) = requests (App.ui w) ++ [app_request w] /\
  console (App.ui (state k raw)) = console (App.ui w).
Proof.
  split; [apply (sent_store_eq ([] ++ raw))|]. repeat split.
Qed.

Lemma app_world_eq (v : App.world) cs cw co :
  App.chats v = cs -> App.currentChatId v = App.currentChatId w ->
  App.selectedModel v = App.selectedModel w ->
  chatWindow (App.ui v) = cw -> console (App.ui v) = co ->
  userInput (App.ui v) = [] -> alerts (App.ui v) = alerts (App.ui w) ->
  requests (App.ui v) = requests (App.ui w) ++ [app_request w] ->
  v = App.World cs (App.currentChatId w) (App.selectedModel w)
        (Page [] cw (alerts (App.ui w))
              (requests (App.ui w) ++ [app_request w]) co).
Proof.
  destruct v as [cs' cur sm [u cw' al rq co']]. cbn.
  intros -> -> -> -> -> -> -> ->. reflexivity.
Qed.

(** The world after the stream has ended, from the state the loop
    left. *)
Lemma finished_state k raw :
  App.set_ui (set_chatWindow (remove_cursor (chatWindow (App.ui (state k raw))))
                             (App.ui (state k raw))) (state k raw)
  = App.World (sent_store raw w) (App.currentChatId w) (App.selectedModel w)
      (Page []
         (Nat.iter (S k) remove_cursor
            (chatWindow (App.ui w)
             ++ [app_user_message prompt; app_streaming marked_parse raw]))
         (alerts (App.ui w)) (requests (App.ui w) ++ [app_request w])
         (console (App.ui w))).
Proof.
  destruct (state_fields k raw) as (F1 & F2 & F3 & F4 & F5 & F6 & F7).
  apply app_world_eq; try assumption.
  cbn [App.ui App.set_ui chatWindow set_chatWindow].
  rewrite state_window. reflexivity.
Qed.

Lemma failed_uncursor X x :
  set_html (get_html (uncursor x) ++ X) (uncursor x)
  = uncursor (set_html (get_html x ++ X) x).
Proof. destruct x; reflexivity. Qed.

(** The world after the [catch] block, from the state the loop left. *)
Lemma failed_state k raw m :
  App.on_stream_error h m (state k raw)
  = App.World (sent_store (lit "Error: " ++ m) w) (App.currentChatId w)
      (App.selectedModel w)
      (Page []
         (Nat.iter k remove_cursor
            (chatWindow (App.ui w)
             ++ [app_user_message prompt; app_failed marked_parse raw m]))
         (alerts (App.ui w)) (requests (App.ui w) ++ [app_request w])
         (console (App.ui w) ++ [lit "Stream error: " ++ m])).
Proof.
  destruct (state_fields k raw) as (F1 & F2 & F3 & F4 & F5 & F6 & F7).
  destruct (on_stream_error_chats h m (state k raw)) as [E1 E2].
  destruct (on_stream_error_page h m (state k raw)) as (P1 & P2 & P3).
  apply app_world_eq.
  - rewrite E2, F2, F1. unfold sent_store at 1. rewrite lookup_insert_eq.
    cbn [App.messages].
    replace (0 <? length (App.messages (sending_chat w) ++ [App.Exchange prompt raw]))
      with true by (symmetry; apply Nat.ltb_lt; rewrite length_app; simpl; lia).
    rewrite alter_last. unfold sent_store, App.set_messages. cbn [App.name].
    apply insert_insert_eq.
  - rewrite E1. exact F2.
  - unfold App.on_stream_error. cbv zeta.
    destruct (App.chats _ !! _) as [c|]; [destruct (0 <? _)|]; exact F3.
  - assert (W : chatWindow (App.ui (App.on_stream_error h m (state k raw)))
                = alter (fun x => set_html (get_html x ++ lit "<br><em>"
                                    ++ App.escapeHtml (lit "Error: " ++ m)
                                    ++ lit "</em>") x)
                        h (chatWindow (App.ui (state k raw)))).
    { unfold App.on_stream_error. cbv zeta.
      destruct (App.chats _ !! _) as [c|]; [destruct (0 <? _)|]; reflexivity. }
    rewrite W, state_window.
    rewrite <- iter_remove_cursor_alter.
    + f_equal. unfold stream_handle.
      replace (S (length (chatWindow (App.ui w))))
        with (length (chatWindow (App.ui w)) + 1) by lia.
      rewrite alter_app_r. unfold app_failed.
      destruct raw; reflexivity.
    + intros x. apply failed_uncursor.
    + intros x. destruct x; reflexivity.
  - unfold App.on_stream_error. cbv zeta.
    destruct (App.chats _ !! _) as [c|]; [destruct (0 <? _)|];
      cbn [App.ui App.set_ui App.set_chats console set_chatWindow console_error];
      rewrite F7; reflexivity.
  - rewrite P1. exact F4.
  - rewrite P2. exact F5.
  - rewrite P3. exact F6.
Qed.

Hypothesis prompt_given : truthy (JStr prompt) = true.
Hypothesis model_selected : truthy (App.selectedModel w) = true.

Lemma sending_index :
  (Z.of_nat (length (App.messages (sending_chat w) ++ [App.Exchange prompt []]))
   - 1)%Z = Z.of_nat n.
Proof. rewrite length_app. cbn [length]. lia. Qed.

(** [sendMessage] of the multi-chat client when the request fails. *)
Lemma app_sendMessage_rejected reply m :
  (reply = Rejected m \/ exists body, reply = Response false m body) ->
  App.sendMessage marked_parse type_error_message reply w
  = App.World (sent_store (lit "Error: " ++ m) w) (App.currentChatId w)
      (App.selectedModel w)
      (Page []
         (chatWindow (App.ui w)
          ++ [app_user_message prompt; app_failed marked_parse [] m])
         (alerts (App.ui w)) (requests (App.ui w) ++ [app_request w])
         (console (App.ui w) ++ [lit "Stream error: " ++ m])).
Proof.
  intros Hr.
  rewrite (sendMessage_unfold marked_parse type_error_message reply w
             prompt_given model_selected).
  assert (E : match reply with
              | Rejected m0 => Thrown m0 sending
              | Response false statusText _ => Thrown statusText sending
              | Response true _ body =>
                  App.processStreamResponse marked_parse type_error_message
                    body h h sending
              end = Thrown m sending).
  { destruct Hr as [->|[body ->]]; reflexivity. }
  rewrite E, <- sending_start. exact (failed_state 0 [] m).
Qed.



(** [sendMessage] of the multi-chat client for any reply. *)
Lemma app_sendMessage_any reply :
  exists a cw co,
    App.sendMessage marked_parse type_error_message reply w
    = App.World (sent_store a w) (App.currentChatId w) (App.selectedModel w)
        (Page [] cw (alerts (App.ui w))
              (requests (App.ui w) ++ [app_request w]) co).
Proof.
  destruct reply as [m|[|] st body].
  - rewrite (app_sendMessage_rejected (Rejected m) m (or_introl eq_refl)). eauto.
  - rewrite (sendMessage_unfold marked_parse type_error_message _ w
               prompt_given model_selected).
    unfold App.processStreamResponse. rewrite sending_lookup.
    cbn [App.messages]. rewrite sending_index.
    pose proof (read_loop_state marked_parse type_error_message n h [] sending
                  _ _ sending_lookup sending_exchange body
                  (App.Locals TextDecoder.create [] []) 0) as H.
    cbn [App.rawText] in H. rewrite sending_start in H.
    destruct (App.read_loop _ _ _ _ _ body _ sending)
      as [[l' w']|m [l' w']]; destruct H as (k & ->).
    + rewrite finished_state. eauto.
    + rewrite failed_state. eauto.
  - rewrite (app_sendMessage_rejected (Response false st body) st
               (or_intror (ex_intro _ body eq_refl))). eauto.
Qed.

End AppSend.
















(** ** The unfinished line at the end of a stream *)

Lemma receive_app chunks1 chunks2 :
  forall d partial raw,
    receive (chunks1 ++ chunks2) d partial raw
    = let '(d', partial', raw') := receive chunks1 d partial raw in
      receive chunks2 d' partial' raw'.
Proof.
  induction chunks1 as [|c cs IH]; intros d partial raw; cbn [app receive].
  - reflexivity.
  - destruct (TextDecoder.decode d c) as [d1 o1]. apply IH.
Qed.

Lemma receive_good chunks :
  forall d partial raw,
    decoder_ok (TextDecoder.d_utf8 d) = true ->
    Forall (fun c => c <> 10%N) partial ->
    let '(d', partial', _) := receive chunks d partial raw in
    decoder_ok (TextDecoder.d_utf8 d') = true /\
    Forall (fun c => c <> 10%N) partial'.
Proof.
  induction chunks as [|c cs IH]; intros d partial raw Hd Hp; cbn [receive].
  - split; assumption.
  - destruct (decode_ok c d Hd) as [D1 _].
    destruct (TextDecoder.decode d c) as [d1 o1]. cbn [fst] in D1.
    apply IH; [exact D1 | apply pending_line_no_break].
Qed.

Lemma buffer_no_break d partial tail :
  decoder_ok (TextDecoder.d_utf8 d) = true ->
  Forall (fun c => c <> 10%N) partial ->
  Forall (fun x => x <> Byte.x0a) tail ->
  complete_lines (partial ++ snd (TextDecoder.decode d tail)) = [].
Proof.
  intros Hd Hp Ht. destruct (decode_ok tail d Hd) as [_ D2].
  apply complete_lines_no_break. apply Forall_app. split; [exact Hp|].
  apply no_line_feed_Forall, D2, Ht.
Qed.

(** A last chunk without the byte 0x0A adds nothing to the raw text:
    the line it belongs to is never finished. *)
Lemma received_tail chunks tail :
  Forall (fun x => x <> Byte.x0a) tail ->
  received (chunks ++ [tail]) = received chunks.
Proof.
  intros Ht. unfold received. rewrite receive_app.
  pose proof (receive_good chunks TextDecoder.create [] [] eq_refl
                (List.Forall_nil _)) as G.
  destruct (receive chunks TextDecoder.create [] []) as [[d' partial'] raw'].
  destruct G as [G1 G2]. cbn [receive snd].
  pose proof (buffer_no_break d' partial' tail G1 G2 Ht) as B.
  destruct (TextDecoder.decode d' tail) as [d2 o2]. cbn [snd] in *.
  rewrite B. reflexivity.
Qed.

Section AppTail.

Variable marked_parse : jsstring -> jsstring.
Variable type_error_message : jsstring.
Variable chatIndex : Z.
Variable h : nat.
Variable tail : list Byte.byte.
Hypothesis tail_open : Forall (fun x => x <> Byte.x0a) tail.

Lemma app_on_chunk_tail l w :
  decoder_ok (TextDecoder.d_utf8 (App.decoder l)) = true ->
  Forall (fun c => c <> 10%N) (App.partialChunk l) ->
  exists l',
    App.on_chunk marked_parse type_error_message chatIndex h h tail l w
    = Next (l', w).
Proof.
  intros Hd Hp. unfold App.on_chunk.
  pose proof (buffer_no_break (App.decoder l) (App.partialChunk l) tail
                Hd Hp tail_open) as B.
  destruct (TextDecoder.decode (App.decoder l) tail) as [d chunk].
  cbn [snd] in B. rewrite split_newline, pop_lines, B. cbn [for_of]. eauto.
Qed.

Lemma app_on_chunk_good value l w :
  decoder_ok (TextDecoder.d_utf8 (App.decoder l)) = true ->
  match App.on_chunk marked_parse type_error_message chatIndex h h value l w with
  | Next (l', _) | Break (l', _) | Raise _ (l', _) =>
      decoder_ok (TextDecoder.d_utf8 (App.decoder l')) = true /\
      Forall (fun c => c <> 10%N) (App.partialChunk l')
  end.
Proof.
  intros Hd. unfold App.on_chunk.
  destruct (decode_ok value (App.decoder l) Hd) as [D1 _].
  destruct (TextDecoder.decode (App.decoder l) value) as [d chunk].
  cbn [fst] in D1. rewrite split_newline, pop_lines.
  destruct (for_of _ _ _) as [[r1 w1]|[r1 w1]|m [r1 w1]];
    (split; [exact D1 | apply pending_line_no_break]).
Qed.

Lemma app_read_loop_tail chunks :
  forall l w,
    decoder_ok (TextDecoder.d_utf8 (App.decoder l)) = true ->
    Forall (fun c => c <> 10%N) (App.partialChunk l) ->
    match App.read_loop marked_parse type_error_message chatIndex h h
            (map Chunk chunks) l w with
    | Normal (_, w1) =>
        exists l2,
          App.read_loop marked_parse type_error_message chatIndex h h
            (map Chunk (chunks ++ [tail])) l w = Normal (l2, w1)
    | Thrown m (_, w1) =>
        exists l2,
          App.read_loop marked_parse type_error_message chatIndex h h
            (map Chunk (chunks ++ [tail])) l w = Thrown m (l2, w1)
    end.
Proof.
  induction chunks as [|c cs IH]; intros l w Hd Hp;
    cbn [map app App.read_loop].
  - destruct (app_on_chunk_tail l w Hd Hp) as [l' ->]. eauto.
  - pose proof (app_on_chunk_good c l w Hd) as G.
    destruct (App.on_chunk _ _ _ _ _ c l w) as [[l1 w1]|[l1 w1]|m [l1 w1]];
      destruct G as [G1 G2].
    + apply IH; assumption.
    + apply IH; assumption.
    + eauto.
Qed.

End AppTail.

Lemma app_processStreamResponse_tail marked_parse type_error_message h
    chunks tail w :
  Forall (fun x => x <> Byte.x0a) tail ->
  App.processStreamResponse marked_parse type_error_message
    (map Chunk (chunks ++ [tail])) h h w
  = App.processStreamResponse marked_parse type_error_message
      (map Chunk chunks) h h w.
Proof.
  intros Ht. unfold App.processStreamResponse.
  destruct (App.chats w !! App.currentChatId w) as [c|]; [|reflexivity].
  cbv zeta.
  pose proof (app_read_loop_tail marked_parse type_error_message
                (Z.of_nat (length (App.messages c)) - 1) h tail Ht chunks
                (App.Locals TextDecoder.create [] []) w eq_refl
                (List.Forall_nil _)) as T.
  destruct (App.read_loop _ _ _ _ _ (map Chunk chunks) _ w)
    as [[l1 w1]|m [l1 w1]]; destruct T as [l2 ->]; reflexivity.
Qed.

(** X15. A line that the stream does not finish is dropped: a last
    chunk that holds no byte 0x0A changes nothing, in either client,
    whatever it holds and wherever the chunks before it were cut.  So
    the payload of a last data line that no line feed follows is never
    shown nor stored. *)
Theorem unfinished_last_line_dropped
    (marked_parse : jsstring -> jsstring) (type_error_message st : jsstring)
    (chunks : list (list Byte.byte)) (tail : list Byte.byte)
    (w : App.world) (b : Basic.world) :
  Forall (fun x => x <> Byte.x0a) tail ->
  App.sendMessage marked_parse type_error_message
    (Response true st (map Chunk (chunks ++ [tail]))) w
  = App.sendMessage marked_parse type_error_message
      (Response true st (map Chunk chunks)) w /\
  Basic.sendMessage (Response true st (map Chunk (chunks ++ [tail]))) b
  = Basic.sendMessage (Response true st (map Chunk chunks)) b /\
  received (chunks ++ [tail]) = received chunks.
Proof.
  intros Ht. split; [|split].
  - destruct (truthy (JStr (trim (userInput (App.ui w))))) eqn:Hp;
      [destruct (truthy (App.selectedModel w)) eqn:Hm|].
    + rewrite !(sendMessage_unfold marked_parse type_error_message _ w Hp Hm).
      rewrite app_processStreamResponse_tail by exact Ht. reflexivity.
    + unfold App.sendMessage. rewrite Hp, Hm. reflexivity.
    + unfold App.sendMessage. rewrite Hp. reflexivity.
  - destruct (truthy (JStr (trim (userInput (Basic.ui b))))) eqn:Hp;
      [destruct (truthy (Basic.selectedModel b)) eqn:Hm|].
    + rewrite !(basic_sendMessage_chunks st _ b Hp Hm).
      rewrite (received_tail chunks tail Ht). reflexivity.
    + unfold Basic.sendMessage. rewrite Hp, Hm. reflexivity.
    + unfold Basic.sendMessage. rewrite Hp. reflexivity.
  - exact (received_tail chunks tail Ht).
Qed.

Lemma unfinished_last_line_dropped_witness :
  received ([ascii_bytes (lit "data: one" ++ [chLF])]
            ++ [ascii_bytes (lit "data: two")])
  = received [ascii_bytes (lit "data: one" ++ [chLF])].
Proof.
  apply (unfinished_last_line_dropped (fun x => x) [] []
           [ascii_bytes (lit "data: one" ++ [chLF])]
           (ascii_bytes (lit "data: two"))
           (App.initial (Page [] [] [] [] []))
           (Basic.World JNull (Page [] [] [] [] []))).
  repeat constructor; discriminate.
Defined.

(** ** The chats of the multi-chat client *)

Section AppChats.

Variable marked_parse : jsstring -> jsstring.
Variable type_error_message : jsstring.

Local Abbreviation renderMessages := (App.renderMessages marked_parse).


Lemma renderMessages_store w :
  App.chats (renderMessages w) = App.chats w /\
  App.currentChatId (renderMessages w) = App.currentChatId w /\
  App.selectedModel (renderMessages w) = App.selectedModel w.
Proof.
  unfold App.renderMessages.
  destruct (App.chats w !! App.currentChatId w); repeat split.
Qed.




End AppChats.



(** X18. A Reset that the server does not confirm changes nothing but
    the alerts and the console: when the request is rejected, when the
    body is not JSON (even if the status is ok, so that the server has
    reset the chat) and when the status is not ok, the chats, the
    current chat and the chat window stay as they are, one request was
    made and one alert is shown, with the error text of the server when
    it sent one. *)
Theorem resetChat_failure_keeps_store
    (marked_parse : jsstring -> jsstring) (type_error_message : jsstring)
    (reply : App.reset_result) (chatId : jsstring) (w : App.world) :
  (forall error, reply <> App.ResetResponse true error) ->
  let w' := App.resetChat marked_parse type_error_message reply chatId w in
  App.chats w' = App.chats w /\
  App.currentChatId w' = App.currentChatId w /\
  App.selectedModel w' = App.selectedModel w /\
  chatWindow (App.ui w') = chatWindow (App.ui w) /\
  userInput (App.ui w') = userInput (App.ui w) /\
  requests (App.ui w') = requests (App.ui w) ++ [ResetChat chatId] /\
  alerts (App.ui w')
  = alerts (App.ui w)
    ++ [match reply with
        | App.ResetResponse false (JStr (c :: e)) => c :: e
        | _ => lit "Failed to reset chat."
        end] /\
  console (App.ui w')
  = console (App.ui w)
    ++ match reply with
       | App.ResetRejected m | App.ResetNotJson _ m =>
           [lit "Error resetting chat: " ++ m]
       | App.ResetResponse _ _ => []
       end.
Proof.
  intros Hr w'. subst w'. unfold App.resetChat.
  destruct reply as [m|ok m|[|] error].
  - cbn. repeat split.
  - cbn. repeat split.
  - exfalso. exact (Hr error eq_refl).
  - cbn. rewrite app_nil_r. destruct error as [| |[|c e]]; repeat split.
Qed.

Lemma resetChat_failure_keeps_store_witness :
  App.chats (App.resetChat (fun x => x) [] (App.ResetNotJson true (lit "Unexpected token"))
               (lit "c1")
               (App.World (<[lit "c1" := App.Chat (lit "Chat 1")
                                           [App.Exchange (lit "q") (lit "a")]]> ∅)
                          (lit "c1") JNull (Page [] [] [] [] [])))
  = <[lit "c1" := App.Chat (lit "Chat 1") [App.Exchange (lit "q") (lit "a")]]> ∅.
Proof.
  apply (resetChat_failure_keeps_store (fun x => x) []
           (App.ResetNotJson true (lit "Unexpected token")) (lit "c1")).
  intros error. discriminate.
Defined.

Section AppEvents.

Variable marked_parse : jsstring -> jsstring.
Variable type_error_message : jsstring.

Local Abbreviation run := (handle marked_parse type_error_message).
Local Abbreviation sendMessage :=
  (App.sendMessage marked_parse type_error_message).

Lemma createNewChat_named uuid dialog c nm w :
  App.createNewChat marked_parse uuid dialog (JStr (c :: nm)) w
  = App.renderMessages marked_parse
      (App.set_currentChatId uuid
         (App.set_chats (<[uuid := App.Chat (c :: nm) []]> (App.chats w)) w)).
Proof. reflexivity. Qed.

Lemma createNewChat_store uuid dialog c nm w :
  App.chats (App.createNewChat marked_parse uuid dialog (JStr (c :: nm)) w)
  = <[uuid := App.Chat (c :: nm) []]> (App.chats w) /\
  App.currentChatId
    (App.createNewChat marked_parse uuid dialog (JStr (c :: nm)) w) = uuid.
Proof.
  rewrite createNewChat_named.
  destruct (renderMessages_store marked_parse
              (App.set_currentChatId uuid
                 (App.set_chats (<[uuid := App.Chat (c :: nm) []]> (App.chats w))
                                w))) as (S1 & S2 & _).
  split; assumption.
Qed.

Lemma onNewChatClick_store uuid dialog w :
  App.chats (App.onNewChatClick marked_parse uuid dialog w)
  = <[uuid := App.Chat (lit "Chat "
                        ++ App.number_to_string (size (App.chats w) + 1)) []]>
      (App.chats w) /\
  App.currentChatId (App.onNewChatClick marked_parse uuid dialog w) = uuid.
Proof.
  unfold App.onNewChatClick.
  exact (createNewChat_store uuid dialog 67%N
           (lit "hat " ++ App.number_to_string (size (App.chats w) + 1)) w).
Qed.

(** What [sendMessage] does to the store: nothing when a guard stops
    it, one new exchange otherwise. *)
Lemma sendMessage_store reply w :
  App.currentChatId (sendMessage reply w) = App.currentChatId w /\
  (App.chats (sendMessage reply w) = App.chats w \/
   exists a, App.chats (sendMessage reply w) = sent_store a w).
Proof.
  destruct (truthy (JStr (trim (userInput (App.ui w))))) eqn:Hp;
    [destruct (truthy (App.selectedModel w)) eqn:Hm|].
  - destruct (app_sendMessage_any marked_parse type_error_message w Hp Hm reply)
      as (a & cw & co & ->).
    split; [reflexivity|]. right. exists a. reflexivity.
  - unfold App.sendMessage. rewrite Hp, Hm. split; [reflexivity | left; reflexivity].
  - unfold App.sendMessage. rewrite Hp. split; [reflexivity | left; reflexivity].
Qed.

Lemma resetChat_store reply chatId w :
  App.currentChatId
    (App.resetChat marked_parse type_error_message reply chatId w)
  = App.currentChatId w /\
  (App.chats (App.resetChat marked_parse type_error_message reply chatId w)
   = App.chats w \/
   exists c error,
     reply = App.ResetResponse true error /\
     App.chats w !! chatId = Some c /\
     App.chats (App.resetChat marked_parse type_error_message reply chatId w)
     = <[chatId := App.Chat (App.name c) []]> (App.chats w)).
Proof.
  unfold App.resetChat. destruct reply as [m|ok m|[|] error];
    try (split; [reflexivity | left; reflexivity]).
  cbn [App.chats App.set_ui].
  destruct (App.chats w !! chatId) as [c|] eqn:E.
  - destruct (renderMessages_store marked_parse
                (App.set_chats (<[chatId := App.set_messages [] c]> (App.chats w))
                   (App.set_ui (fetch (ResetChat chatId) (App.ui w)) w)))
      as (S1 & S2 & _).
    split; [exact S2|]. right. exists c, error. rewrite S1. auto.
  - split; [reflexivity | left; reflexivity].
Qed.

Lemma keydown_cases e reply w :
  snd (App.handleTextareaKeyDown marked_parse type_error_message e reply w) = w \/
  snd (App.handleTextareaKeyDown marked_parse type_error_message e reply w)
  = sendMessage reply w.
Proof.
  unfold App.handleTextareaKeyDown.
  destruct (jsstring_eqb (key e) (lit "Enter") && negb (shiftKey e)); auto.
Qed.

Lemma chats_ok_insert_current id c w v :
  App.chats v = <[id := c]> (App.chats w) ->
  App.currentChatId v = id ->
  starts_with (lit "Chat ") (App.name c) = true ->
  chats_ok w -> chats_ok v.
Proof.
  intros E1 E2 Hn [_ Hw]. unfold chats_ok. rewrite E1, E2. split.
  - rewrite lookup_insert_eq. eauto.
  - apply map_Forall_insert_2; assumption.
Qed.

Lemma chats_ok_same w v :
  App.chats v = App.chats w ->
  is_Some (App.chats w !! App.currentChatId v) ->
  chats_ok w -> chats_ok v.
Proof.
  intros E1 E2 [_ Hw]. unfold chats_ok. rewrite E1. split; assumption.
Qed.

Lemma chats_ok_sendMessage reply w : chats_ok w -> chats_ok (sendMessage reply w).
Proof.
  intros Hw. destruct (sendMessage_store reply w) as [E1 [E2|[a E2]]].
  - apply (chats_ok_same w); [exact E2 | rewrite E1; apply Hw | exact Hw].
  - destruct Hw as [[c Hc] Hn].
    apply (chats_ok_insert_current (App.currentChatId w)
             (App.Chat (App.name c)
                       (App.messages c
                        ++ [App.Exchange (trim (userInput (App.ui w))) a])) w).
    + rewrite E2. unfold sent_store, sending_chat. rewrite Hc. reflexivity.
    + exact E1.
    + exact (Hn _ _ Hc).
    + split; eauto.
Qed.

Lemma chats_ok_handle ev w : chats_ok w -> listed ev w -> chats_ok (run ev w).
Proof.
  intros Hw Hl. destruct ev as [value|uuid dialog|id|reply id|text|reply|e reply];
    cbn [handle listed] in *.
  - apply (chats_ok_same w); [reflexivity | apply Hw | exact Hw].
  - destruct (onNewChatClick_store uuid dialog w) as [E1 E2].
    apply (chats_ok_insert_current uuid _ w _ E1 E2); [|exact Hw].
    apply starts_with_app.
  - unfold App.selectChat.
    destruct (renderMessages_store marked_parse (App.set_currentChatId id w))
      as (S1 & S2 & _).
    apply (chats_ok_same w); [exact S1 | rewrite S2; exact Hl | exact Hw].
  - destruct (resetChat_store reply id w) as [E1 [E2|(c & error & _ & Hc & E2)]].
    + apply (chats_ok_same w); [exact E2 | rewrite E1; apply Hw | exact Hw].
    + destruct Hw as [[c1 Hc1] Hn]. unfold chats_ok. rewrite E1, E2. split.
      * destruct (decide (App.currentChatId w = id)) as [->|Hne].
        -- rewrite lookup_insert_eq. eauto.
        -- rewrite lookup_insert_ne by congruence. eauto.
      * apply map_Forall_insert_2; [exact (Hn _ _ Hc) | exact Hn].
  - apply (chats_ok_same w); [reflexivity | apply Hw | exact Hw].
  - apply chats_ok_sendMessage. exact Hw.
  - destruct (keydown_cases e reply w) as [-> | ->];
      [exact Hw | apply chats_ok_sendMessage; exact Hw].
Qed.

Lemma chats_ok_loaded uuid dialog options value p :
  chats_ok (App.onDOMContentLoaded marked_parse uuid dialog options value
                                   (App.initial p)).
Proof.
  unfold App.onDOMContentLoaded.
  assert (H : forall v, App.chats v = ∅ -> App.currentChatId v = [] ->
                chats_ok (if negb (truthy (JStr (App.currentChatId v)))
                          then App.createNewChat marked_parse uuid dialog
                                 (JStr (lit "Chat 1")) v
                          else v)).
  { intros v Hc Hi. rewrite Hi. cbn [truthy negb].
    destruct (createNewChat_store uuid dialog 67%N (lit "hat 1") v) as [E1 E2].
    change (JStr (67%N :: lit "hat 1")) with (JStr (lit "Chat 1")) in E1, E2.
    unfold chats_ok. rewrite E1, E2, Hc. split.
    - rewrite lookup_insert_eq. eauto.
    - apply map_Forall_insert_2; [reflexivity | apply map_Forall_empty]. }
  cbv zeta. destruct (0 <? options); apply H; reflexivity.
Qed.

Lemma reachable_ok w :
  reachable marked_parse type_error_message w -> chats_ok w.
Proof.
  induction 1 as [uuid dialog options value p|ev w _ IH Hl].
  - apply chats_ok_loaded.
  - apply chats_ok_handle; assumption.
Qed.

End AppEvents.

(** X19. Once the page is loaded, the current chat always exists, and
    every chat has a name of the form Chat N that the page load or the
    New Chat button gave it, whatever the user does and whatever the
    server answers.  So [sendMessage] always adds its exchange to a chat
    of the store: the branch that makes an Unnamed Chat is never
    taken. *)
Theorem current_chat_always_exists
    (marked_parse : jsstring -> jsstring) (type_error_message : jsstring)
    (w : App.world) :
  reachable marked_parse type_error_message w ->
  (exists c, App.chats w !! App.currentChatId w = Some c) /\
  (forall id c, App.chats w !! id = Some c ->
                starts_with (lit "Chat ") (App.name c) = true) /\
  (forall reply,
     truthy (JStr (trim (userInput (App.ui w)))) = true ->
     truthy (App.selectedModel w) = true ->
     exists c a,
       App.chats w !! App.currentChatId w = Some c /\
       App.chats (App.sendMessage marked_parse type_error_message reply w)
       = <[App.currentChatId w :=
             App.Chat (App.name c)
                      (App.messages c
                       ++ [App.Exchange (trim (userInput (App.ui w))) a])]>
           (App.chats w)).
Proof.
  intros Hr. destruct (reachable_ok marked_parse type_error_message w Hr)
    as [[c Hc] Hn].
  split; [eauto|]. split; [exact Hn|].
  intros reply Hp Hm.
  destruct (app_sendMessage_any marked_parse type_error_message w Hp Hm reply)
    as (a & cw & co & ->).
  exists c, a. split; [exact Hc|]. cbn [App.chats].
  unfold sent_store, sending_chat. rewrite Hc. reflexivity.
Qed.

Lemma current_chat_always_exists_witness :
  exists c,
    App.chats
      (handle (fun x => x) [] (ChatClick (lit "id-1"))
         (handle (fun x => x) [] (NewChatClick (lit "id-2") JNull)
            (App.onDOMContentLoaded (fun x => x) (lit "id-1") JNull 1
               (lit "m1") (App.initial (Page [] [] [] [] [])))))
    !! lit "id-1" = Some c.
Proof.
  refine (proj1 (current_chat_always_exists (fun x => x) [] _
                   (reachable_handled _ _ (ChatClick (lit "id-1")) _
                      (reachable_handled _ _ (NewChatClick (lit "id-2") JNull) _
                         (reachable_loaded _ _ (lit "id-1") JNull 1 (lit "m1")
                            (Page [] [] [] [] []))
                         I) _))).
  vm_compute. eauto.
Defined.

(** X20. No listener deletes a chat.  A chat keeps its name and the
    questions it holds, in their order, and can only get more of them,
    with two exceptions: a Reset of that chat which the server confirms
    empties it, and a new chat made under the same id replaces it. *)
Theorem chats_are_never_deleted
    (marked_parse : jsstring -> jsstring) (type_error_message : jsstring)
    (ev : event) (w : App.world) (id : jsstring) (c : App.chat) :
  App.chats w !! id = Some c ->
  exists c',
    App.chats (handle marked_parse type_error_message ev w) !! id = Some c' /\
    ((App.name c' = App.name c /\
      (App.question <$> App.messages c)
        `prefix_of` (App.question <$> App.messages c')) \/
     (exists error, ev = ResetClick (App.ResetResponse true error) id) \/
     (exists dialog, ev = NewChatClick id dialog)).
Proof.
  intros Hc.
  assert (Same : forall v, App.chats v = App.chats w ->
            exists c', App.chats v !! id = Some c' /\
              ((App.name c' = App.name c /\
                (App.question <$> App.messages c)
                  `prefix_of` (App.question <$> App.messages c')) \/
               (exists error, ev = ResetClick (App.ResetResponse true error) id) \/
               (exists dialog, ev = NewChatClick id dialog))).
  { intros v ->. exists c. split; [exact Hc|]. left. split; reflexivity. }
  assert (Send : forall reply,
            exists c', App.chats (App.sendMessage marked_parse type_error_message
                                    reply w) !! id = Some c' /\
              ((App.name c' = App.name c /\
                (App.question <$> App.messages c)
                  `prefix_of` (App.question <$> App.messages c')) \/
               (exists error, ev = ResetClick (App.ResetResponse true error) id) \/
               (exists dialog, ev = NewChatClick id dialog))).
  { intros reply.
    destruct (sendMessage_store marked_parse type_error_message reply w)
      as [_ [E|[a E]]]; [apply Same; exact E|].
    rewrite E. unfold sent_store.
    destruct (decide (id = App.currentChatId w)) as [->|Hne].
    - rewrite lookup_insert_eq. eexists. split; [reflexivity|]. left.
      unfold sending_chat. rewrite Hc. cbn. split; [reflexivity|].
      rewrite fmap_app. apply prefix_app_r. reflexivity.
    - rewrite lookup_insert_ne by congruence. exists c. split; [exact Hc|].
      left. split; reflexivity. }
  destruct ev as [value|uuid dialog|cid|reply cid|text|reply|e reply];
    cbn [handle].
  - apply Same. reflexivity.
  - destruct (onNewChatClick_store marked_parse uuid dialog w) as [E _].
    rewrite E. destruct (decide (id = uuid)) as [->|Hne].
    + rewrite lookup_insert_eq. eexists. split; [reflexivity|].
      right. right. eauto.
    + rewrite lookup_insert_ne by congruence. exists c. split; [exact Hc|].
      left. split; reflexivity.
  - apply Same. unfold App.selectChat.
    apply (renderMessages_store marked_parse (App.set_currentChatId cid w)).
  - destruct (resetChat_store marked_parse type_error_message reply cid w)
      as [_ [E|(c0 & error & -> & Hc0 & E)]]; [apply Same; exact E|].
    rewrite E. destruct (decide (id = cid)) as [->|Hne].
    + rewrite lookup_insert_eq. eexists. split; [reflexivity|].
      right. left. eauto.
    + rewrite lookup_insert_ne by congruence. exists c. split; [exact Hc|].
      left. split; reflexivity.
  - apply Same. reflexivity.
  - apply Send.
  - destruct (keydown_cases marked_parse type_error_message e reply w)
      as [-> | ->]; [apply Same; reflexivity | apply Send].
Qed.

Lemma chats_are_never_deleted_witness :
  exists c',
    App.chats (handle (fun x => x) [] (SendClick (Rejected (lit "offline")))
                 (App.World (<[lit "c1" := App.Chat (lit "Chat 1") []]> ∅)
                            (lit "c1") (JStr (lit "m1"))
                            (Page (lit "Hello") [] [] [] [])))
    !! lit "c1" = Some c'.
Proof.
  destruct (chats_are_never_deleted (fun x => x) []
              (SendClick (Rejected (lit "offline")))
              (App.World (<[lit "c1" := App.Chat (lit "Chat 1") []]> ∅)
                         (lit "c1") (JStr (lit "m1"))
                         (Page (lit "Hello") [] [] [] []))
              (lit "c1") (App.Chat (lit "Chat 1") [])
              (lookup_insert_eq _ _ _)) as (c' & H & _).
  exists c'. exact H.
Defined.

(** X21. The button under an answer shows and hides the raw output.
    In the multi-chat client the raw container starts hidden, and after
    [n] clicks it is shown exactly when [n] is odd.  In the single-chat
    client the display is not set at the start, so the first click sets
    it to none: after [n] clicks, [n] at least one, the container is
    shown exactly when [n] is even.  After any click, from any state,
    the button says Show raw output exactly when the display is
    none. *)
Theorem raw_toggle_clicks (n : nat) :
  Nat.iter n App.toggleRaw App.new_toggle
  = (if Nat.even n
     then RawToggle (lit "none") (lit "Show raw output")
     else RawToggle (lit "block") (lit "Hide raw output")) /\
  Nat.iter (S n) Basic.toggleRawOutput Basic.new_toggle
  = (if Nat.even n
     then RawToggle (lit "none") (lit "Show raw output")
     else RawToggle (lit "block") (lit "Hide raw output")) /\
  (forall t,
     (label (App.toggleRaw t) = lit "Show raw output"
      <-> display (App.toggleRaw t) = lit "none") /\
     (label (Basic.toggleRawOutput t) = lit "Show raw output"
      <-> display (Basic.toggleRawOutput t) = lit "none")).
Proof.
  split; [|split].
  - induction n as [|n IH]; [reflexivity|].
    rewrite Nat.iter_succ, IH, Nat.even_succ, <- Nat.negb_even.
    destruct (Nat.even n); reflexivity.
  - induction n as [|n IH]; [reflexivity|].
    rewrite Nat.iter_succ, IH, Nat.even_succ, <- Nat.negb_even.
    destruct (Nat.even n); reflexivity.
  - intros t. split.
    + unfold App.toggleRaw.
      destruct (jsstring_eqb (display t) (lit "none")
                || jsstring_eqb (display t) []);
        cbn [label display]; split; intros H; vm_compute in H; discriminate
        || reflexivity.
    + unfold Basic.toggleRawOutput.
      destruct (jsstring_eqb (display t) (lit "none"));
        cbn [label display]; split; intros H; vm_compute in H; discriminate
        || reflexivity.
Qed.
